(** * HTR error classifier: character alignment, word alignment and error
      classification of [classify_errors.py], embedded and verified.

    Python integers are unbounded: indices are [Z] where the source subtracts
    from them, [nat] where they come from [range] or [len].  A Python [str]
    is a sequence of Unicode code points; a character is the code point
    itself.  Code that indexes a list or a string can raise [IndexError]:
    such code returns [option], and [None] stands for "no result". *)

From Stdlib Require Import ZArith QArith.
From stdpp Require Import base option list sorting gmap strings.

#[local] Set Warnings "-clear-no-such-hyp".
Local Open Scope nat_scope.

(** ** Python values *)

Definition char := N.
Definition str := list char.

(** [u "abc"] is the Python string with the same (8-bit) characters. *)
Definition u (s : string) : str :=
  (λ a, N.of_nat (Ascii.nat_of_ascii a)) <$> String.list_ascii_of_string s.

(** [l[k]] for a Python list or string: a negative index counts from the
    end, an index out of range raises. *)
Definition py_index {A} (l : list A) (k : Z) : option nat :=
  if decide (0 ≤ k)%Z then
    if decide (k < Z.of_nat (length l))%Z then Some (Z.to_nat k) else None
  else
    if decide (0 ≤ Z.of_nat (length l) + k)%Z
    then Some (Z.to_nat (Z.of_nat (length l) + k)) else None.

Definition py_get {A} (l : list A) (k : Z) : option A :=
  i ← py_index l k; l !! i.

(** [l[k] = v] *)
Definition py_set {A} (l : list A) (k : Z) (v : A) : option (list A) :=
  i ← py_index l k; Some (<[i:=v]> l).

(** [range(lo, hi)] *)
Definition range (lo hi : nat) : list nat := seq lo (hi - lo).

(** [for x in xs: s = body(s, x)], where the body may raise. *)
Fixpoint for_loop {S X} (xs : list X) (body : S → X → option S) (s : S)
  : option S :=
  match xs with
  | [] => Some s
  | x :: xs' => s' ← body s x; for_loop xs' body s'
  end.

(** [b and e], where [e] is evaluated only when [b] holds. *)
Definition and_then (b : bool) (e : option bool) : option bool :=
  if b then e else Some false.

(** [min(a, b, c)] on integers. *)
Definition min3 (a b c : nat) : nat := a `min` (b `min` c).

(** ** Data model *)

(** Character-level edit operation.  [ref_char] and [hyp_char] are Python
    strings of length one, or the empty string. *)
Record EditOp := mkEditOp {
  ref_char : str;
  hyp_char : str;
  operation : string  (* "S", "D", "I", "=" *)
}.

(** Word-level edit operation.  The field [operation] of the source is
    [word_operation] here, apart from the one of [EditOp]; [word_align]
    produces the first four tags only. *)
Record WordEditOp := mkWordEditOp {
  ref_words : list str;
  hyp_words : list str;
  word_operation : string  (* "S", "D", "I", "=", "MERGE", "SPLIT" *)
}.

Module ErrorType.
Definition CHAR_SUB : string := "char_substitution".
Definition CHAR_DEL : string := "char_deletion".
Definition CHAR_INS : string := "char_insertion".
Definition WORD_MERGE : string := "word_merge".
Definition WORD_SPLIT : string := "word_split".
Definition LEX_SUB : string := "lexical_substitution".
Definition ABBR_EXP : string := "abbrev_expansion".
End ErrorType.

#[global] Instance EditOp_eq_dec : EqDecision EditOp.
Proof. solve_decision. Defined.

#[global] Instance WordEditOp_eq_dec : EqDecision WordEditOp.
Proof. solve_decision. Defined.

(** ** levenshtein_align *)

(** The table [dp] is a list of [n+1] rows of [m+1] integers.  The rows are
    built by a comprehension, so they are distinct lists: writing one cell
    changes one row. *)
Abbreviation dp_table := (list (list nat)).

Definition dp_get (dp : dp_table) (i j : Z) : option nat :=
  row ← py_get dp i; py_get row j.

Definition dp_set (dp : dp_table) (i j : Z) (v : nat) : option dp_table :=
  row ← py_get dp i; row' ← py_set row j v; py_set dp i row'.

(** The body of the two nested loops that fill the table. *)
Definition dp_cell (ref hyp : str) (i : nat) (dp : dp_table) (j : nat)
  : option dp_table :=
  ci ← py_get ref (Z.of_nat i - 1);
  cj ← py_get hyp (Z.of_nat j - 1);
  let cost := if decide (ci = cj) then 0 else 1 in
  del ← dp_get dp (Z.of_nat i - 1) (Z.of_nat j);
  ins ← dp_get dp (Z.of_nat i) (Z.of_nat j - 1);
  sub ← dp_get dp (Z.of_nat i - 1) (Z.of_nat j - 1);
  dp_set dp (Z.of_nat i) (Z.of_nat j) (min3 (del + 1) (ins + 1) (sub + cost)).

Definition dp_row (ref hyp : str) (dp : dp_table) (i : nat) : option dp_table :=
  for_loop (range 1 (length hyp + 1)) (dp_cell ref hyp i) dp.

Definition build_dp (ref hyp : str) : option dp_table :=
  let n := length ref in
  let m := length hyp in
  let dp := replicate (n + 1) (replicate (m + 1) 0) in
  dp ← for_loop (range 0 (n + 1)) (λ dp i, dp_set dp (Z.of_nat i) 0 i) dp;
  dp ← for_loop (range 0 (m + 1)) (λ dp j, dp_set dp 0 (Z.of_nat j) j) dp;
  for_loop (range 1 (n + 1)) (dp_row ref hyp) dp.

(** State of the backtrace loop: the cell [(i, j)] and the operations
    appended so far. *)
Record bt_state := BtState { bt_i : Z; bt_j : Z; bt_ops : list EditOp }.

Definition bt_cond (st : bt_state) : bool :=
  bool_decide (0 < bt_i st)%Z || bool_decide (0 < bt_j st)%Z.

(** One iteration of the [while] loop, branch by branch. *)
Definition bt_step (ref hyp : str) (dp : dp_table) (st : bt_state)
  : option bt_state :=
  let i := bt_i st in
  let j := bt_j st in
  let ops := bt_ops st in
  let both := bool_decide (0 < i)%Z && bool_decide (0 < j)%Z in
  is_match ← and_then both
    (ci ← py_get ref (i - 1)%Z; cj ← py_get hyp (j - 1)%Z;
     Some (bool_decide (ci = cj)));
  if (is_match : bool) then
    ci ← py_get ref (i - 1)%Z; cj ← py_get hyp (j - 1)%Z;
    Some (BtState (i - 1)%Z (j - 1)%Z (ops ++ [mkEditOp [ci] [cj] "="]))
  else
    is_sub ← and_then both
      (cur ← dp_get dp i j; diag ← dp_get dp (i - 1)%Z (j - 1)%Z;
       Some (bool_decide (cur = diag + 1)));
    if (is_sub : bool) then
      ci ← py_get ref (i - 1)%Z; cj ← py_get hyp (j - 1)%Z;
      Some (BtState (i - 1)%Z (j - 1)%Z (ops ++ [mkEditOp [ci] [cj] "S"]))
    else
      is_del ← and_then (bool_decide (0 < i)%Z)
        (cur ← dp_get dp i j; up ← dp_get dp (i - 1)%Z j;
         Some (bool_decide (cur = up + 1)));
      if (is_del : bool) then
        ci ← py_get ref (i - 1)%Z;
        Some (BtState (i - 1)%Z j (ops ++ [mkEditOp [ci] [] "D"]))
      else
        cj ← py_get hyp (j - 1)%Z;
        Some (BtState i (j - 1)%Z (ops ++ [mkEditOp [] [cj] "I"])).

(** [while i > 0 or j > 0: ...].  The loop stops by itself; [fuel] bounds
    the number of iterations and [None] is returned when it is used up
    with the condition still true. *)
Fixpoint bt_loop (fuel : nat) (ref hyp : str) (dp : dp_table) (st : bt_state)
  : option bt_state :=
  if bt_cond st then
    match fuel with
    | 0 => None
    | S fuel' => st' ← bt_step ref hyp dp st; bt_loop fuel' ref hyp dp st'
    end
  else Some st.

Definition levenshtein_align (ref hyp : str) : option (list EditOp) :=
  let n := length ref in
  let m := length hyp in
  dp ← build_dp ref hyp;
  st ← bt_loop (n + m) ref hyp dp (BtState (Z.of_nat n) (Z.of_nat m) []);
  Some (reverse (bt_ops st)).


(** ** Levenshtein distance *)

(** An edit script turning [s] into [t], with its cost: keeping a character
    is free, substituting, deleting or inserting one costs one. *)
Inductive edit_script : str → str → nat → Prop :=
  | es_nil : edit_script [] [] 0
  | es_keep c s t d : edit_script s t d → edit_script (c :: s) (c :: t) d
  | es_sub c c' s t d : edit_script s t d → edit_script (c :: s) (c' :: t) (S d)
  | es_del c s t d : edit_script s t d → edit_script (c :: s) t (S d)
  | es_ins c' s t d : edit_script s t d → edit_script s (c' :: t) (S d).

(** [d] is the Levenshtein distance of [s] and [t]: the cost of a cheapest
    edit script. *)
Definition is_levenshtein (s t : str) (d : nat) : Prop :=
  edit_script s t d ∧ ∀ d', edit_script s t d' → d ≤ d'.

(** The classic recursive definition. *)
Fixpoint lev (s : str) : str → nat :=
  fix lev_s (t : str) : nat :=
    match s, t with
    | [], _ => length t
    | _, [] => length s
    | a :: s', b :: t' =>
        min3 (lev s' t + 1) (lev_s t' + 1)
             (lev s' t' + (if decide (a = b) then 0 else 1))
    end.

(** Number of non-Match operations of an alignment. *)
Definition non_match (op : EditOp) : bool :=
  bool_decide (operation op ∈ ["S"; "D"; "I"]).

Definition non_match_count (ops : list EditOp) : nat :=
  length (filter (λ op, non_match op = true) ops).

(** Concatenation of the [ref_char] (resp. [hyp_char]) fields; the empty
    string of an Insert (resp. Delete) contributes nothing. *)
Definition ref_text (ops : list EditOp) : str := concat (ref_char <$> ops).
Definition hyp_text (ops : list EditOp) : str := concat (hyp_char <$> ops).

(** The cell [dp[i][j]] for indices that are natural numbers. *)
Definition cell (dp : dp_table) (i j : nat) : option nat :=
  row ← dp !! i; row !! j.

(** A table with rows [0..n] and columns [0..m]. *)
Definition dp_shape (n m : nat) (dp : dp_table) : Prop :=
  length dp = S n ∧ Forall (λ row, length row = S m) dp.

(** The cells of [dp] selected by [R] hold the distance of the prefixes
    [ref[:i]] and [hyp[:j]]. *)
Definition dp_filled (ref hyp : str) (R : nat → nat → Prop) (dp : dp_table)
  : Prop :=
  dp_shape (length ref) (length hyp) dp ∧
  ∀ i j, R i j → cell dp i j = Some (lev (take i ref) (take j hyp)).

(** The four shapes of a character edit: both characters present and equal
    for a Match, both present and different for a Substitute, only the
    reference character for a Delete, only the hypothesis character for an
    Insert. *)
Definition well_formed_op (op : EditOp) : Prop :=
  (∃ c, op = mkEditOp [c] [c] "=") ∨
  (∃ c c', c ≠ c' ∧ op = mkEditOp [c] [c'] "S") ∨
  (∃ c, op = mkEditOp [c] [] "D") ∨
  (∃ c, op = mkEditOp [] [c] "I").

(** Invariant of the backtrace loop at cell [(i, j)]: the operations
    appended so far, read backwards, align the suffixes [ref[i:]] and
    [hyp[j:]], and their cost is what remains of the distance once the
    distance of the prefixes is taken off. *)
Definition bt_inv (ref hyp : str) (st : bt_state) : Prop :=
  ∃ i j : nat,
    bt_i st = Z.of_nat i ∧ bt_j st = Z.of_nat j ∧
    i ≤ length ref ∧ j ≤ length hyp ∧
    non_match_count (bt_ops st) + lev (take i ref) (take j hyp) = lev ref hyp ∧
    ref_text (reverse (bt_ops st)) = drop i ref ∧
    hyp_text (reverse (bt_ops st)) = drop j hyp ∧
    Forall well_formed_op (bt_ops st).

Definition bt_measure (st : bt_state) : nat := Z.to_nat (bt_i st + bt_j st).

(** ** classify_char_errors *)

(** [d[k] += 1] on a [defaultdict(int)] or a [Counter]. *)
Definition incr `{Countable K} (k : K) (d : gmap K nat) : gmap K nat :=
  <[k := default 0 (d !! k) + 1]> d.

(** [d.get(k, 0)] *)
Definition get0 `{Countable K} (d : gmap K nat) (k : K) : nat :=
  default 0 (d !! k).

Definition classify_char_step
    (acc : gmap string nat * gmap (str * str) nat) (op : EditOp)
  : gmap string nat * gmap (str * str) nat :=
  let '(stats, sub_pairs) := acc in
  if decide (operation op = "S") then
    (incr ErrorType.CHAR_SUB stats, incr (ref_char op, hyp_char op) sub_pairs)
  else if decide (operation op = "D") then
    (incr ErrorType.CHAR_DEL stats, sub_pairs)
  else if decide (operation op = "I") then
    (incr ErrorType.CHAR_INS stats, sub_pairs)
  else acc.

Definition classify_char_errors (ops : list EditOp)
  : gmap string nat * gmap (str * str) nat :=
  foldl classify_char_step (∅, ∅) ops.

(** ** levenshtein_distance *)

(** [enumerate(l)] *)
Definition enumerate {A} (l : list A) : list (nat * A) := imap pair l.

(** The body of the inner loop: one more entry of [current_row]. *)
Definition lev_row_cell (previous_row : list nat) (c1 : char)
    (current_row : list nat) (jc : nat * char) : option (list nat) :=
  let '(j, c2) := jc in
  insertions ← (λ x, x + 1) <$> py_get previous_row (Z.of_nat j + 1);
  deletions ← (λ x, x + 1) <$> py_get current_row (Z.of_nat j);
  substitutions ← (λ x, x + (if decide (c1 ≠ c2) then 1 else 0))
                    <$> py_get previous_row (Z.of_nat j);
  Some (current_row ++ [min3 insertions deletions substitutions]).

(** The body of the outer loop: the next row. *)
Definition lev_row (s2 : str) (previous_row : list nat) (ic : nat * char)
  : option (list nat) :=
  let '(i, c1) := ic in
  for_loop (enumerate s2) (lev_row_cell previous_row c1) [i + 1].

(** The function after its length test, when [s1] is not the shorter. *)
Definition levenshtein_distance_rows (s1 s2 : str) : option nat :=
  if decide (length s2 = 0) then Some (length s1)
  else
    previous_row ← for_loop (enumerate s1) (lev_row s2)
                      (range 0 (length s2 + 1));
    py_get previous_row (-1).

(** The recursive call swaps the arguments once, and then the length test
    fails. *)
Definition levenshtein_distance (s1 s2 : str) : option nat :=
  if decide (length s1 < length s2) then levenshtein_distance_rows s2 s1
  else levenshtein_distance_rows s1 s2.

(** ** is_merge, is_split, is_abbrev_expansion *)

Definition default_max_dist : nat := 2.
Definition default_min_ratio : Q := 3 # 2.

Definition is_merge (ref_words hyp_words : list str) (max_dist : nat)
  : option bool :=
  if decide (length ref_words < 2 ∨ length hyp_words ≠ 1) then Some false
  else
    let merged_ref := concat ref_words in
    h0 ← py_get hyp_words 0;
    d ← levenshtein_distance merged_ref h0;
    Some (bool_decide (d ≤ max_dist)).

Definition is_split (ref_words hyp_words : list str) (max_dist : nat)
  : option bool :=
  if decide (length ref_words ≠ 1 ∨ length hyp_words < 2) then Some false
  else
    let merged_hyp := concat hyp_words in
    r0 ← py_get ref_words 0;
    d ← levenshtein_distance r0 merged_hyp;
    Some (bool_decide (d ≤ max_dist)).

(** [x in s] for strings: [x] occurs in [s] as a substring. *)
Definition py_in (x s : str) : bool :=
  existsb (λ k, bool_decide (take (length x) (drop k s) = x))
          (seq 0 (length s + 1)).

(** [len(a) > len(b) * min_ratio].  The source multiplies an integer by
    the float 1.5; that product is exact for every length a string can
    have, so the comparison is the one of rationals. *)
Definition longer_by (a b : str) (min_ratio : Q) : bool :=
  if Qlt_le_dec (inject_Z (Z.of_nat (length b)) * min_ratio)
                (inject_Z (Z.of_nat (length a)))
  then true else false.

Definition is_abbrev_expansion (ref_word hyp_word : str) (min_ratio : Q)
  : bool :=
  if decide (length ref_word = 0 ∨ length hyp_word = 0) then false
  else if longer_by hyp_word ref_word min_ratio
          && py_in ref_word (take (length ref_word + 2) hyp_word) then true
  else if longer_by ref_word hyp_word min_ratio
          && py_in hyp_word (take (length hyp_word + 2) ref_word) then true
  else false.

(** ** classify_word_errors *)

(** An entry of [examples]: a pair of word lists (merge, split) or a pair
    of words (abbreviation, lexical substitution). *)
Inductive example :=
  | ExWords (r_words h_words : list str)
  | ExWord (ref_w hyp_w : str).

(** [d[k].append(x)] on a [defaultdict(list)]. *)
Definition push (k : string) (x : example) (d : gmap string (list example))
  : gmap string (list example) :=
  <[k := default [] (d !! k) ++ [x]]> d.

(** [s.lower()] on the letters A-Z. *)
Definition ascii_lower (a : Ascii.ascii) : Ascii.ascii :=
  let n := Ascii.nat_of_ascii a in
  if decide (65 ≤ n ∧ n ≤ 90) then Ascii.ascii_of_nat (n + 32) else a.

Fixpoint py_lower (s : string) : string :=
  match s with
  | EmptyString => EmptyString
  | String a s' => String (ascii_lower a) (py_lower s')
  end.

(** The body of the loop over the word blocks. *)
Definition classify_word_step
    (acc : gmap string nat * gmap string (list example)) (op : WordEditOp)
  : option (gmap string nat * gmap string (list example)) :=
  let '(stats, examples) := acc in
  if decide (word_operation op = "=") then Some acc
  else
    let r_words := ref_words op in
    let h_words := hyp_words op in
    merge ← is_merge r_words h_words default_max_dist;
    if (merge : bool) then
      Some (incr ErrorType.WORD_MERGE stats,
            push ErrorType.WORD_MERGE (ExWords r_words h_words) examples)
    else
      split ← is_split r_words h_words default_max_dist;
      if (split : bool) then
        Some (incr ErrorType.WORD_SPLIT stats,
              push ErrorType.WORD_SPLIT (ExWords r_words h_words) examples)
      else if decide (length r_words = 1 ∧ length h_words = 1) then
        ref_w ← py_get r_words 0;
        hyp_w ← py_get h_words 0;
        if decide (3 ≤ length ref_w ∧ 3 ≤ length hyp_w) then
          if is_abbrev_expansion ref_w hyp_w default_min_ratio then
            Some (incr ErrorType.ABBR_EXP stats,
                  push ErrorType.ABBR_EXP (ExWord ref_w hyp_w) examples)
          else
            Some (incr ErrorType.LEX_SUB stats,
                  push ErrorType.LEX_SUB (ExWord ref_w hyp_w) examples)
        else Some acc
      else if decide (word_operation op ∈ ["D"; "I"]) then
        Some (incr ("word_" +:+ py_lower (word_operation op)) stats, examples)
      else Some acc.

Definition classify_word_errors (word_ops : list WordEditOp)
  : option (gmap string nat * gmap string (list example)) :=
  for_loop word_ops classify_word_step (∅, ∅).

(** ** Conditions of the word-level classification, as the specification
       words them *)

(** [len(ref_words) >= 2], [len(hyp_words) == 1] and the distance between
    the concatenated reference words and the hypothesis word is at most
    the threshold. *)
Definition merge_condition (ref_words hyp_words : list str) (max_dist : nat)
  : Prop :=
  2 ≤ length ref_words ∧
  ∃ h0, hyp_words = [h0] ∧ lev (concat ref_words) h0 ≤ max_dist.

Definition split_condition (ref_words hyp_words : list str) (max_dist : nat)
  : Prop :=
  2 ≤ length hyp_words ∧
  ∃ r0, ref_words = [r0] ∧ lev r0 (concat hyp_words) ≤ max_dist.

(** [x] occurs in [s] as a substring. *)
Definition substring (x s : str) : Prop := ∃ p q, s = p ++ x ++ q.

(** [len(long) > 1.5 * len(short)] and [short] occurs within the first
    [len(short) + 2] characters of [long]. *)
Definition expands (short long : str) : Prop :=
  3 * length short < 2 * length long ∧
  substring short (take (length short + 2) long).

Definition abbrev_condition (ref_w hyp_w : str) : Prop :=
  expands ref_w hyp_w ∨ expands hyp_w ref_w.

(** ** Strings: [split], [join], slices *)

(** [c.isspace()]: the Unicode white space characters. *)
Definition isspace (c : char) : bool :=
  existsb (λ r : N * N, (r.1 <=? c)%N && (c <=? r.2)%N)
    [(9, 13); (28, 32); (133, 133); (160, 160); (5760, 5760); (8192, 8202);
     (8232, 8233); (8239, 8239); (8287, 8287); (12288, 12288)]%N.

(** [s.split()]: the maximal runs of characters that are not white space.
    [cur] is the run being read. *)
Fixpoint split_from (cur : str) (s : str) : list str :=
  match s with
  | [] => if decide (cur = []) then [] else [cur]
  | c :: s' =>
      if isspace c then
        if decide (cur = []) then split_from [] s'
        else cur :: split_from [] s'
      else split_from (cur ++ [c]) s'
  end.

Definition py_split (s : str) : list str := split_from [] s.

(** [sep.join(ws)] *)
Fixpoint py_join (sep : str) (ws : list str) : str :=
  match ws with
  | [] => []
  | w :: ws' =>
      match ws' with
      | [] => w
      | _ => w ++ sep ++ py_join sep ws'
      end
  end.

(** [s[i1:i2]] for indices that are not negative. *)
Definition py_slice (s : str) (i1 i2 : nat) : str := take (i2 - i1) (drop i1 s).

Definition space : str := [32%N].

(** ** difflib.SequenceMatcher(None, a, b)

    The matcher of the Python library, as [word_align] uses it: no junk
    function, [autojunk] left on. *)
Module difflib.

(** A matching block [(i, j, size)]: [a[i:i+size] == b[j:j+size]]. *)
Abbreviation Match := (nat * nat * nat)%type.

(** [__chain_b]: for every element of [b] the increasing list of its
    positions; in a [b] of 200 elements or more the elements that occur
    more often than [len(b) // 100 + 1] times are "popular" and removed. *)
Definition chain_b (b : str) : gmap char (list nat) :=
  let b2j :=
    foldl (λ (b2j : gmap char (list nat)) '(i, elt),
             <[elt := default [] (b2j !! elt) ++ [i]]> b2j)
          ∅ (enumerate b) in
  let n := length b in
  if decide (200 ≤ n) then
    let ntest := n `div` 100 + 1 in
    filter (λ kv : char * list nat, ¬ (ntest < length kv.2)) b2j
  else b2j.

(** No junk function: the junk set is empty. *)
Definition isbjunk (c : char) : bool := false.

(** The loop over the positions [j] of [a[i]] in [b], with its
    [continue] and its [break].  Positions are natural numbers, and
    [i-k+1] is written [i + 1 - k]: [k] is the length of a match that
    ends at [a[i]], so it is at most [i + 1]. *)
Fixpoint flm_inner (blo bhi i : nat) (j2len : gmap Z nat) (js : list nat)
    (newj2len : gmap Z nat) (best : Match) : gmap Z nat * Match :=
  match js with
  | [] => (newj2len, best)
  | j :: js' =>
      if decide (j < blo) then flm_inner blo bhi i j2len js' newj2len best
      else if decide (bhi ≤ j) then (newj2len, best)
      else
        let k := default 0 (j2len !! (Z.of_nat j - 1)%Z) + 1 in
        let newj2len := <[Z.of_nat j := k]> newj2len in
        let best :=
          if decide (best.2 < k) then (i + 1 - k, j + 1 - k, k) else best in
        flm_inner blo bhi i j2len js' newj2len best
  end.

(** The body of the loop over [i]. *)
Definition flm_outer (a : str) (b2j : gmap char (list nat)) (blo bhi : nat)
    (st : gmap Z nat * Match) (i : nat) : option (gmap Z nat * Match) :=
  let '(j2len, best) := st in
  ai ← py_get a (Z.of_nat i);
  Some (flm_inner blo bhi i j2len (default [] (b2j !! ai)) ∅ best).

(** [while besti > alo and bestj > blo and (not) isbjunk(b[bestj-1]) and
    a[besti-1] == b[bestj-1]]: the block grows to the left.  [junk] tells
    which of the two loops this is. *)
Fixpoint extend_left (fuel : nat) (junk : bool) (a b : str) (alo blo : nat)
    (best : Match) : option Match :=
  let '(besti, bestj, bestsize) := best in
  go ← and_then (bool_decide (alo < besti))
         (and_then (bool_decide (blo < bestj))
            (y ← py_get b (Z.of_nat bestj - 1);
             and_then (bool_decide (isbjunk y = junk))
               (x ← py_get a (Z.of_nat besti - 1);
                Some (bool_decide (x = y)))));
  if (go : bool) then
    match fuel with
    | 0 => None
    | S fuel' =>
        extend_left fuel' junk a b alo blo
          (besti - 1, bestj - 1, bestsize + 1)
    end
  else Some best.

(** [while besti+bestsize < ahi and bestj+bestsize < bhi and ...]: the
    block grows to the right. *)
Fixpoint extend_right (fuel : nat) (junk : bool) (a b : str) (ahi bhi : nat)
    (best : Match) : option Match :=
  let '(besti, bestj, bestsize) := best in
  go ← and_then (bool_decide (besti + bestsize < ahi))
         (and_then (bool_decide (bestj + bestsize < bhi))
            (y ← py_get b (Z.of_nat (bestj + bestsize));
             and_then (bool_decide (isbjunk y = junk))
               (x ← py_get a (Z.of_nat (besti + bestsize));
                Some (bool_decide (x = y)))));
  if (go : bool) then
    match fuel with
    | 0 => None
    | S fuel' =>
        extend_right fuel' junk a b ahi bhi (besti, bestj, bestsize + 1)
    end
  else Some best.

Definition find_longest_match (a b : str) (b2j : gmap char (list nat))
    (alo ahi blo bhi : nat) : option Match :=
  '(_, best) ← for_loop (range alo ahi) (flm_outer a b2j blo bhi)
                 (∅, (alo, blo, 0));
  best ← extend_left (length a) false a b alo blo best;
  best ← extend_right (length a) false a b ahi bhi best;
  best ← extend_left (length a) true a b alo blo best;
  extend_right (length a) true a b ahi bhi best.

(** [while queue: ...].  The head of [queue] is the end of the Python
    list, where [pop] takes and [append] puts. *)
Fixpoint gmb_loop (fuel : nat) (a b : str) (b2j : gmap char (list nat))
    (queue : list (nat * nat * nat * nat)) (matching_blocks : list Match)
  : option (list Match) :=
  match queue with
  | [] => Some matching_blocks
  | (alo, ahi, blo, bhi) :: queue =>
      match fuel with
      | 0 => None
      | S fuel' =>
          '(i, j, k) ← find_longest_match a b b2j alo ahi blo bhi;
          if decide (k ≠ 0) then
            let matching_blocks := matching_blocks ++ [(i, j, k)] in
            let queue :=
              if decide (alo < i ∧ blo < j)
              then (alo, i, blo, j) :: queue else queue in
            let queue :=
              if decide (i + k < ahi ∧ j + k < bhi)
              then (i + k, ahi, j + k, bhi) :: queue else queue in
            gmb_loop fuel' a b b2j queue matching_blocks
          else gmb_loop fuel' a b b2j queue matching_blocks
      end
  end.

(** The order of tuples. *)
Definition Match_le (x y : Match) : Prop :=
  let '(i1, j1, k1) := x in
  let '(i2, j2, k2) := y in
  i1 < i2 ∨ (i1 = i2 ∧ (j1 < j2 ∨ (j1 = j2 ∧ k1 ≤ k2))).

#[global] Instance Match_le_dec x y : Decision (Match_le x y).
Proof. destruct x as [[??]?], y as [[??]?]. simpl. apply _. Defined.

(** The loop that collapses adjacent blocks. *)
Definition collapse_step (st : Match * list Match) (blk : Match)
  : Match * list Match :=
  let '((i1, j1, k1), non_adjacent) := st in
  let '(i2, j2, k2) := blk in
  if decide (i1 + k1 = i2 ∧ j1 + k1 = j2) then
    ((i1, j1, k1 + k2), non_adjacent)
  else
    ((i2, j2, k2),
     if decide (k1 ≠ 0) then non_adjacent ++ [(i1, j1, k1)]
     else non_adjacent).

Definition get_matching_blocks (a b : str) : option (list Match) :=
  let la := length a in
  let lb := length b in
  matching_blocks ← gmb_loop (2 * la + 1) a b (chain_b b) [(0, la, 0, lb)] [];
  let matching_blocks := merge_sort Match_le matching_blocks in
  let '((i1, j1, k1), non_adjacent) :=
    foldl collapse_step ((0, 0, 0), []) matching_blocks in
  let non_adjacent :=
    if decide (k1 ≠ 0) then non_adjacent ++ [(i1, j1, k1)]
    else non_adjacent in
  Some (non_adjacent ++ [(la, lb, 0)]).

Definition opcode : Type := string * nat * nat * nat * nat.

(** The body of the loop of [get_opcodes]. *)
Definition opcode_step (st : nat * nat * list opcode) (blk : Match)
  : nat * nat * list opcode :=
  let '(i, j, answer) := st in
  let '(ai, bj, size) := blk in
  let tag :=
    if decide (i < ai ∧ j < bj) then "replace"
    else if decide (i < ai) then "delete"
    else if decide (j < bj) then "insert"
    else "" in
  let answer :=
    if decide (tag ≠ "") then answer ++ [(tag, i, ai, j, bj)] else answer in
  let '(i, j) := (ai + size, bj + size) in
  let answer :=
    if decide (size ≠ 0) then answer ++ [("equal", ai, i, bj, j)]
    else answer in
  (i, j, answer).

Definition opcodes_of_blocks (blocks : list Match) : list opcode :=
  (foldl opcode_step (0, 0, []) blocks).2.

Definition get_opcodes (a b : str) : option (list opcode) :=
  opcodes_of_blocks <$> get_matching_blocks a b.

End difflib.

(** ** word_align *)

(** The body of the loop over the opcodes. *)
Definition word_align_step (ref_str hyp_str : str) (ops : list WordEditOp)
    (oc : difflib.opcode) : list WordEditOp :=
  let '(tag, i1, i2, j1, j2) := oc in
  let ref_slice := py_split (py_slice ref_str i1 i2) in
  let hyp_slice := py_split (py_slice hyp_str j1 j2) in
  if decide (tag = "equal") then ops ++ [mkWordEditOp ref_slice hyp_slice "="]
  else if decide (tag = "delete") then ops ++ [mkWordEditOp ref_slice [] "D"]
  else if decide (tag = "insert") then ops ++ [mkWordEditOp [] hyp_slice "I"]
  else if decide (tag = "replace") then
    ops ++ [mkWordEditOp ref_slice hyp_slice "S"]
  else ops.

Definition word_align (ref_words hyp_words : list str)
  : option (list WordEditOp) :=
  let ref_str := py_join space ref_words in
  let hyp_str := py_join space hyp_words in
  opcodes ← difflib.get_opcodes ref_str hyp_str;
  Some (foldl (word_align_step ref_str hyp_str) [] opcodes).

(** ** Invariants of the matcher *)

(** A block inside the window [a[alo:ahi]], [b[blo:bhi]]. *)
Definition block_in (alo ahi blo bhi : nat) (blk : difflib.Match) : Prop :=
  let '(i, j, k) := blk in
  alo ≤ i ∧ i + k ≤ ahi ∧ blo ≤ j ∧ j + k ≤ bhi.

(** [j2len] while the loop over [i] has done [t] rounds: a match that ends
    at [b[j]] has at most [t] characters and starts at [blo] or later. *)
Definition j2len_ok (blo t : nat) (j2len : gmap Z nat) : Prop :=
  ∀ (key : Z) (v : nat), j2len !! key = Some v →
    v ≤ t ∧ (Z.of_nat blo ≤ key)%Z ∧ (Z.of_nat v ≤ key - Z.of_nat blo + 1)%Z.

(** A window of the queue lies inside the two sequences. *)
Definition window_ok (la lb : nat) (w : nat * nat * nat * nat) : Prop :=
  let '(alo, ahi, blo, bhi) := w in alo ≤ ahi ∧ ahi ≤ la ∧ blo ≤ bhi ∧ bhi ≤ lb.

(** The number of rounds a queue can still cause. *)
Definition queue_weight (queue : list (nat * nat * nat * nat)) : nat :=
  sum_list ((λ w : nat * nat * nat * nat, 2 * (w.1.1.2 - w.1.1.1) + 1) <$> queue).

(** What [get_opcodes] promises of an opcode [(tag, i1, i2, j1, j2)] over
    sequences of lengths [la] and [lb]: the spans lie inside the sequences,
    and they are empty or not as the tag says. *)
Definition opcode_ok (la lb : nat) (oc : difflib.opcode) : Prop :=
  let '(tag, i1, i2, j1, j2) := oc in
  i2 ≤ la ∧ j2 ≤ lb ∧
  ((tag = "replace" ∧ i1 < i2 ∧ j1 < j2) ∨
   (tag = "delete" ∧ i1 < i2 ∧ j2 ≤ j1) ∨
   (tag = "insert" ∧ i2 ≤ i1 ∧ j1 < j2) ∨
   (tag = "equal" ∧ i1 < i2 ∧ j1 < j2)).

(** A word block and the character spans [rs] of the joined reference
    string and [hs] of the joined hypothesis string it was cut from. *)
Definition block_of_spans (ref_str hyp_str : str) (op : WordEditOp)
    (rs hs : str) : Prop :=
  substring rs ref_str ∧ substring hs hyp_str ∧
  (rs ≠ [] ∨ hs ≠ []) ∧
  ref_words op = py_split rs ∧ hyp_words op = py_split hs ∧
  word_operation op ∈ ["="; "D"; "I"; "S"] ∧
  (word_operation op = "D" → hs = []) ∧
  (word_operation op = "I" → rs = []).

(** ** parse_pages *)

(** [s.strip()] *)
Fixpoint py_lstrip (s : str) : str :=
  match s with
  | c :: s' => if isspace c then py_lstrip s' else s
  | [] => []
  end.

Definition py_strip (s : str) : str :=
  reverse (py_lstrip (reverse (py_lstrip s))).

(** [\d] of a Unicode pattern: the decimal digits (category Nd, Unicode 14),
    each range the ten digits of one script. *)
Definition isdecimal (c : char) : bool :=
  existsb (λ lo : N, (lo <=? c)%N && (c <=? lo + 9)%N)
    [48; 1632; 1776; 1984; 2406; 2534; 2662; 2790; 2918; 3046; 3174; 3302;
     3430; 3558; 3664; 3792; 3872; 4160; 4240; 6112; 6160; 6470; 6608; 6784;
     6800; 6992; 7088; 7232; 7248; 42528; 43216; 43264; 43472; 43504; 43600;
     44016; 65296; 66720; 68912; 69734; 69872; 69942; 70096; 70384; 70736;
     70864; 71248; 71360; 71472; 71904; 72016; 72784; 73040; 73120; 92768;
     92864; 93008; 120782; 120792; 120802; 120812; 120822; 123200; 123632;
     125264; 130032]%N.

(** The regular expressions the source needs: literal characters, character
    classes under a greedy [*] or [+], sequence and ordered alternative. *)
Inductive regex :=
  | Chr (c : char)
  | Star (p : char → bool)
  | Plus (p : char → bool)
  | Seq (r1 r2 : regex)
  | Alt (r1 r2 : regex).

(** Backtracking match of [p*] at the start of [s]: the longest run first,
    then shorter ones, until the continuation [k] accepts the rest. *)
Fixpoint star_match (p : char → bool) (s : str) (k : str → option str)
  : option str :=
  match s with
  | c :: s' =>
      if p c then
        match star_match p s' k with
        | Some rest => Some rest
        | None => k s
        end
      else k s
  | [] => k s
  end.

(** Backtracking match of [r] at the start of [s]; the result is what is
    left of [s] after the match. *)
Fixpoint re_match (r : regex) (s : str) (k : str → option str) : option str :=
  match r with
  | Chr c =>
      match s with
      | c' :: s' => if decide (c' = c) then k s' else None
      | [] => None
      end
  | Star p => star_match p s k
  | Plus p =>
      match s with
      | c :: s' => if p c then star_match p s' k else None
      | [] => None
      end
  | Seq r1 r2 => re_match r1 s (λ s', re_match r2 s' k)
  | Alt r1 r2 =>
      match re_match r1 s k with
      | Some rest => Some rest
      | None => re_match r2 s k
      end
  end.

(** [re.split(r, s)] for a pattern without groups that matches no empty
    string: the pieces between the leftmost matches.  [cur] is the piece
    being read; every round consumes a character, so [length s + 1] rounds
    are enough. *)
Fixpoint re_split_from (fuel : nat) (r : regex) (cur : str) (s : str)
  : list str :=
  match fuel with
  | 0 => [cur ++ s]
  | S fuel' =>
      match re_match r s Some with
      | Some rest => cur :: re_split_from fuel' r [] rest
      | None =>
          match s with
          | [] => [cur]
          | c :: s' => re_split_from fuel' r (cur ++ [c]) s'
          end
      end
  end.

Definition re_split (r : regex) (s : str) : list str :=
  re_split_from (length s + 1) r [] s.

Definition newline : char := 10%N.
Definition full_stop : char := 46%N.

(** [\n\s*\n|\n\d+\.\s*\n] *)
Definition page_break : regex :=
  Alt (Seq (Chr newline) (Seq (Star isspace) (Chr newline)))
      (Seq (Chr newline)
         (Seq (Plus isdecimal)
            (Seq (Chr full_stop) (Seq (Star isspace) (Chr newline))))).

Definition parse_pages (text : str) : list str :=
  let pages := re_split page_break (py_strip text) in
  py_strip <$> filter (λ p, py_strip p ≠ []) pages.

(** ** analyze_pages *)

(** A row of the error log. *)
Record error_row := mkErrorRow {
  page : nat;
  ref_context : str;
  hyp_context : str;
  error_type : string
}.

(** What [analyze_pages] returns: statistics, error log, substitution
    pairs. *)
Abbreviation results :=
  (gmap string nat * list error_row * gmap (str * str) nat)%type.

(** [for k, v in d.items(): acc[k] += v], and [Counter.update]: the counts
    of [d] are added to those of [acc]. *)
Definition add_counts `{Countable K} (acc d : gmap K nat) : gmap K nat :=
  union_with (λ x y, Some (x + y)) acc d.

(** The rows a page adds to the error log. *)
Definition page_errors (page_idx : nat) (word_ops : list WordEditOp)
  : list error_row :=
  (λ op, mkErrorRow (page_idx + 1) (py_join space (ref_words op))
                    (py_join space (hyp_words op)) (word_operation op))
    <$> filter (λ op, word_operation op ≠ "=") word_ops.

(** The body of the page loop once the two pages are read. *)
Definition process_page (page_idx : nat) (ref_page hyp_page : str)
    (acc : results) : option results :=
  let '(all_stats, all_errors, all_sub_pairs) := acc in
  char_ops ← levenshtein_align ref_page hyp_page;
  let '(char_stats, sub_pairs) := classify_char_errors char_ops in
  let all_stats := add_counts all_stats char_stats in
  let all_sub_pairs := add_counts all_sub_pairs sub_pairs in
  let ref_words := py_split ref_page in
  let hyp_words := py_split hyp_page in
  word_ops ← word_align ref_words hyp_words;
  '(word_stats, word_examples) ← classify_word_errors word_ops;
  let all_stats := add_counts all_stats word_stats in
  Some (all_stats, all_errors ++ page_errors page_idx word_ops, all_sub_pairs).

Definition analyze_page (ref_pages hyp_pages : list str) (acc : results)
    (page_idx : nat) : option results :=
  ref_page ← py_get ref_pages (Z.of_nat page_idx);
  hyp_page ← py_get hyp_pages (Z.of_nat page_idx);
  process_page page_idx ref_page hyp_page acc.

(** The part of [analyze_pages] after the pages are split: the number of
    pages it announces and what it returns. *)
Definition analyze_page_lists (ref_pages hyp_pages : list str)
  : nat * option results :=
  let min_pages := length ref_pages `min` length hyp_pages in
  (min_pages,
   for_loop (range 0 min_pages) (analyze_page ref_pages hyp_pages) (∅, [], ∅)).

(** The part of [analyze_pages] after the two files are read. *)
Definition analyze_texts (ref_text hyp_text : str) : nat * option results :=
  let ref_pages := parse_pages ref_text in
  let hyp_pages := parse_pages hyp_text in
  analyze_page_lists ref_pages hyp_pages.

(** What the function does to the world: the files it opens and the lines
    it prints. *)
Inductive message :=
  | MsgNotFound (path : string)
  | MsgCheckFiles
  | MsgAnalysing (min_pages : nat).

Inductive event :=
  | EvOpen (path : string)
  | EvPrint (msg : message).

(** The files: a path names a text, or no file ([FileNotFoundError]).
    Other failures of [open] and [read] are outside this model. *)
Abbreviation filesystem := (string → option str).

(** The [try] block: both texts, or the path that was not found. *)
Definition read_inputs (fs : filesystem) (ref_file hyp_file : string)
  : list event * (str * str + string) :=
  match fs ref_file with
  | None => ([EvOpen ref_file], inr ref_file)
  | Some ref_text =>
      match fs hyp_file with
      | None => ([EvOpen ref_file; EvOpen hyp_file], inr hyp_file)
      | Some hyp_text =>
          ([EvOpen ref_file; EvOpen hyp_file], inl (ref_text, hyp_text))
      end
  end.

Definition analyze_pages (fs : filesystem) (ref_file hyp_file : string)
  : list event * option results :=
  match read_inputs fs ref_file hyp_file with
  | (evs, inr missing) =>
      (evs ++ [EvPrint (MsgNotFound missing); EvPrint MsgCheckFiles],
       Some (∅, [], ∅))
  | (evs, inl (ref_text, hyp_text)) =>
      let '(min_pages, res) := analyze_texts ref_text hyp_text in
      (evs ++ [EvPrint (MsgAnalysing min_pages)], res)
  end.

(** ** save_outputs: the two derived totals *)

Definition total_chars_ref (stats : gmap string nat) : nat :=
  get0 stats ErrorType.CHAR_SUB + get0 stats ErrorType.CHAR_DEL.

Definition total_chars_hyp (stats : gmap string nat) : nat :=
  get0 stats ErrorType.CHAR_SUB + get0 stats ErrorType.CHAR_INS.

(** A direct recount from an alignment. *)
Definition count_op (tag : string) (ops : list EditOp) : nat :=
  length (filter (λ op, operation op = tag) ops).

(** The counter a character operation is tallied under. *)
Definition char_key (tag : string) : option string :=
  if decide (tag = "S") then Some ErrorType.CHAR_SUB
  else if decide (tag = "D") then Some ErrorType.CHAR_DEL
  else if decide (tag = "I") then Some ErrorType.CHAR_INS
  else None.

Definition char_keys : list string :=
  [ErrorType.CHAR_SUB; ErrorType.CHAR_DEL; ErrorType.CHAR_INS].

(** The pairs of pages the orchestrator can compare: [ref_pages[i]] with
    [hyp_pages[i]], as long as both exist. *)
Definition page_pairs (ref_pages hyp_pages : list str) : list (str * str) :=
  zip ref_pages hyp_pages.

(** The page loop, told as a loop over the page pairs. *)
Definition process_pairs (pairs : list (str * str)) : option results :=
  for_loop (enumerate pairs)
    (λ acc (ip : nat * (str * str)), process_page ip.1 ip.2.1 ip.2.2 acc)
    (∅, [], ∅).

(** ** The four edits, by shape *)

Definition match_op (c : char) : EditOp := mkEditOp [c] [c] "=".
Definition delete_op (c : char) : EditOp := mkEditOp [c] [] "D".
Definition insert_op (c : char) : EditOp := mkEditOp [] [c] "I".

(** The sum of the three character counters. *)
Definition char_error_total (stats : gmap string nat) : nat :=
  get0 stats ErrorType.CHAR_SUB + get0 stats ErrorType.CHAR_DEL
  + get0 stats ErrorType.CHAR_INS.

(** The sum of all the counts of a counter. *)
Definition counter_total `{Countable K} (d : gmap K nat) : nat :=
  map_fold (λ _ v acc, v + acc) 0 d.

(** A counter holds no zero: a key is there once it was counted. *)
Definition positive_counts `{Countable K} (d : gmap K nat) : Prop :=
  ∀ k v, d !! k = Some v → 0 < v.

(** The counters of the word classifier, and those with examples. *)
Definition example_keys : list string :=
  [ErrorType.WORD_MERGE; ErrorType.WORD_SPLIT; ErrorType.ABBR_EXP;
   ErrorType.LEX_SUB].

Definition word_keys : list string := example_keys ++ ["word_d"; "word_i"].

(** The blocks the word classifier looks at. *)
Definition non_equal_blocks (word_ops : list WordEditOp) : list WordEditOp :=
  filter (λ op, word_operation op ≠ "=") word_ops.

(** What classifying one block does to the accumulators: nothing, one more
    in a counter, or one more in a counter together with an example. *)
Definition apply_count (c : option (string * option example))
    (acc : gmap string nat * gmap string (list example))
  : gmap string nat * gmap string (list example) :=
  match c with
  | None => acc
  | Some (k, None) => (incr k acc.1, acc.2)
  | Some (k, Some x) => (incr k acc.1, push k x acc.2)
  end.

(** [len(d.get(k, []))] *)
Definition examples_of (examples : gmap string (list example)) (k : string)
  : list example :=
  default [] (examples !! k).

(** The counts of a run of blocks, applied one after the other. *)
Definition apply_counts (cs : list (string * option example))
    (acc : gmap string nat * gmap string (list example))
  : gmap string nat * gmap string (list example) :=
  foldl (λ a c, apply_count (Some c) a) acc cs.

(** The examples a run of counts adds under the key [k]. *)
Definition examples_under (k : string) (cs : list (string * option example))
  : list example :=
  omap (λ c : string * option example,
          if decide (c.1 = k) then c.2 else None) cs.

(** The error log of a run of pages, given the word blocks of each page. *)
Definition error_log (blocks : list (list WordEditOp)) : list error_row :=
  concat (imap page_errors blocks).

(** The alignment, resp. the word blocks, of each page pair. *)
Definition aligned (pairs : list (str * str)) (aligns : list (list EditOp))
  : Prop :=
  Forall2 (λ p ops, levenshtein_align p.1 p.2 = Some ops) pairs aligns.

Definition word_aligned (pairs : list (str * str))
    (blocks : list (list WordEditOp)) : Prop :=
  Forall2 (λ p wops, word_align (py_split p.1) (py_split p.2) = Some wops)
    pairs blocks.
(** ** save_outputs and main

    What is written is kept as data: a JSON object as its three values, a
    CSV file as its header and its rows; the text the [json] and [csv]
    modules make of them is outside this model.  [save_outputs] below is
    what the function writes and prints, in order, when every [open]
    succeeds; [attempt] runs it on a disk where an [open] can raise. *)

(** An entry of [sub_pairs.items()]. *)
Abbreviation sub_item := (str * str * nat)%type.

(** [sorted(items, key=lambda x: x[1], reverse=True)]: by count, largest
    first; the sort is stable, entries with the same count keep their
    order.  [insert_by_count] puts an entry behind all those that count at
    least as much. *)
Fixpoint insert_by_count (x : sub_item) (l : list sub_item) : list sub_item :=
  match l with
  | [] => [x]
  | y :: l' =>
      if decide (y.2 < x.2) then x :: y :: l' else y :: insert_by_count x l'
  end.

Definition sorted_by_count (items : list sub_item) : list sub_item :=
  foldl (λ acc x, insert_by_count x acc) [] items.

(** A row of [char_subs.csv] below the header: [ref_c, hyp_c, count, ''],
    or the row that says that there is no substitution. *)
Inductive subs_row :=
  | SubsRow (ref_c hyp_c : str) (count : nat)
  | NoSubsRow.

Definition subs_row_of (x : sub_item) : subs_row := SubsRow x.1.1 x.1.2 x.2.

Inductive file_content :=
  | StatsJson (error_counts : gmap string nat)
              (total_chars_ref total_chars_hyp : nat)
  | ErrorsCsv (fieldnames : list string) (rows : list error_row)
  | CharSubsCsv (header : list string) (rows : list subs_row).

Inductive save_message :=
  | MsgNoWordErrors
  | MsgAllSaved (prefix : string).

Inductive save_event :=
  | SaveWrite (path : string) (content : file_content)
  | SavePrint (msg : save_message).

Definition errors_fieldnames : list string :=
  ["page"; "ref_context"; "hyp_context"; "error_type"].

Definition subs_header : list string :=
  ["ref_char"; "hyp_char"; "count"; "napomena"].

(** [sub_items] is [sub_pairs.items()], the entries of the dictionary in
    the order it lists them.  The list is what the function writes and
    prints when every [open] succeeds. *)
Definition save_outputs (stats : gmap string nat) (errors : list error_row)
    (sub_items : list sub_item) (prefix : string) : list save_event :=
  [SaveWrite (prefix +:+ "_stats.json")
     (StatsJson stats (total_chars_ref stats) (total_chars_hyp stats))]
  ++ (if decide (errors ≠ []) then
        [SaveWrite (prefix +:+ "_errors.csv")
           (ErrorsCsv errors_fieldnames errors)]
      else [SavePrint MsgNoWordErrors])
  ++ [SaveWrite (prefix +:+ "_char_subs.csv")
        (CharSubsCsv subs_header
           (if decide (sub_items ≠ []) then
              subs_row_of <$> sorted_by_count sub_items
            else [NoSubsRow]))]
  ++ [SavePrint (MsgAllSaved prefix)].

(** What [main] does, in order. *)
Inductive main_event :=
  | MainPrintAnalyzing
  | MainAnalyze (e : event)
  | MainSave (e : save_event)
  | MainPrintSummary (stats : gmap string nat)
  | MainPrintSaved (prefix : string).

(** What [open(path, 'r', encoding='utf-8')] and [read] give: the text,
    [FileNotFoundError], or another exception ([PermissionError],
    [IsADirectoryError], [UnicodeDecodeError], ...), which no handler of
    the program catches. *)
Inductive read_outcome :=
  | ReadText (text : str)
  | ReadNotFound
  | ReadRaises.

(** The disk: what reading a path gives, and whether [open(path, 'w')]
    succeeds (it raises for a directory that is not there, for a path that
    may not be written, ...). *)
Record disk := mkDisk {
  disk_read : string → read_outcome;
  disk_can_write : string → bool
}.

(** The files of a disk that are found and read. *)
Definition found (d : disk) : filesystem :=
  λ path, match disk_read d path with
          | ReadText text => Some text
          | ReadNotFound | ReadRaises => None
          end.

(** The [try] block of [analyze_pages] lets every exception but
    [FileNotFoundError] through: the files opened when that happens.  The
    hypothesis is opened only after the reference was read. *)
Definition read_raises (d : disk) (ref_file hyp_file : string)
  : option (list event) :=
  match disk_read d ref_file with
  | ReadRaises => Some [EvOpen ref_file]
  | ReadNotFound => None
  | ReadText _ =>
      match disk_read d hyp_file with
      | ReadRaises => Some [EvOpen ref_file; EvOpen hyp_file]
      | ReadNotFound | ReadText _ => None
      end
  end.

(** The writes and prints of [save_outputs] on a disk: the first
    [open(path, 'w')] that raises ends the run, nothing is written to that
    path and nothing after it happens.  [None] is the exception. *)
Fixpoint attempt (can_write : string → bool) (evs : list save_event)
  : list save_event * option () :=
  match evs with
  | [] => ([], Some ())
  | SaveWrite path content :: evs' =>
      if can_write path then
        let '(done, r) := attempt can_write evs' in
        (SaveWrite path content :: done, r)
      else ([], None)
  | SavePrint msg :: evs' =>
      let '(done, r) := attempt can_write evs' in (SavePrint msg :: done, r)
  end.

(** [main], given the parsed arguments.  [dict_items] is the order in which
    a dictionary lists its entries.  The result is [None] when an
    exception leaves [main]: a read that raises something other than
    [FileNotFoundError], the page loop, or an [open] for writing in
    [save_outputs], none of which is inside a [try].  Parsing the command
    line and printing are taken to succeed. *)
Definition main (dict_items : gmap (str * str) nat → list sub_item)
    (d : disk) (reference hypothesis output_prefix : string)
  : list main_event * option () :=
  match read_raises d reference hypothesis with
  | Some opened => (MainPrintAnalyzing :: (MainAnalyze <$> opened), None)
  | None =>
      let '(evs, res) := analyze_pages (found d) reference hypothesis in
      match res with
      | None => (MainPrintAnalyzing :: (MainAnalyze <$> evs), None)
      | Some (stats, errors, sub_pairs) =>
          let '(saved, r) :=
            attempt (disk_can_write d)
              (save_outputs stats errors (dict_items sub_pairs)
                 output_prefix) in
          match r with
          | None =>
              (MainPrintAnalyzing :: (MainAnalyze <$> evs)
               ++ (MainSave <$> saved), None)
          | Some _ =>
              (MainPrintAnalyzing :: (MainAnalyze <$> evs)
               ++ (MainSave <$> saved)
               ++ [MainPrintSummary stats; MainPrintSaved output_prefix],
               Some ())
          end
      end
  end.

(** A listing of a dictionary: each entry once, in some order. *)
Definition lists_entries (dict_items : gmap (str * str) nat → list sub_item)
  : Prop :=
  ∀ d, dict_items d ≡ₚ map_to_list d.

(** Largest count first. *)
Definition count_ge (x y : sub_item) : Prop := y.2 ≤ x.2.

(** The files a run has written, in the order of writing. *)
Definition saved_files (evs : list save_event)
  : list (string * file_content) :=
  omap (λ e, match e with
             | SaveWrite path content => Some (path, content)
             | SavePrint _ => None
             end) evs.

(** What [save_outputs] did within a run of [main]. *)
Definition main_save_events (evs : list main_event) : list save_event :=
  omap (λ e, match e with MainSave e' => Some e' | _ => None end) evs.

Definition main_saved (evs : list main_event)
  : list (string * file_content) :=
  saved_files (main_save_events evs).

(** The [count] column of a row of the substitution table; the row that
    stands for an empty table has the count ['0']. *)
Definition row_count (r : subs_row) : nat :=
  match r with
  | SubsRow _ _ count => count
  | NoSubsRow => 0
  end.

(** ** What the matcher finds *)

(** A block [(i, j, k)] is a match: [a[i:i+k] == b[j:j+k]], element by
    element. *)
Definition block_matches (a b : str) (blk : difflib.Match) : Prop :=
  let '(i, j, k) := blk in ∀ t, t < k → a !! (i + t) = b !! (j + t).

(** [b2j] lists, for an element, positions of [b] that hold it. *)
Definition b2j_ok (b : str) (b2j : gmap char (list nat)) : Prop :=
  ∀ c js j, b2j !! c = Some js → j ∈ js → b !! j = Some c.

(** [j2len] when the rows before [e] are done: [j2len[j] = v] says that
    the [v] elements of [a] that end before [e] are the [v] elements of
    [b] that end with [b[j]]. *)
Definition j2len_matches (a b : str) (e : nat) (j2len : gmap Z nat) : Prop :=
  ∀ (key : Z) (v : nat), j2len !! key = Some v →
    ∃ j, key = Z.of_nat j ∧ v ≤ e ∧ v ≤ j + 1 ∧
      ∀ s, s < v → a !! (e - 1 - s) = b !! (j - s).

(** The windows [(alo, ahi, blo, bhi)] of the queue, and the window a
    block covers. *)
Abbreviation window := (nat * nat * nat * nat)%type.

Definition window_of (blk : difflib.Match) : window :=
  (blk.1.1, blk.1.1 + blk.2, blk.1.2, blk.1.2 + blk.2).

(** One window lies before the other, in [a] and in [b]. *)
Definition window_before (w1 w2 : window) : Prop :=
  w1.1.1.2 ≤ w2.1.1.1 ∧ w1.2 ≤ w2.1.2.

Definition apart (w1 w2 : window) : Prop :=
  window_before w1 w2 ∨ window_before w2 w1.

Fixpoint all_apart (l : list window) : Prop :=
  match l with
  | [] => True
  | w :: l' => Forall (apart w) l' ∧ all_apart l'
  end.

(** A window inside another. *)
Definition window_in (w1 w2 : window) : Prop :=
  w2.1.1.1 ≤ w1.1.1.1 ∧ w1.1.1.2 ≤ w2.1.1.2 ∧
  w2.1.2 ≤ w1.1.2 ∧ w1.2 ≤ w2.2.

(** A block ends where the other begins, or before, in [a] and in [b]. *)
Definition block_before (x y : difflib.Match) : Prop :=
  x.1.1 + x.2 ≤ y.1.1 ∧ x.1.2 + x.2 ≤ y.1.2.

(** The spans of an opcode. *)
Definition ref_span (a : str) (oc : difflib.opcode) : str :=
  py_slice a oc.1.1.1.2 oc.1.1.2.

Definition hyp_span (b : str) (oc : difflib.opcode) : str :=
  py_slice b oc.1.2 oc.2.

(** The block [word_align] makes of an opcode. *)
Definition word_block (ref_str hyp_str : str) (oc : difflib.opcode)
  : WordEditOp :=
  let tag := oc.1.1.1.1 in
  if decide (tag = "equal") then
    mkWordEditOp (py_split (ref_span ref_str oc))
      (py_split (hyp_span hyp_str oc)) "="
  else if decide (tag = "delete") then
    mkWordEditOp (py_split (ref_span ref_str oc)) [] "D"
  else if decide (tag = "insert") then
    mkWordEditOp [] (py_split (hyp_span hyp_str oc)) "I"
  else
    mkWordEditOp (py_split (ref_span ref_str oc))
      (py_split (hyp_span hyp_str oc)) "S".

(** The characters of a text that are not white space. *)
Definition non_space (s : str) : str :=
  filter (B := list char) (λ c, isspace c = false) s.

(** The characters of the tokens of a run of blocks. *)
Definition ref_chars (ops : list WordEditOp) : str :=
  concat (concat (ref_words <$> ops)).

Definition hyp_chars (ops : list WordEditOp) : str :=
  concat (concat (hyp_words <$> ops)).

(** The opcodes made so far cover [a[:i]] and [b[:j]]. *)
Definition tiles (a b : str) (st : nat * nat * list difflib.opcode) : Prop :=
  concat (ref_span a <$> st.2) = take st.1.1 a ∧
  concat (hyp_span b <$> st.2) = take st.1.2 b.

(** The two spans of an opcode tagged [equal] are the same text. *)
Definition equal_sound (a b : str) (oc : difflib.opcode) : Prop :=
  oc.1.1.1.1 = "equal" → ref_span a oc = hyp_span b oc.

(** * Theorems *)

(** ** Python indexing *)

Lemma py_index_nat {A} (l : list A) (i : nat) :
  py_index l (Z.of_nat i) = if decide (i < length l) then Some i else None.
Proof.
  unfold py_index. rewrite decide_True by lia.
  destruct (decide (i < length l)).
  - rewrite decide_True by lia. by rewrite Nat2Z.id.
  - by rewrite decide_False by lia.
Qed.

Lemma py_get_nat {A} (l : list A) (i : nat) : py_get l (Z.of_nat i) = l !! i.
Proof.
  unfold py_get. rewrite py_index_nat. case_decide; simpl; [done|].
  symmetry. apply lookup_ge_None. lia.
Qed.

Lemma py_get_pred {A} (l : list A) (i : nat) :
  py_get l (Z.of_nat (S i) - 1) = l !! i.
Proof. rewrite <- py_get_nat. f_equal. lia. Qed.

Lemma py_set_nat {A} (l : list A) (i : nat) (v : A) :
  i < length l → py_set l (Z.of_nat i) v = Some (<[i:=v]> l).
Proof.
  intros Hi. unfold py_set. rewrite py_index_nat. by rewrite decide_True.
Qed.

Lemma range_lookup lo hi k x :
  range lo hi !! k = Some x ↔ x = lo + k ∧ k < hi - lo.
Proof.
  unfold range. rewrite lookup_seq. naive_solver.
Qed.

Lemma range_length lo hi : length (range lo hi) = hi - lo.
Proof. unfold range. by rewrite length_seq. Qed.

(** A loop whose body never raises keeps its invariant. *)
Lemma for_loop_inv {S X} (P : nat → S → Prop) (xs : list X)
    (body : S → X → option S) (s : S) :
  P 0 s →
  (∀ k x s, xs !! k = Some x → P k s →
     ∃ s', body s x = Some s' ∧ P (Datatypes.S k) s') →
  ∃ s', for_loop xs body s = Some s' ∧ P (length xs) s'.
Proof.
  revert P s. induction xs as [|x xs IH]; intros P s H0 Hstep; simpl.
  - eauto.
  - destruct (Hstep 0 x s eq_refl H0) as (s1 & -> & H1). simpl.
    apply (IH (λ k, P (Datatypes.S k))); [done|].
    intros k y s2 Hk. by apply (Hstep (Datatypes.S k)).
Qed.

(** ** Levenshtein distance: scripts and the recursive definition *)

Lemma min3_le_1 a b c : min3 a b c ≤ a.
Proof. unfold min3. lia. Qed.
Lemma min3_le_2 a b c : min3 a b c ≤ b.
Proof. unfold min3. lia. Qed.
Lemma min3_le_3 a b c : min3 a b c ≤ c.
Proof. unfold min3. lia. Qed.
Lemma min3_cases a b c : min3 a b c = a ∨ min3 a b c = b ∨ min3 a b c = c.
Proof. unfold min3. lia. Qed.

Lemma lev_nil_l t : lev [] t = length t.
Proof. by destruct t. Qed.

Lemma lev_nil_r s : lev s [] = length s.
Proof. by destruct s. Qed.

Lemma lev_cons a s b t :
  lev (a :: s) (b :: t) =
  min3 (lev s (b :: t) + 1) (lev (a :: s) t + 1)
       (lev s t + (if decide (a = b) then 0 else 1)).
Proof. reflexivity. Qed.

Lemma edit_script_del_all s : edit_script s [] (length s).
Proof. induction s; simpl; by constructor. Qed.

Lemma edit_script_ins_all t : edit_script [] t (length t).
Proof. induction t; simpl; by constructor. Qed.

(** The recursive definition is the cost of some script ... *)
Lemma lev_script s t : edit_script s t (lev s t).
Proof.
  revert t. induction s as [|a s IHs]; intros t.
  - rewrite lev_nil_l. apply edit_script_ins_all.
  - induction t as [|b t IHt].
    + rewrite lev_nil_r. apply edit_script_del_all.
    + rewrite lev_cons.
      destruct (min3_cases (lev s (b :: t) + 1) (lev (a :: s) t + 1)
        (lev s t + (if decide (a = b) then 0 else 1))) as [->|[->| ->]].
      * rewrite Nat.add_1_r. apply es_del, IHs.
      * rewrite Nat.add_1_r. apply es_ins, IHt.
      * case_decide as Hab.
        -- subst b. rewrite Nat.add_0_r. apply es_keep, IHs.
        -- rewrite Nat.add_1_r. apply es_sub, IHs.
Qed.

Lemma lev_del_le a s t : lev (a :: s) t ≤ lev s t + 1.
Proof.
  destruct t as [|b t].
  - rewrite !lev_nil_r. simpl. lia.
  - rewrite lev_cons. apply min3_le_1.
Qed.

Lemma lev_ins_le s b t : lev s (b :: t) ≤ lev s t + 1.
Proof.
  destruct s as [|a s].
  - rewrite !lev_nil_l. simpl. lia.
  - rewrite lev_cons. apply min3_le_2.
Qed.

(** ... and no script is cheaper. *)
Lemma lev_le s t d : edit_script s t d → lev s t ≤ d.
Proof.
  induction 1 as [|c s t d _ IH|c c' s t d _ IH|c s t d _ IH|c' s t d _ IH].
  - done.
  - rewrite lev_cons, decide_True by done.
    etrans; [apply min3_le_3|]. lia.
  - rewrite lev_cons. etrans; [apply min3_le_3|]. case_decide; lia.
  - pose proof (lev_del_le c s t). lia.
  - pose proof (lev_ins_le s c' t). lia.
Qed.

Lemma lev_is_levenshtein s t : is_levenshtein s t (lev s t).
Proof. split; [apply lev_script|apply lev_le]. Qed.

Lemma is_levenshtein_unique s t d : is_levenshtein s t d ↔ d = lev s t.
Proof.
  split.
  - intros [Hs Hmin]. apply Nat.le_antisymm.
    + apply Hmin, lev_script.
    + by apply lev_le.
  - intros ->. apply lev_is_levenshtein.
Qed.

Lemma edit_script_app s1 t1 d1 s2 t2 d2 :
  edit_script s1 t1 d1 → edit_script s2 t2 d2 →
  edit_script (s1 ++ s2) (t1 ++ t2) (d1 + d2).
Proof.
  intros H1 H2. induction H1; simpl; try done; by constructor.
Qed.

Lemma edit_script_reverse s t d :
  edit_script s t d → edit_script (reverse s) (reverse t) d.
Proof.
  induction 1 as [|c s t d _ IH|c c' s t d _ IH|c s t d _ IH|c' s t d _ IH];
    rewrite ?reverse_cons.
  - constructor.
  - replace d with (d + 0) by lia. apply edit_script_app; [done|].
    apply es_keep, es_nil.
  - replace (S d) with (d + 1) by lia. apply edit_script_app; [done|].
    apply es_sub, es_nil.
  - replace (S d) with (d + 1) by lia. rewrite <- (app_nil_r (reverse t)).
    apply edit_script_app; [done|]. apply es_del, es_nil.
  - replace (S d) with (d + 1) by lia. rewrite <- (app_nil_r (reverse s)).
    apply edit_script_app; [done|]. apply es_ins, es_nil.
Qed.

Lemma edit_script_sym s t d : edit_script s t d → edit_script t s d.
Proof. induction 1; by constructor. Qed.

Lemma lev_reverse s t : lev (reverse s) (reverse t) = lev s t.
Proof.
  apply Nat.le_antisymm.
  - apply lev_le, edit_script_reverse, lev_script.
  - rewrite <- (reverse_involutive s), <- (reverse_involutive t) at 1.
    apply lev_le, edit_script_reverse, lev_script.
Qed.

Lemma lev_sym s t : lev s t = lev t s.
Proof.
  apply Nat.le_antisymm; apply lev_le, edit_script_sym, lev_script.
Qed.

(** Dropping the first character of one side changes the cost of a script
    by at most one. *)
Lemma edit_script_uncons_l a s t d :
  edit_script (a :: s) t d → ∃ d', edit_script s t d' ∧ d' ≤ d + 1.
Proof.
  intros H. remember (a :: s) as s0 eqn:Hs0. revert a s Hs0.
  induction H as [|c s t d H IH|c c' s t d H IH|c s t d H IH|c' s t d H IH];
    intros a s1 Hs0; simplify_eq.
  - exists (S d). split; [by apply es_ins|lia].
  - exists (S d). split; [by apply es_ins|lia].
  - exists d. split; [done|lia].
  - destruct (IH a s1 eq_refl) as (d' & Hd' & Hle).
    exists (S d'). split; [by apply es_ins|lia].
Qed.

Lemma lev_uncons_l a s t : lev s t ≤ lev (a :: s) t + 1.
Proof.
  destruct (edit_script_uncons_l a s t _ (lev_script (a :: s) t))
    as (d' & Hd' & Hle).
  apply lev_le in Hd'. lia.
Qed.

Lemma lev_uncons_r s b t : lev s t ≤ lev s (b :: t) + 1.
Proof. rewrite (lev_sym s t), (lev_sym s (b :: t)). apply lev_uncons_l. Qed.

(** The recurrence of the table, on prefixes: [s ++ [a]] and [t ++ [b]]
    are the prefixes one character longer than [s] and [t]. *)
Lemma lev_snoc s a t b :
  lev (s ++ [a]) (t ++ [b]) =
  min3 (lev s (t ++ [b]) + 1) (lev (s ++ [a]) t + 1)
       (lev s t + (if decide (a = b) then 0 else 1)).
Proof.
  rewrite <- (lev_reverse (s ++ [a]) (t ++ [b])), !reverse_snoc, lev_cons.
  rewrite <- (reverse_snoc t b), <- (reverse_snoc s a), !lev_reverse.
  done.
Qed.

Lemma lev_snoc_same s t a : lev (s ++ [a]) (t ++ [a]) = lev s t.
Proof.
  rewrite lev_snoc, decide_True by done.
  assert (lev s t ≤ lev s (t ++ [a]) + 1).
  { rewrite <- (lev_reverse s t), <- (lev_reverse s (t ++ [a])), reverse_snoc.
    apply lev_uncons_r. }
  assert (lev s t ≤ lev (s ++ [a]) t + 1).
  { rewrite <- (lev_reverse s t), <- (lev_reverse (s ++ [a]) t), reverse_snoc.
    apply lev_uncons_l. }
  unfold min3. lia.
Qed.

Lemma lev_snoc_nil_l s a : lev (s ++ [a]) [] = S (length s).
Proof. rewrite lev_nil_r, length_app. simpl. lia. Qed.

(** ** The table of [levenshtein_align] *)

Lemma dp_get_nat dp i j : dp_get dp (Z.of_nat i) (Z.of_nat j) = cell dp i j.
Proof.
  unfold dp_get, cell. rewrite py_get_nat.
  apply option_bind_ext; [|done]. intros row. apply py_get_nat.
Qed.

Lemma dp_set_nat n m dp i j v :
  dp_shape n m dp → i ≤ n → j ≤ m →
  ∃ dp', dp_set dp (Z.of_nat i) (Z.of_nat j) v = Some dp' ∧
    dp_shape n m dp' ∧ cell dp' i j = Some v ∧
    ∀ i' j', (i', j') ≠ (i, j) → cell dp' i' j' = cell dp i' j'.
Proof.
  intros [Hlen Hrows] Hi Hj.
  destruct (lookup_lt_is_Some_2 dp i) as [row Hrow]; [lia|].
  assert (length row = S m) as Hrl.
  { by eapply (proj1 (Forall_lookup _ _) Hrows). }
  exists (<[i:=<[j:=v]> row]> dp). unfold dp_set.
  rewrite py_get_nat, Hrow. cbn [mbind option_bind].
  rewrite py_set_nat by lia. cbn [mbind option_bind].
  rewrite py_set_nat by lia.
  split; [done|]. split; [|split].
  - split; [by rewrite length_insert|].
    apply Forall_insert; [done|]. by rewrite length_insert.
  - unfold cell. rewrite list_lookup_insert_eq by lia. simpl.
    apply list_lookup_insert_eq. lia.
  - intros i' j' Hne. unfold cell.
    destruct (decide (i' = i)) as [->|Hi'].
    + rewrite list_lookup_insert_eq by lia. rewrite Hrow. simpl.
      apply list_lookup_insert_ne. congruence.
    + by rewrite list_lookup_insert_ne.
Qed.

Section table.
Variables ref hyp : str.
Let n := length ref.
Let m := length hyp.

Lemma dp_filled_weaken (R R' : nat → nat → Prop) dp :
  (∀ i j, R' i j → R i j) → dp_filled ref hyp R dp → dp_filled ref hyp R' dp.
Proof. intros HR [Hs Hc]. split; [done|]. intros i j ?. by apply Hc, HR. Qed.

(** Writing the right value into one more cell. *)
Lemma dp_filled_set (R : nat → nat → Prop) dp i j :
  dp_filled ref hyp R dp → i ≤ n → j ≤ m →
  ∃ dp', dp_set dp (Z.of_nat i) (Z.of_nat j) (lev (take i ref) (take j hyp))
           = Some dp' ∧
    dp_filled ref hyp (λ i' j', R i' j' ∨ (i' = i ∧ j' = j)) dp'.
Proof.
  intros [Hs Hc] Hi Hj.
  destruct (dp_set_nat _ _ dp i j (lev (take i ref) (take j hyp)) Hs Hi Hj)
    as (dp' & Hset & Hs' & Hij & Hother).
  exists dp'. split; [done|]. split; [done|].
  intros i' j' HR. destruct (decide ((i', j') = (i, j))) as [Heq|Hne].
  - by simplify_eq.
  - rewrite Hother by done. apply Hc. destruct HR as [|[-> ->]]; done.
Qed.

Lemma lev_take_0_l j : j ≤ m → lev (take 0 ref) (take j hyp) = j.
Proof. intros. simpl. rewrite lev_nil_l, length_take. unfold m in *. lia. Qed.

Lemma lev_take_0_r i : i ≤ n → lev (take i ref) (take 0 hyp) = i.
Proof.
  intros. rewrite take_0, lev_nil_r, length_take. unfold n in *. lia.
Qed.

Lemma lev_take_S i j ci cj :
  ref !! i = Some ci → hyp !! j = Some cj →
  lev (take (S i) ref) (take (S j) hyp) =
  min3 (lev (take i ref) (take (S j) hyp) + 1)
       (lev (take (S i) ref) (take j hyp) + 1)
       (lev (take i ref) (take j hyp) + (if decide (ci = cj) then 0 else 1)).
Proof.
  intros Hi Hj.
  rewrite (take_S_r ref i ci Hi), (take_S_r hyp j cj Hj). apply lev_snoc.
Qed.

(** One cell of the main loop. *)
Lemma dp_cell_filled (R : nat → nat → Prop) dp i j :
  dp_filled ref hyp R dp → S i ≤ n → S j ≤ m →
  R i (S j) → R (S i) j → R i j →
  ∃ dp', dp_cell ref hyp (S i) dp (S j) = Some dp' ∧
    dp_filled ref hyp (λ i' j', R i' j' ∨ (i' = S i ∧ j' = S j)) dp'.
Proof.
  intros Hf Hi Hj R1 R2 R3. unfold dp_cell.
  destruct (lookup_lt_is_Some_2 ref i) as [ci Hci]; [unfold n in *; lia|].
  destruct (lookup_lt_is_Some_2 hyp j) as [cj Hcj]; [unfold m in *; lia|].
  rewrite !py_get_pred, Hci, Hcj. simpl.
  replace (Z.of_nat (S i) - 1)%Z with (Z.of_nat i) by lia.
  replace (Z.of_nat (S j) - 1)%Z with (Z.of_nat j) by lia.
  rewrite !dp_get_nat.
  destruct Hf as [Hs Hc].
  rewrite (Hc _ _ R1), (Hc _ _ R2), (Hc _ _ R3). simpl.
  rewrite <- (lev_take_S i j ci cj Hci Hcj).
  by apply dp_filled_set.
Qed.

(** One row of the main loop. *)
Lemma dp_row_filled dp k :
  S k ≤ n →
  dp_filled ref hyp (λ i j, i ≤ n ∧ j ≤ m ∧ (j = 0 ∨ i ≤ k)) dp →
  ∃ dp', dp_row ref hyp dp (S k) = Some dp' ∧
    dp_filled ref hyp (λ i j, i ≤ n ∧ j ≤ m ∧ (j = 0 ∨ i ≤ S k)) dp'.
Proof.
  intros Hk Hf. unfold dp_row.
  destruct (for_loop_inv
    (λ kj dp, dp_filled ref hyp
       (λ i j, i ≤ n ∧ j ≤ m ∧ (j = 0 ∨ i ≤ k ∨ (i = S k ∧ j ≤ kj))) dp)
    (range 1 (length hyp + 1)) (dp_cell ref hyp (S k)) dp)
    as (dp' & Hloop & Hf').
  - eapply dp_filled_weaken; [|exact Hf]. simpl. intros i j. lia.
  - intros kj x dp1 [-> Hlt]%range_lookup Hf1. simpl.
    fold m in Hlt.
    destruct (dp_cell_filled _ dp1 k kj Hf1) as (dp2 & Hcell & Hf2);
      [lia..|].
    exists dp2. split; [done|].
    eapply dp_filled_weaken; [|exact Hf2]. simpl. intros i j. lia.
  - exists dp'. split; [done|].
    eapply dp_filled_weaken; [|exact Hf']. simpl. intros i j.
    rewrite range_length. fold m. lia.
Qed.

(** The table is built without an index error, and every cell holds the
    distance of the two prefixes. *)
Lemma build_dp_filled :
  ∃ dp, build_dp ref hyp = Some dp ∧
    dp_filled ref hyp (λ i j, i ≤ n ∧ j ≤ m) dp.
Proof.
  unfold build_dp. fold n m.
  set (dp0 := replicate (n + 1) (replicate (m + 1) 0)).
  assert (dp_filled ref hyp (λ _ _, False) dp0) as Hf0.
  { split; [|done]. fold n m. unfold dp0. rewrite !Nat.add_1_r. split.
    - by rewrite length_replicate.
    - apply Forall_replicate. by rewrite length_replicate. }
  destruct (for_loop_inv
    (λ k dp, dp_filled ref hyp (λ i j, i < k ∧ j = 0) dp)
    (range 0 (n + 1)) (λ dp i, dp_set dp (Z.of_nat i) 0 i) dp0)
    as (dp1 & -> & Hf1).
  { eapply dp_filled_weaken; [|exact Hf0]. simpl. lia. }
  { intros k x dp [-> Hlt]%range_lookup Hf. simpl.
    destruct (dp_filled_set _ dp k 0 Hf) as (dp' & Hset & Hf'); [lia..|].
    rewrite lev_take_0_r in Hset by lia.
    exists dp'. split; [done|].
    eapply dp_filled_weaken; [|exact Hf']. simpl. lia. }
  simpl.
  destruct (for_loop_inv
    (λ k dp, dp_filled ref hyp
               (λ i j, (i ≤ n ∧ j = 0) ∨ (i = 0 ∧ j < k)) dp)
    (range 0 (m + 1)) (λ dp j, dp_set dp 0 (Z.of_nat j) j) dp1)
    as (dp2 & -> & Hf2).
  { eapply dp_filled_weaken; [|exact Hf1]. simpl. intros i j.
    rewrite range_length. lia. }
  { intros k x dp [-> Hlt]%range_lookup Hf. simpl.
    destruct (dp_filled_set _ dp 0 k Hf) as (dp' & Hset & Hf'); [lia..|].
    rewrite lev_take_0_l in Hset by lia.
    exists dp'. split; [done|].
    eapply dp_filled_weaken; [|exact Hf']. simpl. lia. }
  simpl.
  destruct (for_loop_inv
    (λ k dp, dp_filled ref hyp (λ i j, i ≤ n ∧ j ≤ m ∧ (j = 0 ∨ i ≤ k)) dp)
    (range 1 (n + 1)) (dp_row ref hyp) dp2)
    as (dp3 & -> & Hf3).
  { eapply dp_filled_weaken; [|exact Hf2]. simpl. intros i j.
    rewrite range_length. lia. }
  { intros k x dp [-> Hlt]%range_lookup Hf. simpl.
    apply dp_row_filled; [lia|done]. }
  exists dp3. split; [done|].
  eapply dp_filled_weaken; [|exact Hf3]. simpl. intros i j.
  rewrite range_length. lia.
Qed.
End table.

(** ** The backtrace of [levenshtein_align] *)

Lemma non_match_count_snoc ops op :
  non_match_count (ops ++ [op]) =
  non_match_count ops + (if non_match op then 1 else 0).
Proof.
  unfold non_match_count. rewrite filter_app, length_app. f_equal.
  rewrite filter_cons, filter_nil. destruct (non_match op); by case_decide.
Qed.

Lemma non_match_eq r h : non_match (mkEditOp r h "=") = false.
Proof. reflexivity. Qed.
Lemma non_match_S r h : non_match (mkEditOp r h "S") = true.
Proof. reflexivity. Qed.
Lemma non_match_D r h : non_match (mkEditOp r h "D") = true.
Proof. reflexivity. Qed.
Lemma non_match_I r h : non_match (mkEditOp r h "I") = true.
Proof. reflexivity. Qed.

Lemma ref_text_snoc ops op :
  ref_text (reverse (ops ++ [op])) = ref_char op ++ ref_text (reverse ops).
Proof. by rewrite reverse_snoc. Qed.

Lemma hyp_text_snoc ops op :
  hyp_text (reverse (ops ++ [op])) = hyp_char op ++ hyp_text (reverse ops).
Proof. by rewrite reverse_snoc. Qed.

Section backtrace.
Variables ref hyp : str.
Variable dp : dp_table.
Hypothesis Hdp :
  dp_filled ref hyp (λ i j, i ≤ length ref ∧ j ≤ length hyp) dp.

Let D (i j : nat) : nat := lev (take i ref) (take j hyp).

Lemma dp_cell_lev i j :
  i ≤ length ref → j ≤ length hyp → cell dp i j = Some (D i j).
Proof. intros. by apply Hdp. Qed.

(** Appending one operation and moving to cell [(i', j')]. *)
Lemma bt_inv_step ops (i j i' j' : nat) op :
  bt_inv ref hyp (BtState (Z.of_nat i) (Z.of_nat j) ops) →
  i' ≤ i → j' ≤ j →
  D i j = D i' j' + (if non_match op then 1 else 0) →
  drop i' ref = ref_char op ++ drop i ref →
  drop j' hyp = hyp_char op ++ drop j hyp →
  well_formed_op op →
  bt_inv ref hyp (BtState (Z.of_nat i') (Z.of_nat j') (ops ++ [op])).
Proof.
  intros (i0 & j0 & Hi & Hj & Hile & Hjle & Hcnt & Hr & Hh & Hwf)
    Hi' Hj' HD Hdr Hdh Hop.
  simpl in *. apply Nat2Z.inj in Hi, Hj. subst i0 j0.
  exists i', j'. simpl. repeat split; try done; try lia.
  - rewrite non_match_count_snoc. fold (D i j) in Hcnt. fold (D i' j'). lia.
  - by rewrite ref_text_snoc, Hr.
  - by rewrite hyp_text_snoc, Hh.
  - apply Forall_app. split; [done|]. by apply Forall_singleton.
Qed.

(** One iteration: the body does not raise, keeps the invariant and moves
    towards cell [(0, 0)]. *)
Lemma bt_step_inv st :
  bt_inv ref hyp st → bt_cond st = true →
  ∃ st', bt_step ref hyp dp st = Some st' ∧ bt_inv ref hyp st' ∧
         bt_measure st' < bt_measure st.
Proof.
  intros Hinv Hcond. destruct st as [zi zj ops].
  pose proof Hinv as (i & j & Hi & Hj & Hile & Hjle & _). simpl in Hi, Hj.
  subst zi zj. unfold bt_cond in Hcond. simpl in Hcond.
  unfold bt_step, bt_measure. simpl.
  destruct i as [|i], j as [|j].
  - by rewrite !bool_decide_false in Hcond by lia.
  - (* first row: Insert *)
    destruct (lookup_lt_is_Some_2 hyp j) as [cj Hcj]; [lia|].
    rewrite (bool_decide_false (0 < Z.of_nat 0)%Z) by lia. simpl.
    rewrite py_get_pred, Hcj. simpl.
    replace (Z.of_nat (S j) - 1)%Z with (Z.of_nat j) by lia.
    eexists. split; [done|]. split; [|simpl; lia].
    apply (bt_inv_step ops 0 (S j) 0 j); try done; try lia.
    + rewrite non_match_I. unfold D. simpl.
      rewrite !lev_nil_l, !length_take. lia.
    + simpl. by apply drop_S.
    + right; right; right. by eexists.
  - (* first column: Delete *)
    destruct (lookup_lt_is_Some_2 ref i) as [ci Hci]; [lia|].
    rewrite (bool_decide_true (0 < Z.of_nat (S i))%Z) by lia.
    rewrite (bool_decide_false (0 < Z.of_nat 0)%Z) by lia. simpl.
    replace (Z.of_nat (S i) - 1)%Z with (Z.of_nat i) by lia.
    change 0%Z with (Z.of_nat 0). rewrite !dp_get_nat, py_get_nat.
    rewrite !dp_cell_lev by lia. simpl. unfold D.
    rewrite !take_0, !lev_nil_r, !length_take.
    rewrite bool_decide_true by lia. rewrite Hci. simpl.
    eexists. split; [done|]. split; [|simpl; lia].
    apply (bt_inv_step ops (S i) 0 i 0); try done; try lia.
    + rewrite non_match_D. unfold D.
      rewrite !take_0, !lev_nil_r, !length_take. lia.
    + simpl. by apply drop_S.
    + right; right; left. by eexists.
  - destruct (lookup_lt_is_Some_2 ref i) as [ci Hci]; [lia|].
    destruct (lookup_lt_is_Some_2 hyp j) as [cj Hcj]; [lia|].
    rewrite (bool_decide_true (0 < Z.of_nat (S i))%Z) by lia.
    rewrite (bool_decide_true (0 < Z.of_nat (S j))%Z) by lia. simpl.
    rewrite !py_get_pred, Hci, Hcj. simpl.
    replace (Z.of_nat (S i) - 1)%Z with (Z.of_nat i) by lia.
    replace (Z.of_nat (S j) - 1)%Z with (Z.of_nat j) by lia.
    pose proof (lev_take_S ref hyp i j ci cj Hci Hcj) as Hrec.
    destruct (decide (ci = cj)) as [->|Hne].
    + (* Match *)
      rewrite bool_decide_true by done.
      eexists. split; [done|]. split; [|simpl; lia].
      apply (bt_inv_step ops (S i) (S j) i j); try done; try lia.
      * rewrite non_match_eq. unfold D.
        rewrite (take_S_r ref i cj Hci), (take_S_r hyp j cj Hcj).
        rewrite lev_snoc_same. lia.
      * simpl. by apply drop_S.
      * simpl. by apply drop_S.
      * left. by eexists.
    + rewrite bool_decide_false by done.
      rewrite !dp_get_nat, !dp_cell_lev by lia. simpl.
      destruct (decide (D (S i) (S j) = D i j + 1)) as [Hsub|Hnsub].
      * (* Substitute *)
        rewrite bool_decide_true by done.
        eexists. split; [done|]. split; [|simpl; lia].
        apply (bt_inv_step ops (S i) (S j) i j); try done; try lia.
        -- simpl. by apply drop_S.
        -- simpl. by apply drop_S.
        -- right; left. by eexists _, _.
      * rewrite bool_decide_false by done.
        destruct (decide (D (S i) (S j) = D i (S j) + 1)) as [Hdel|Hndel].
        -- (* Delete *)
           rewrite bool_decide_true by done.
           eexists. split; [done|]. split; [|simpl; lia].
           apply (bt_inv_step ops (S i) (S j) i (S j)); try done; try lia.
           ++ simpl. by apply drop_S.
           ++ right; right; left. by eexists.
        -- (* Insert *)
           rewrite bool_decide_false by done.
           eexists. split; [done|]. split; [|simpl; lia].
           apply (bt_inv_step ops (S i) (S j) (S i) j); try done; try lia.
           ++ rewrite non_match_I.
              fold (D (S i) (S j)) (D i (S j)) (D (S i) j) (D i j) in Hrec.
              unfold min3 in Hrec. lia.
           ++ simpl. by apply drop_S.
           ++ right; right; right. by eexists.
Qed.

(** The loop stops within [fuel] iterations, at cell [(0, 0)]. *)
Lemma bt_loop_inv fuel st :
  bt_inv ref hyp st → bt_measure st ≤ fuel →
  ∃ st', bt_loop fuel ref hyp dp st = Some st' ∧ bt_inv ref hyp st' ∧
         bt_cond st' = false.
Proof.
  revert st. induction fuel as [|fuel IH]; intros st Hinv Hfuel.
  - destruct (bt_cond st) eqn:Hcond.
    + destruct (bt_step_inv st Hinv Hcond) as (? & _ & _ & ?). lia.
    + exists st. simpl. by rewrite Hcond.
  - simpl. destruct (bt_cond st) eqn:Hcond; [|by exists st].
    destruct (bt_step_inv st Hinv Hcond) as (st1 & -> & Hinv1 & Hlt).
    simpl. apply IH; [done|lia].
Qed.
End backtrace.

(** The aligner returns an alignment: it raises no index error, its loop
    stops, the operations are well formed, they spell [ref] and [hyp], and
    their cost is the distance. *)
Lemma levenshtein_align_spec ref hyp :
  ∃ ops, levenshtein_align ref hyp = Some ops ∧
    Forall well_formed_op ops ∧
    ref_text ops = ref ∧ hyp_text ops = hyp ∧
    non_match_count ops = lev ref hyp.
Proof.
  unfold levenshtein_align.
  destruct (build_dp_filled ref hyp) as (dp & -> & Hdp). simpl.
  destruct (bt_loop_inv ref hyp dp Hdp (length ref + length hyp)
    (BtState (Z.of_nat (length ref)) (Z.of_nat (length hyp)) []))
    as (st & -> & Hinv & Hcond).
  - exists (length ref), (length hyp). simpl.
    rewrite !firstn_all, !drop_all. repeat split; try done. 
  - unfold bt_measure. simpl. lia.
  - simpl. exists (reverse (bt_ops st)).
    destruct Hinv as (i & j & Hi & Hj & _ & _ & Hcnt & Hr & Hh & Hwf).
    unfold bt_cond in Hcond. apply orb_false_iff in Hcond as [Hc1 Hc2].
    apply bool_decide_eq_false in Hc1, Hc2.
    assert (i = 0) as -> by lia. assert (j = 0) as -> by lia.
    simpl in Hcnt. rewrite drop_0 in Hr, Hh.
    repeat split; try done.
    + by apply Forall_reverse.
    + unfold non_match_count in *. rewrite reverse_Permutation. lia.
Qed.

(** ** levenshtein_distance computes the distance *)

Lemma enumerate_lookup {A} (l : list A) k i x :
  enumerate l !! k = Some (i, x) ↔ i = k ∧ l !! k = Some x.
Proof.
  unfold enumerate. rewrite list_lookup_imap.
  destruct (l !! k); simpl; split; intros ?; destruct_and?; by simplify_eq.
Qed.

Lemma enumerate_length {A} (l : list A) : length (enumerate l) = length l.
Proof. apply length_imap. Qed.

Lemma py_get_last {A} (l : list A) x :
  l !! (length l - 1) = Some x → py_get l (-1) = Some x.
Proof.
  intros Hx. assert (0 < length l).
  { apply lookup_lt_Some in Hx. lia. }
  unfold py_get, py_index. rewrite decide_False by lia.
  rewrite decide_True by lia. simpl. rewrite <- Hx. f_equal. lia.
Qed.

Lemma lev_row_spec s1 s2 previous_row i c1 :
  s1 !! i = Some c1 →
  (∀ j, j ≤ length s2 →
        previous_row !! j = Some (lev (take i s1) (take j s2))) →
  ∃ row, lev_row s2 previous_row (i, c1) = Some row ∧
    length row = S (length s2) ∧
    ∀ j, j ≤ length s2 → row !! j = Some (lev (take (S i) s1) (take j s2)).
Proof.
  intros Hc1 Hprev. unfold lev_row.
  destruct (for_loop_inv
    (λ kj cur, length cur = S kj ∧
       ∀ j, j ≤ kj → cur !! j = Some (lev (take (S i) s1) (take j s2)))
    (enumerate s2) (lev_row_cell previous_row c1) [i + 1])
    as (row & Hloop & Hlen & Hrow).
  - split; [done|]. intros j Hj. assert (j = 0) as -> by lia. simpl.
    rewrite lev_nil_r, length_take. apply lookup_lt_Some in Hc1.
    do 2 f_equal. lia.
  - intros kj [j c2] cur [-> Hc2]%enumerate_lookup [Hlen Hcur].
    unfold lev_row_cell. apply lookup_lt_Some in Hc2 as Hkj.
    replace (Z.of_nat kj + 1)%Z with (Z.of_nat (S kj)) by lia.
    rewrite !py_get_nat, (Hprev (S kj)), (Hprev kj), (Hcur kj) by lia.
    simpl. eexists. split; [done|]. split.
    + rewrite length_app. simpl. lia.
    + intros j Hj. destruct (decide (j = S kj)) as [->|Hne].
      * rewrite lookup_app_r by lia. rewrite Hlen, Nat.sub_diag. simpl.
        rewrite (lev_take_S s1 s2 i kj c1 c2 Hc1 Hc2).
        do 2 f_equal. repeat case_decide; done.
      * rewrite lookup_app_l by lia. apply Hcur. lia.
  - rewrite enumerate_length in Hlen, Hrow. by exists row.
Qed.

Lemma levenshtein_distance_rows_spec s1 s2 :
  levenshtein_distance_rows s1 s2 = Some (lev s1 s2).
Proof.
  unfold levenshtein_distance_rows. case_decide as Hm.
  - apply nil_length_inv in Hm as ->. by rewrite lev_nil_r.
  - destruct (for_loop_inv
      (λ k row, length row = S (length s2) ∧
         ∀ j, j ≤ length s2 →
              row !! j = Some (lev (take k s1) (take j s2)))
      (enumerate s1) (lev_row s2) (range 0 (length s2 + 1)))
      as (row & -> & Hlen & Hrow).
    + split; [rewrite range_length; lia|]. intros j Hj. simpl. rewrite lev_nil_l, length_take.
      apply range_lookup. lia.
    + intros k [i c1] row [-> Hc1]%enumerate_lookup [_ Hrow].
      by apply lev_row_spec.
    + simpl. apply py_get_last.
      rewrite enumerate_length in Hrow.
      rewrite Hlen. replace (S (length s2) - 1) with (length s2) by lia.
      rewrite Hrow by done. by rewrite !firstn_all.
Qed.

Lemma levenshtein_distance_spec s1 s2 :
  levenshtein_distance s1 s2 = Some (lev s1 s2).
Proof.
  unfold levenshtein_distance. case_decide.
  - rewrite (lev_sym s1 s2). apply levenshtein_distance_rows_spec.
  - apply levenshtein_distance_rows_spec.
Qed.

(** ** The conditions of the word-level classifier *)

Lemma is_merge_spec r h md :
  ∃ b, is_merge r h md = Some b ∧ (b = true ↔ merge_condition r h md).
Proof.
  unfold is_merge, merge_condition. case_decide as Hlen.
  - exists false. split; [done|]. split; [done|].
    intros (? & h0 & -> & _). simpl in Hlen. lia.
  - destruct h as [|h0 [|??]]; simpl in Hlen; try (exfalso; lia).
    change 0%Z with (Z.of_nat 0). rewrite py_get_nat. simpl.
    rewrite levenshtein_distance_spec. simpl. eexists. split; [done|].
    rewrite bool_decide_eq_true. split.
    + intros ?. split; [lia|]. by exists h0.
    + intros (_ & ? & ? & ?). by simplify_eq.
Qed.

Lemma is_split_spec r h md :
  ∃ b, is_split r h md = Some b ∧ (b = true ↔ split_condition r h md).
Proof.
  unfold is_split, split_condition. case_decide as Hlen.
  - exists false. split; [done|]. split; [done|].
    intros (? & r0 & -> & _). simpl in Hlen. lia.
  - destruct r as [|r0 [|??]]; simpl in Hlen; try (exfalso; lia).
    change 0%Z with (Z.of_nat 0). rewrite py_get_nat. simpl.
    rewrite levenshtein_distance_spec. simpl. eexists. split; [done|].
    rewrite bool_decide_eq_true. split.
    + intros ?. split; [lia|]. by exists r0.
    + intros (_ & ? & ? & ?). by simplify_eq.
Qed.

Lemma py_in_spec x s : py_in x s = true ↔ substring x s.
Proof.
  unfold py_in, substring. rewrite existsb_exists. split.
  - intros (k & _ & Hk%bool_decide_eq_true).
    exists (take k s), (drop (length x) (drop k s)).
    assert (drop k s = x ++ drop (length x) (drop k s)) as <-.
    { rewrite <- Hk at 1. by rewrite take_drop. }
    by rewrite take_drop.
  - intros (p & q & ->). exists (length p). split.
    + apply in_seq. rewrite !length_app. lia.
    + apply bool_decide_eq_true.
      rewrite drop_app_length. by rewrite take_app_length.
Qed.

Lemma longer_by_spec a b :
  longer_by a b default_min_ratio = true ↔ 3 * length b < 2 * length a.
Proof.
  unfold longer_by, default_min_ratio.
  destruct (Qlt_le_dec _ _) as [H|H];
    unfold Qlt, Qle, Qmult, inject_Z in H; simpl in H; split; try done; lia.
Qed.

Lemma is_abbrev_expansion_spec ref_w hyp_w :
  0 < length ref_w → 0 < length hyp_w →
  is_abbrev_expansion ref_w hyp_w default_min_ratio = true ↔
  abbrev_condition ref_w hyp_w.
Proof.
  intros Hr Hh. unfold is_abbrev_expansion, abbrev_condition, expands.
  rewrite decide_False by lia.
  rewrite <- !longer_by_spec, <- !py_in_spec.
  destruct (longer_by hyp_w ref_w _), (longer_by ref_w hyp_w _),
    (py_in ref_w _), (py_in hyp_w _); simpl; intuition congruence.
Qed.

(** A block with one token on each side is neither a merge nor a split. *)
Lemma is_merge_single r h md : length h = 1 → length r = 1 →
  is_merge r h md = Some false.
Proof. intros. unfold is_merge. rewrite decide_True; [done|lia]. Qed.

Lemma is_split_single r h md : length h = 1 → length r = 1 →
  is_split r h md = Some false.
Proof. intros. unfold is_split. rewrite decide_True; [done|lia]. Qed.

Lemma is_merge_wide r h md : 2 ≤ length h → is_merge r h md = Some false.
Proof. intros. unfold is_merge. rewrite decide_True; [done|lia]. Qed.

Lemma is_split_wide r h md : 2 ≤ length r → is_split r h md = Some false.
Proof. intros. unfold is_split. rewrite decide_True; [done|lia]. Qed.

Lemma get0_incr `{Countable K} (k k' : K) (d : gmap K nat) :
  get0 (incr k d) k' = get0 d k' + (if decide (k = k') then 1 else 0).
Proof.
  unfold get0, incr. case_decide as Hk.
  - subst. by rewrite lookup_insert_eq.
  - rewrite lookup_insert_ne by done. lia.
Qed.

Lemma is_merge_true r h md :
  is_merge r h md = Some true ↔ merge_condition r h md.
Proof.
  destruct (is_merge_spec r h md) as (b & Hb & Hiff). rewrite Hb, <- Hiff.
  split; congruence.
Qed.

Lemma is_split_true r h md :
  is_split r h md = Some true ↔ split_condition r h md.
Proof.
  destruct (is_split_spec r h md) as (b & Hb & Hiff). rewrite Hb, <- Hiff.
  split; congruence.
Qed.

Lemma merge_not_split r h md : merge_condition r h md → is_split r h md = Some false.
Proof.
  intros (Hr & _). by apply is_split_wide.
Qed.

(** ** The matcher returns: its loops stop and no index is out of range *)

Section matcher.
Variables a b : str.
Variable b2j : gmap char (list nat).

Lemma block_in_mono alo ahi ahi' blo bhi blk :
  ahi ≤ ahi' → block_in alo ahi blo bhi blk → block_in alo ahi' blo bhi blk.
Proof. destruct blk as [[i j] k]. simpl. lia. Qed.

Lemma flm_inner_ok alo blo bhi t j2len js newj2len best :
  j2len_ok blo t j2len →
  j2len_ok blo (S t) newj2len →
  block_in alo (alo + S t) blo bhi best →
  j2len_ok blo (S t)
    (difflib.flm_inner blo bhi (alo + t) j2len js newj2len best).1 ∧
  block_in alo (alo + S t) blo bhi
    (difflib.flm_inner blo bhi (alo + t) j2len js newj2len best).2.
Proof.
  intros Hold. revert newj2len best.
  induction js as [|j js IH]; intros newj2len best Hnew Hbest; simpl.
  - done.
  - case_decide as Hlo; [by apply IH|].
    case_decide as Hhi; [done|].
    set (k := default 0 (j2len !! (Z.of_nat j - 1)%Z) + 1).
    assert (k ≤ S t ∧ k ≤ j + 1 - blo) as [Hk1 Hk2].
    { unfold k. destruct (j2len !! (Z.of_nat j - 1)%Z) as [v|] eqn:Hv;
        simpl; [|lia].
      destruct (Hold _ _ Hv) as (? & ? & ?). lia. }
    apply IH.
    + intros key v. rewrite lookup_insert. case_decide as Hkey.
      * intros [= <-]. subst key. lia.
      * apply Hnew.
    + case_decide; [|done]. simpl. lia.
Qed.

Lemma flm_loop_ok alo ahi blo bhi :
  alo ≤ ahi → ahi ≤ length a → blo ≤ bhi →
  ∃ j2len best,
    for_loop (range alo ahi) (difflib.flm_outer a b2j blo bhi)
      (∅, (alo, blo, 0)) = Some (j2len, best) ∧
    block_in alo ahi blo bhi best.
Proof.
  intros Ha Hla Hb.
  destruct (for_loop_inv
    (λ t (st : gmap Z nat * difflib.Match),
       j2len_ok blo t st.1 ∧ block_in alo (alo + t) blo bhi st.2)
    (range alo ahi) (difflib.flm_outer a b2j blo bhi) (∅, (alo, blo, 0)))
    as ([j2len best] & Hloop & _ & Hbest).
  - split; [|simpl; lia]. unfold j2len_ok. simpl. intros key v.
    by rewrite lookup_empty.
  - intros t x [j2len best] [-> Hlt]%range_lookup [Hj Hbest].
    simpl in Hj, Hbest. unfold difflib.flm_outer.
    rewrite py_get_nat.
    destruct (lookup_lt_is_Some_2 a (alo + t)) as [ai ->]; [lia|]. simpl.
    eexists. split; [done|].
    apply flm_inner_ok; [done| |].
    + intros key v. by rewrite lookup_empty.
    + eapply block_in_mono; [|done]. lia.
  - exists j2len, best. split; [done|].
    rewrite range_length in Hbest. simpl in Hbest.
    by replace (alo + (ahi - alo)) with ahi in Hbest by lia.
Qed.

Lemma extend_left_ok fuel junk alo ahi blo bhi best :
  ahi ≤ length a → bhi ≤ length b →
  block_in alo ahi blo bhi best → best.1.1 - alo ≤ fuel →
  ∃ best', difflib.extend_left fuel junk a b alo blo best = Some best' ∧
           block_in alo ahi blo bhi best'.
Proof.
  intros Hla Hlb. revert best.
  induction fuel as [|fuel IH]; intros [[bi bj] bs] Hin Hfuel;
    simpl in Hin, Hfuel.
  - simpl. rewrite bool_decide_false by lia. simpl. by eexists.
  - simpl. destruct (decide (alo < bi)) as [Hi|Hi];
      [rewrite bool_decide_true by done|
       rewrite bool_decide_false by done; simpl; by eexists].
    simpl. destruct (decide (blo < bj)) as [Hj|Hj];
      [rewrite bool_decide_true by done|
       rewrite bool_decide_false by done; simpl; by eexists].
    simpl.
    destruct bi as [|bi]; [lia|]. destruct bj as [|bj]; [lia|].
    rewrite !py_get_pred.
    destruct (lookup_lt_is_Some_2 b bj) as [y ->]; [lia|].
    destruct (lookup_lt_is_Some_2 a bi) as [x ->]; [lia|]. simpl.
    destruct (bool_decide (difflib.isbjunk y = junk)); simpl;
      [|by eexists].
    destruct (bool_decide (x = y)); simpl; [|by eexists].
    rewrite !Nat.sub_0_r. apply IH; simpl; lia.
Qed.

Lemma extend_right_ok fuel junk alo ahi blo bhi best :
  ahi ≤ length a → bhi ≤ length b →
  block_in alo ahi blo bhi best → ahi - (best.1.1 + best.2) ≤ fuel →
  ∃ best', difflib.extend_right fuel junk a b ahi bhi best = Some best' ∧
           block_in alo ahi blo bhi best'.
Proof.
  intros Hla Hlb. revert best.
  induction fuel as [|fuel IH]; intros [[bi bj] bs] Hin Hfuel;
    simpl in Hin, Hfuel.
  - simpl. rewrite bool_decide_false by lia. simpl. by eexists.
  - simpl. destruct (decide (bi + bs < ahi)) as [Hi|Hi];
      [rewrite bool_decide_true by done|
       rewrite bool_decide_false by done; simpl; by eexists].
    simpl. destruct (decide (bj + bs < bhi)) as [Hj|Hj];
      [rewrite bool_decide_true by done|
       rewrite bool_decide_false by done; simpl; by eexists].
    simpl. rewrite !py_get_nat.
    destruct (lookup_lt_is_Some_2 b (bj + bs)) as [y ->]; [lia|].
    destruct (lookup_lt_is_Some_2 a (bi + bs)) as [x ->]; [lia|]. simpl.
    destruct (bool_decide (difflib.isbjunk y = junk)); simpl;
      [|by eexists].
    destruct (bool_decide (x = y)); simpl; [|by eexists].
    apply IH; simpl; lia.
Qed.

(** [find_longest_match] returns a block inside its window. *)
Lemma find_longest_match_ok alo ahi blo bhi :
  window_ok (length a) (length b) (alo, ahi, blo, bhi) →
  ∃ blk, difflib.find_longest_match a b b2j alo ahi blo bhi = Some blk ∧
         block_in alo ahi blo bhi blk.
Proof.
  intros (Ha & Hla & Hb & Hlb). unfold difflib.find_longest_match.
  destruct (flm_loop_ok alo ahi blo bhi) as (j2len & b0 & -> & H0);
    [done..|]. simpl.
  destruct (extend_left_ok (length a) false alo ahi blo bhi b0)
    as (b1 & -> & H1); [done..| |].
  { destruct b0 as [[??]?]. simpl in *. lia. }
  simpl.
  destruct (extend_right_ok (length a) false alo ahi blo bhi b1)
    as (b2 & -> & H2); [done..|lia|].
  simpl.
  destruct (extend_left_ok (length a) true alo ahi blo bhi b2)
    as (b3 & -> & H3); [done..| |].
  { destruct b2 as [[??]?]. simpl in *. lia. }
  simpl.
  apply (extend_right_ok (length a) true alo ahi blo bhi b3); [done..|lia].
Qed.

Lemma queue_weight_cons alo ahi blo bhi queue :
  queue_weight ((alo, ahi, blo, bhi) :: queue) =
  2 * (ahi - alo) + 1 + queue_weight queue.
Proof. reflexivity. Qed.

(** The queue loop stops within its fuel, and every block it collects
    lies inside the two sequences. *)
Lemma gmb_loop_ok fuel queue blocks :
  Forall (window_ok (length a) (length b)) queue →
  Forall (block_in 0 (length a) 0 (length b)) blocks →
  queue_weight queue ≤ fuel →
  ∃ blocks', difflib.gmb_loop fuel a b b2j queue blocks = Some blocks' ∧
    Forall (block_in 0 (length a) 0 (length b)) blocks'.
Proof.
  revert queue blocks.
  induction fuel as [|fuel IH]; intros queue blocks Hq Hb Hw.
  - destruct queue as [|[[[alo ahi] blo] bhi] queue]; simpl; [by eexists|].
    rewrite queue_weight_cons in Hw. lia.
  - destruct queue as [|[[[alo ahi] blo] bhi] queue]; simpl; [by eexists|].
    apply Forall_cons in Hq as [Hw0 Hq].
    destruct (find_longest_match_ok alo ahi blo bhi Hw0)
      as ([[i j] k] & -> & Hin). simpl.
    pose proof Hw0 as (Ha & Hla & Hb' & Hlb). simpl in Hin.
    rewrite queue_weight_cons in Hw.
    case_decide as Hk.
    + assert (window_ok (length a) (length b) (alo, i, blo, j)) as Hw1
        by (simpl; lia).
      assert (window_ok (length a) (length b) (i + k, ahi, j + k, bhi))
        as Hw2 by (simpl; lia).
      apply IH.
      * destruct (decide (alo < i ∧ blo < j));
          destruct (decide (i + k < ahi ∧ j + k < bhi));
          repeat (apply Forall_cons_2; [assumption|]); assumption.
      * apply Forall_app. split; [done|]. apply Forall_singleton.
        simpl. lia.
      * destruct (decide (alo < i ∧ blo < j));
          destruct (decide (i + k < ahi ∧ j + k < bhi));
          rewrite ?queue_weight_cons; lia.
    + apply IH; [done..|lia].
Qed.
End matcher.

(** ** Matching blocks, opcodes and word blocks *)

Lemma collapse_step_ok la lb st blk :
  block_in 0 la 0 lb st.1 → Forall (block_in 0 la 0 lb) st.2 →
  block_in 0 la 0 lb blk →
  block_in 0 la 0 lb (difflib.collapse_step st blk).1 ∧
  Forall (block_in 0 la 0 lb) (difflib.collapse_step st blk).2.
Proof.
  destruct st as [[[i1 j1] k1] non_adjacent], blk as [[i2 j2] k2].
  simpl. intros H1 Hn H2. repeat case_decide; simpl; split; try done; try lia.
  apply Forall_app. split; [done|]. by apply Forall_singleton.
Qed.

Lemma collapse_ok la lb blocks st :
  block_in 0 la 0 lb st.1 → Forall (block_in 0 la 0 lb) st.2 →
  Forall (block_in 0 la 0 lb) blocks →
  block_in 0 la 0 lb (foldl difflib.collapse_step st blocks).1 ∧
  Forall (block_in 0 la 0 lb) (foldl difflib.collapse_step st blocks).2.
Proof.
  revert st. induction blocks as [|blk blocks IH]; intros st H1 Hn Hb; simpl.
  - done.
  - apply Forall_cons in Hb as [Hblk Hb].
    destruct (collapse_step_ok la lb st blk H1 Hn Hblk). by apply IH.
Qed.

(** [get_matching_blocks] returns, and its blocks lie inside [a] and [b]. *)
Lemma get_matching_blocks_ok a b :
  ∃ blocks, difflib.get_matching_blocks a b = Some blocks ∧
    Forall (block_in 0 (length a) 0 (length b)) blocks.
Proof.
  unfold difflib.get_matching_blocks.
  destruct (gmb_loop_ok a b (difflib.chain_b b) (2 * length a + 1)
    [(0, length a, 0, length b)] []) as (blocks & -> & Hb).
  - apply Forall_singleton. simpl. lia.
  - done.
  - unfold queue_weight. simpl. lia.
  - simpl.
    destruct (collapse_ok (length a) (length b)
      (merge_sort difflib.Match_le blocks) ((0, 0, 0), [])) as [H1 Hn].
    + simpl. lia.
    + done.
    + by rewrite merge_sort_Permutation.
    + destruct (foldl _ _ _) as [[[i1 j1] k1] non_adjacent].
      eexists. split; [done|]. simpl in H1, Hn.
      apply Forall_app. split.
      * case_decide; [|done]. apply Forall_app. split; [done|].
        by apply Forall_singleton.
      * apply Forall_singleton. simpl. lia.
Qed.

Lemma opcode_step_ok la lb st blk :
  Forall (opcode_ok la lb) st.2 → block_in 0 la 0 lb blk →
  Forall (opcode_ok la lb) (difflib.opcode_step st blk).2.
Proof.
  destruct st as [[i j] answer], blk as [[ai bj] size]. simpl.
  intros Hans Hblk.
  assert (∀ (P : Prop) `{Decision P} (x : difflib.opcode) l,
    Forall (opcode_ok la lb) l → (P → opcode_ok la lb x) →
    Forall (opcode_ok la lb) (if decide P then l ++ [x] else l)) as Hadd.
  { intros P ? x l Hl Hx. case_decide; [|done].
    apply Forall_app. split; [done|]. apply Forall_singleton. auto. }
  apply Hadd; [apply Hadd; [done|]|].
  - intros Htag. simpl. repeat case_decide; try done;
      (split; [lia|split; [lia|]]).
    + left. repeat split; lia.
    + right; left. repeat split; lia.
    + right; right; left. repeat split; lia.
  - intros Hsize. simpl. split; [lia|split; [lia|]].
    right; right; right. repeat split; lia.
Qed.

Lemma opcodes_of_blocks_ok la lb blocks :
  Forall (block_in 0 la 0 lb) blocks →
  Forall (opcode_ok la lb) (difflib.opcodes_of_blocks blocks).
Proof.
  unfold difflib.opcodes_of_blocks.
  assert (∀ st, Forall (opcode_ok la lb) st.2 →
    Forall (block_in 0 la 0 lb) blocks →
    Forall (opcode_ok la lb) (foldl difflib.opcode_step st blocks).2) as H.
  { induction blocks as [|blk blocks IH]; intros st Hst Hb; simpl; [done|].
    apply Forall_cons in Hb as [Hblk Hb].
    apply IH; [|done]. by apply opcode_step_ok. }
  intros Hb. by apply H.
Qed.

Lemma get_opcodes_ok a b :
  ∃ opcodes, difflib.get_opcodes a b = Some opcodes ∧
    Forall (opcode_ok (length a) (length b)) opcodes.
Proof.
  unfold difflib.get_opcodes.
  destruct (get_matching_blocks_ok a b) as (blocks & -> & Hb). simpl.
  eexists. split; [done|]. by apply opcodes_of_blocks_ok.
Qed.

(** [split] returns no token exactly on white space. *)
Lemma split_from_nil cur s :
  split_from cur s = [] ↔ cur = [] ∧ Forall (λ c, isspace c = true) s.
Proof.
  revert cur. induction s as [|c s IH]; intros cur; simpl.
  - case_decide; split; try done.
    + intros [??]. done.
  - destruct (isspace c) eqn:Hc.
    + case_decide as Hcur.
      * rewrite IH. split; intros [? ?]; split; try done.
        -- by apply Forall_cons.
        -- by apply Forall_cons in H0 as [_ ?].
      * split; [done|]. by intros [? _].
    + rewrite IH. split.
      * intros [[]%app_eq_nil _]. done.
      * intros [_ [Hc' _]%Forall_cons]. congruence.
Qed.

Lemma py_split_nil s : py_split s = [] ↔ Forall (λ c, isspace c = true) s.
Proof. unfold py_split. rewrite split_from_nil. tauto. Qed.

Lemma py_slice_substring s i1 i2 : substring (py_slice s i1 i2) s.
Proof.
  exists (take i1 s), (drop (i2 - i1) (drop i1 s)). unfold py_slice.
  by rewrite !take_drop.
Qed.

Lemma py_slice_nonempty s i1 i2 :
  i1 < i2 → i2 ≤ length s → py_slice s i1 i2 ≠ [].
Proof.
  intros H1 H2 Hnil. apply (f_equal length) in Hnil.
  unfold py_slice in Hnil. rewrite length_take, length_drop in Hnil.
  simpl in Hnil. lia.
Qed.

Lemma py_slice_empty s i1 i2 : i2 ≤ i1 → py_slice s i1 i2 = [].
Proof.
  intros. unfold py_slice. by replace (i2 - i1) with 0 by lia.
Qed.

Lemma word_align_step_ok ref_str hyp_str ops oc :
  let P := λ op, ∃ rs hs, block_of_spans ref_str hyp_str op rs hs in
  Forall P ops → opcode_ok (length ref_str) (length hyp_str) oc →
  Forall P (word_align_step ref_str hyp_str ops oc).
Proof.
  intros P Hops Hoc. destruct oc as [[[[tag i1] i2] j1] j2].
  simpl in Hoc. destruct Hoc as (Hi2 & Hj2 & Htag). unfold word_align_step.
  assert (∀ op, P op → Forall P (ops ++ [op])) as Hadd.
  { intros op Hop. apply Forall_app. split; [done|].
    by apply Forall_singleton. }
  destruct Htag as [(-> & Hi & Hj)|[(-> & Hi & Hj)|[(-> & Hi & Hj)|
                    (-> & Hi & Hj)]]]; simpl; apply Hadd;
    exists (py_slice ref_str i1 i2), (py_slice hyp_str j1 j2);
    unfold block_of_spans; simpl;
    (split; [apply py_slice_substring|]);
    (split; [apply py_slice_substring|]).
  - split; [left; by apply py_slice_nonempty|].
    repeat split; try done. set_solver.
  - split; [left; by apply py_slice_nonempty|].
    rewrite (py_slice_empty hyp_str j1 j2) by done.
    repeat split; try done. set_solver.
  - split; [right; by apply py_slice_nonempty|].
    rewrite (py_slice_empty ref_str i1 i2) by done.
    repeat split; try done. set_solver.
  - split; [left; by apply py_slice_nonempty|].
    repeat split; try done. set_solver.
Qed.

(** The word aligner returns, and each of its blocks is the split of a
    span of the joined reference string and a span of the joined
    hypothesis string, not both empty. *)
Lemma word_align_ok ref_words hyp_words :
  ∃ ops, word_align ref_words hyp_words = Some ops ∧
    Forall (λ op, ∃ rs hs,
              block_of_spans (py_join space ref_words)
                (py_join space hyp_words) op rs hs) ops.
Proof.
  unfold word_align.
  destruct (get_opcodes_ok (py_join space ref_words)
    (py_join space hyp_words)) as (opcodes & -> & Hoc). simpl.
  eexists. split; [done|].
  assert (∀ ops, Forall (λ op, ∃ rs hs,
              block_of_spans (py_join space ref_words)
                (py_join space hyp_words) op rs hs) ops →
    Forall (λ op, ∃ rs hs,
              block_of_spans (py_join space ref_words)
                (py_join space hyp_words) op rs hs)
      (foldl (word_align_step (py_join space ref_words)
                (py_join space hyp_words)) ops opcodes)) as H.
  { induction opcodes as [|oc opcodes IH]; intros ops Hops; simpl; [done|].
    apply Forall_cons in Hoc as [Hoc1 Hoc].
    apply IH; [done|]. by apply word_align_step_ok. }
  by apply H.
Qed.

(** ** Counters *)

Lemma get0_empty `{Countable K} (k : K) : get0 (∅ : gmap K nat) k = 0.
Proof. unfold get0. by rewrite lookup_empty. Qed.

Lemma get0_add_counts `{Countable K} (acc d : gmap K nat) (k : K) :
  get0 (add_counts acc d) k = get0 acc k + get0 d k.
Proof.
  unfold get0, add_counts. rewrite lookup_union_with.
  destruct (acc !! k), (d !! k); simpl; lia.
Qed.

Lemma classify_char_step_get0 acc op k :
  get0 (classify_char_step acc op).1 k =
  get0 acc.1 k + (if decide (char_key (operation op) = Some k) then 1 else 0).
Proof.
  destruct acc as [stats sub_pairs]. unfold classify_char_step, char_key.
  repeat case_decide; simpl; rewrite ?get0_incr;
    repeat case_decide; simplify_eq; lia.
Qed.

Lemma classify_char_foldl_get0 acc ops k :
  get0 (foldl classify_char_step acc ops).1 k =
  get0 acc.1 k +
  length (filter (λ op, char_key (operation op) = Some k) ops).
Proof.
  revert acc. induction ops as [|op ops IH]; intros acc; simpl.
  - lia.
  - rewrite IH, classify_char_step_get0, filter_cons.
    case_decide; simpl; lia.
Qed.

Lemma filter_length_ext {A} (P Q : A → Prop)
    `{∀ x, Decision (P x)} `{∀ x, Decision (Q x)} (l : list A) :
  (∀ x, P x ↔ Q x) → length (filter P l) = length (filter Q l).
Proof.
  intros HPQ. induction l as [|x l IH]; [done|].
  rewrite !filter_cons. destruct (decide (P x)), (decide (Q x)); simpl;
    try lia; exfalso; naive_solver.
Qed.

(** The character counters are a recount of the alignment. *)
Lemma classify_char_errors_count ops tag k :
  char_key tag = Some k →
  get0 (classify_char_errors ops).1 k = count_op tag ops.
Proof.
  intros Hk. unfold classify_char_errors, count_op.
  rewrite classify_char_foldl_get0. simpl. rewrite get0_empty. simpl.
  apply filter_length_ext. intros op. split.
  - intros Hop. revert Hk Hop. unfold char_key.
    repeat case_decide; intros; simplify_eq; done.
  - by intros ->.
Qed.

(** ** The word classifier returns and leaves the character counters *)

Lemma classify_word_step_ok acc op :
  ∃ acc', classify_word_step acc op = Some acc' ∧
    ∀ k, k ∈ char_keys → get0 acc'.1 k = get0 acc.1 k.
Proof.
  destruct acc as [stats examples]. unfold classify_word_step.
  assert (∀ k k', k ∈ char_keys → k' ∉ char_keys →
            get0 (incr k' stats) k = get0 stats k) as Hincr.
  { intros k k' Hk Hk'. rewrite get0_incr. case_decide; [|lia].
    by subst. }
  case_decide; [by eexists|].
  destruct (is_merge_spec (ref_words op) (hyp_words op) default_max_dist)
    as (bm & -> & _). simpl. destruct bm.
  { eexists. split; [done|]. simpl. intros k Hk. apply Hincr; [done|].
    unfold char_keys. set_solver. }
  destruct (is_split_spec (ref_words op) (hyp_words op) default_max_dist)
    as (bs & -> & _). simpl. destruct bs.
  { eexists. split; [done|]. simpl. intros k Hk. apply Hincr; [done|].
    unfold char_keys. set_solver. }
  case_decide as Hlen.
  - destruct Hlen as [Hr Hh].
    destruct (ref_words op) as [|ref_w [|??]]; try done.
    destruct (hyp_words op) as [|hyp_w [|??]]; try done.
    change 0%Z with (Z.of_nat 0). rewrite !py_get_nat. simpl.
    case_decide; [|by eexists].
    destruct (is_abbrev_expansion _ _ _);
      (eexists; split; [done|]; simpl; intros k Hk; apply Hincr; [done|];
       unfold char_keys; set_solver).
  - case_decide as Htag; [|by eexists].
    eexists. split; [done|]. simpl. intros k Hk. apply Hincr; [done|].
    apply elem_of_cons in Htag as [->|Htag];
      [|apply list_elem_of_singleton in Htag as ->];
      unfold char_keys; set_solver.
Qed.

Lemma classify_word_errors_ok word_ops :
  ∃ res, classify_word_errors word_ops = Some res ∧
    ∀ k, k ∈ char_keys → get0 res.1 k = 0.
Proof.
  unfold classify_word_errors.
  destruct (for_loop_inv
    (λ _ (acc : gmap string nat * gmap string (list example)),
       ∀ k, k ∈ char_keys → get0 acc.1 k = 0)
    word_ops classify_word_step (∅, ∅)) as (res & Hres & Hk).
  - intros k _. simpl. apply get0_empty.
  - intros t op acc _ Hacc.
    destruct (classify_word_step_ok acc op) as (acc' & Hstep & Hsame).
    exists acc'. split; [done|]. intros k Hk. rewrite Hsame by done.
    by apply Hacc.
  - by exists res.
Qed.

(** ** One page *)

Lemma page_errors_page page_idx word_ops :
  Forall (λ row, page row = page_idx + 1) (page_errors page_idx word_ops).
Proof. unfold page_errors. apply Forall_fmap, Forall_true. done. Qed.

(** A page is processed without an error; the character counters grow by
    the recount of the page's alignment, and the rows added to the log
    carry the page's number. *)
Lemma process_page_ok (page_idx : nat) (ref_page hyp_page : str)
    (acc : results) :
  ∃ char_ops word_ops (res : results),
    levenshtein_align ref_page hyp_page = Some char_ops ∧
    word_align (py_split ref_page) (py_split hyp_page) = Some word_ops ∧
    process_page page_idx ref_page hyp_page acc = Some res ∧
    (∀ tag k, char_key tag = Some k →
       get0 res.1.1 k = get0 acc.1.1 k + count_op tag char_ops) ∧
    res.1.2 = acc.1.2 ++ page_errors page_idx word_ops.
Proof.
  destruct acc as [[all_stats all_errors] all_sub_pairs].
  unfold process_page.
  destruct (levenshtein_align_spec ref_page hyp_page)
    as (char_ops & Hal & _).
  destruct (word_align_ok (py_split ref_page) (py_split hyp_page))
    as (word_ops & Hwa & _).
  destruct (classify_word_errors_ok word_ops)
    as ([word_stats word_examples] & Hcw & Hkeys).
  simpl in Hkeys. exists char_ops, word_ops. rewrite Hal, Hwa. simpl.
  destruct (classify_char_errors char_ops) as [char_stats sub_pairs] eqn:Hcc.
  rewrite Hcw. simpl. eexists. repeat split; try done.
  simpl. intros tag k Hk. rewrite !get0_add_counts.
  rewrite <- (classify_char_errors_count char_ops tag k Hk), Hcc. simpl.
  rewrite (Hkeys k); [lia|].
  revert Hk. unfold char_key, char_keys.
  repeat case_decide; intros; simplify_eq; set_solver.
Qed.

(** ** The page loop *)

Lemma for_loop_ext {S X} (xs : list X) (f g : S → X → option S) (s : S) :
  (∀ s x, f s x = g s x) → for_loop xs f s = for_loop xs g s.
Proof.
  intros Hfg. revert s. induction xs as [|x xs IH]; intros s; simpl; [done|].
  rewrite Hfg. destruct (g s x); simpl; [apply IH|done].
Qed.

Lemma for_loop_fmap {S X Y} (h : X → Y) (xs : list X)
    (body : S → Y → option S) (s : S) :
  for_loop (h <$> xs) body s = for_loop xs (λ s x, body s (h x)) s.
Proof.
  revert s. induction xs as [|x xs IH]; intros s; simpl; [done|].
  destruct (body s (h x)); simpl; [apply IH|done].
Qed.

(** A loop over the indices of a list is a loop over its numbered
    elements. *)
Lemma for_loop_enumerate {St A} (l : list A) (f : nat → A → St → option St)
    (s : St) :
  for_loop (range 0 (length l)) (λ s i, x ← l !! i; f i x s) s =
  for_loop (enumerate l) (λ s (ix : nat * A), f ix.1 ix.2 s) s.
Proof.
  unfold range, enumerate. rewrite Nat.sub_0_r.
  revert f s. induction l as [|x l IH]; intros f s; [done|].
  rewrite imap_cons. simpl.
  destruct (f 0 x s) as [s'|]; simpl; [|done].
  rewrite <- fmap_S_seq, for_loop_fmap. simpl.
  rewrite (IH (λ i, f (S i))).
  replace (imap (pair ∘ S) l)
    with ((λ ix : nat * A, (S ix.1, ix.2)) <$> imap pair l).
  - by rewrite for_loop_fmap.
  - rewrite fmap_imap. by apply imap_ext.
Qed.

Lemma analyze_page_pair (ref_pages hyp_pages : list str) (acc : results)
    (page_idx : nat) :
  analyze_page ref_pages hyp_pages acc page_idx =
  (p ← page_pairs ref_pages hyp_pages !! page_idx;
   process_page page_idx p.1 p.2 acc).
Proof.
  unfold analyze_page, page_pairs. rewrite !py_get_nat, lookup_zip_with.
  destruct (ref_pages !! page_idx); simpl; [|done].
  destruct (hyp_pages !! page_idx); simpl; done.
Qed.

(** The page loop compares exactly the page pairs, in order. *)
Lemma analyze_loop_pairs (ref_pages hyp_pages : list str) :
  for_loop (range 0 (length ref_pages `min` length hyp_pages))
    (analyze_page ref_pages hyp_pages) (∅, [], ∅) =
  process_pairs (page_pairs ref_pages hyp_pages).
Proof.
  unfold process_pairs.
  etrans; [|exact (for_loop_enumerate (page_pairs ref_pages hyp_pages)
                     (λ i p acc, process_page i p.1 p.2 acc) _)].
  replace (length (page_pairs ref_pages hyp_pages))
    with (length ref_pages `min` length hyp_pages)
    by (unfold page_pairs; by rewrite length_zip).
  apply for_loop_ext. intros acc i. apply analyze_page_pair.
Qed.

(** Every pair is processed without an error.  The character counters are
    the recount over the alignments of all pairs, and the log holds only
    page numbers of pairs. *)
Lemma process_pairs_ok (pairs : list (str * str)) :
  ∃ (aligns : list (list EditOp)) (res : results),
    process_pairs pairs = Some res ∧
    Forall2 (λ p ops, levenshtein_align p.1 p.2 = Some ops) pairs aligns ∧
    (∀ tag k, char_key tag = Some k →
       get0 res.1.1 k = sum_list_with (count_op tag) aligns) ∧
    Forall (λ row, 1 ≤ page row ≤ length pairs) res.1.2.
Proof.
  unfold process_pairs.
  destruct (for_loop_inv
    (λ t (acc : results), ∃ aligns : list (list EditOp),
       Forall2 (λ p ops, levenshtein_align p.1 p.2 = Some ops)
         (take t pairs) aligns ∧
       (∀ tag k, char_key tag = Some k →
          get0 acc.1.1 k = sum_list_with (count_op tag) aligns) ∧
       Forall (λ row, 1 ≤ page row ≤ t) acc.1.2)
    (enumerate pairs)
    (λ acc (ip : nat * (str * str)), process_page ip.1 ip.2.1 ip.2.2 acc)
    (∅, [], ∅)) as (res & Hres & aligns & Hal & Hcnt & Hrows).
  - exists []. simpl. split; [constructor|]. split; [|constructor].
    intros tag k _. apply get0_empty.
  - intros t [i p] acc [-> Hp]%enumerate_lookup (aligns & Hal & Hcnt & Hrows).
    simpl.
    destruct (process_page_ok t p.1 p.2 acc)
      as (char_ops & word_ops & res & Hco & _ & Hpp & Hcnt' & Herr).
    exists res. split; [done|]. exists (aligns ++ [char_ops]).
    split; [|split].
    + rewrite (take_S_r pairs t p Hp). apply Forall2_app; [done|].
      by constructor.
    + intros tag k Hk. rewrite (Hcnt' tag k Hk), (Hcnt tag k Hk).
      rewrite sum_list_with_app. simpl. lia.
    + rewrite Herr. apply Forall_app. split.
      * eapply Forall_impl; [exact Hrows|]. simpl. intros row. lia.
      * eapply Forall_impl; [apply page_errors_page|]. simpl.
        intros row ->. lia.
  - rewrite enumerate_length in Hal, Hrows. rewrite firstn_all in Hal.
    by exists aligns, res.
Qed.

(** ** [re.split]: the fuel is never used up *)

Lemma star_match_length p s k rest n :
  (∀ s' r, k s' = Some r → length r + n ≤ length s') →
  star_match p s k = Some rest → length rest + n ≤ length s.
Proof.
  intros Hk. induction s as [|c s IH]; simpl.
  - apply Hk.
  - destruct (p c); [|apply Hk].
    destruct (star_match p s k) as [r|] eqn:Hr.
    + intros [= <-]. specialize (IH eq_refl). lia.
    + apply Hk.
Qed.

Lemma re_match_length r s k rest n :
  (∀ s' r, k s' = Some r → length r + n ≤ length s') →
  re_match r s k = Some rest → length rest + n ≤ length s.
Proof.
  revert s k n rest. induction r as [c|p|p|r1 IH1 r2 IH2|r1 IH1 r2 IH2];
    intros s k n rest Hk; simpl.
  - destruct s as [|c' s]; [done|]. case_decide; [|done].
    intros ?%Hk. simpl. lia.
  - by apply star_match_length.
  - destruct s as [|c s]; [done|]. destruct (p c); [|done].
    intros ?%(star_match_length _ _ _ _ n); [simpl; lia|done].
  - apply IH1. intros s' r. by apply IH2.
  - destruct (re_match r1 s k) as [r|] eqn:Hr.
    + intros [= <-]. by eapply IH1.
    + by apply IH2.
Qed.

(** A page break consumes at least its first newline. *)
Lemma page_break_consumes s rest :
  re_match page_break s Some = Some rest → length rest < length s.
Proof.
  unfold page_break.
  assert (∀ r, re_match (Seq (Chr newline) r) s Some = Some rest →
               length rest < length s) as Hseq.
  { intros r. simpl. destruct s as [|c s]; [done|]. case_decide; [|done].
    intros ?%(re_match_length _ _ _ _ 0); [simpl; lia|].
    intros s' r' [= <-]. lia. }
  change (re_match (Alt ?r1 ?r2) s Some)
    with (match re_match r1 s Some with
          | Some rest => Some rest
          | None => re_match r2 s Some
          end).
  destruct (re_match (Seq (Chr newline) (Seq (Star isspace) (Chr newline)))
              s Some) as [r|] eqn:Hr.
  - intros [= <-]. by eapply Hseq.
  - apply Hseq.
Qed.

Lemma re_split_from_S fuel r cur s :
  re_split_from (S fuel) r cur s =
  match re_match r s Some with
  | Some rest => cur :: re_split_from fuel r [] rest
  | None =>
      match s with
      | [] => [cur]
      | c :: s' => re_split_from fuel r (cur ++ [c]) s'
      end
  end.
Proof. reflexivity. Qed.

Lemma re_split_from_fuel fuel1 fuel2 cur s :
  length s < fuel1 → length s < fuel2 →
  re_split_from fuel1 page_break cur s = re_split_from fuel2 page_break cur s.
Proof.
  revert fuel2 cur s.
  induction fuel1 as [|fuel1 IH]; intros fuel2 cur s H1 H2; [lia|].
  destruct fuel2 as [|fuel2]; [lia|]. rewrite !re_split_from_S.
  destruct (re_match page_break s Some) as [rest|] eqn:Hm.
  - apply page_break_consumes in Hm. f_equal. apply IH; lia.
  - destruct s as [|c s]; [done|]. simpl in H1, H2. apply IH; lia.
Qed.

(** * The claims *)

(** C1.  For every pair of strings [ref] and [hyp] the character aligner
    returns a CharEdit sequence, and the number of its non-Match operations
    ("S", "D", "I") is the Levenshtein distance of [ref] and [hyp] under
    unit cost for insertion, deletion and substitution: the value of the
    classic recursion, which is the cost of a cheapest edit script. *)
Theorem C1_align_cost_is_levenshtein (ref hyp : str) :
  ∃ ops, levenshtein_align ref hyp = Some ops ∧
    non_match_count ops = lev ref hyp ∧
    is_levenshtein ref hyp (non_match_count ops).
Proof.
  destruct (levenshtein_align_spec ref hyp) as (ops & Hal & _ & _ & _ & Hcnt).
  exists ops. split; [done|]. split; [done|].
  rewrite Hcnt. apply lev_is_levenshtein.
Qed.

(** C2.  For every pair of strings [ref] and [hyp], concatenating the
    [ref_char] fields of the returned CharEdit sequence gives [ref] and
    concatenating the [hyp_char] fields gives [hyp]; the field that a
    Delete or an Insert lacks is the empty string and adds nothing. *)
Theorem C2_align_reconstructs_texts (ref hyp : str) :
  ∃ ops, levenshtein_align ref hyp = Some ops ∧
    ref_text ops = ref ∧ hyp_text ops = hyp ∧
    Forall (λ op, (operation op = "I" → ref_char op = []) ∧
                  (operation op = "D" → hyp_char op = [])) ops.
Proof.
  destruct (levenshtein_align_spec ref hyp) as (ops & Hal & Hwf & Hr & Hh & _).
  exists ops. repeat split; try done.
  eapply Forall_impl; [exact Hwf|]. simpl.
  intros op [(c & ->)|[(c & c' & _ & ->)|[(c & ->)|(c & ->)]]]; done.
Qed.

(** C3, as the code has it.  Every WordEdit block the word aligner produces
    is cut from a span of the joined reference string and a span of the
    joined hypothesis string that are not both empty, and its [ref_words]
    and [hyp_words] are the tokens of those spans.  Either token sequence
    may be empty, and both are empty in the same block exactly when the
    spans hold nothing but white space.  A Delete block has an empty
    hypothesis span and an Insert block an empty reference span. *)
Theorem C3_blocks_are_split_spans (ref_words0 hyp_words0 : list str) :
  ∃ ops, word_align ref_words0 hyp_words0 = Some ops ∧
    Forall (λ op, ∃ rs hs,
      block_of_spans (py_join space ref_words0) (py_join space hyp_words0)
        op rs hs ∧
      (ref_words op = [] ∧ hyp_words op = [] ↔
       Forall (λ c, isspace c = true) (rs ++ hs))) ops.
Proof.
  destruct (word_align_ok ref_words0 hyp_words0) as (ops & Hwa & Hops).
  exists ops. split; [done|].
  eapply Forall_impl; [exact Hops|]. simpl.
  intros op (rs & hs & Hblk). exists rs, hs. split; [done|].
  destruct Hblk as (_ & _ & _ & -> & -> & _).
  rewrite !py_split_nil, Forall_app. done.
Qed.

(** C3, as the specification states it, fails: aligning the words "a", "b"
    with the word "ab" gives a Delete block for the separating space, and
    that block has no token on either side. *)
Lemma C3_counterexample :
  word_align [u "a"; u "b"] [u "ab"] =
    Some [mkWordEditOp [u "a"] [u "a"] "="; mkWordEditOp [] [] "D";
          mkWordEditOp [u "b"] [u "b"] "="] ∧
  ¬ (∀ rw hw ops, word_align rw hw = Some ops →
       Forall (λ op, ref_words op ≠ [] ∨ hyp_words op ≠ []) ops).
Proof.
  assert (word_align [u "a"; u "b"] [u "ab"] =
    Some [mkWordEditOp [u "a"] [u "a"] "="; mkWordEditOp [] [] "D";
          mkWordEditOp [u "b"] [u "b"] "="]) as Hwa
    by (vm_compute; reflexivity).
  split; [done|]. intros Hclaim.
  specialize (Hclaim _ _ _ Hwa).
  apply Forall_cons in Hclaim as [_ Hclaim].
  apply Forall_cons in Hclaim as [[H|H] _]; by apply H.
Qed.

(** C4.  A non-equal block with two or more reference words, one hypothesis
    word and a distance of at most the threshold between the reference
    words joined without separator and the hypothesis word is counted as a
    word merge, before anything else is tried; the mirror image is counted
    as a word split.  The threshold is the parameter [max_dist] of
    [is_merge] and [is_split], 2 when the classifier calls them. *)
Theorem C4_merge_and_split_first
    (stats : gmap string nat) (examples : gmap string (list example))
    (op : WordEditOp) :
  word_operation op ≠ "=" →
  (merge_condition (ref_words op) (hyp_words op) default_max_dist →
   classify_word_step (stats, examples) op =
   Some (incr ErrorType.WORD_MERGE stats,
         push ErrorType.WORD_MERGE (ExWords (ref_words op) (hyp_words op))
           examples)) ∧
  (split_condition (ref_words op) (hyp_words op) default_max_dist →
   classify_word_step (stats, examples) op =
   Some (incr ErrorType.WORD_SPLIT stats,
         push ErrorType.WORD_SPLIT (ExWords (ref_words op) (hyp_words op))
           examples)) ∧
  default_max_dist = 2 ∧
  ∀ max_dist,
    (is_merge (ref_words op) (hyp_words op) max_dist = Some true ↔
     merge_condition (ref_words op) (hyp_words op) max_dist) ∧
    (is_split (ref_words op) (hyp_words op) max_dist = Some true ↔
     split_condition (ref_words op) (hyp_words op) max_dist).
Proof.
  intros Hne. unfold classify_word_step. rewrite decide_False by done.
  split; [|split; [|split; [done|]]].
  - intros Hm. apply is_merge_true in Hm. by rewrite Hm.
  - intros Hs. pose proof Hs as [Hlen _]. apply is_split_true in Hs.
    rewrite is_merge_wide by done. simpl. by rewrite Hs.
  - intros max_dist. split; [apply is_merge_true|apply is_split_true].
Qed.

Lemma C4_witness :
  classify_word_step (∅, ∅) (mkWordEditOp [u "do"; u "mu"] [u "domu"] "S") =
    Some (incr ErrorType.WORD_MERGE ∅,
          push ErrorType.WORD_MERGE (ExWords [u "do"; u "mu"] [u "domu"]) ∅) ∧
  classify_word_step (∅, ∅) (mkWordEditOp [u "domu"] [u "do"; u "mu"] "S") =
    Some (incr ErrorType.WORD_SPLIT ∅,
          push ErrorType.WORD_SPLIT (ExWords [u "domu"] [u "do"; u "mu"]) ∅).
Proof.
  split.
  - apply (C4_merge_and_split_first ∅ ∅
             (mkWordEditOp [u "do"; u "mu"] [u "domu"] "S")); [done|].
    split; [simpl; lia|]. exists (u "domu"). split; [done|].
    vm_compute. lia.
  - apply (C4_merge_and_split_first ∅ ∅
             (mkWordEditOp [u "domu"] [u "do"; u "mu"] "S")); [done|].
    split; [simpl; lia|]. exists (u "domu"). split; [done|].
    vm_compute. lia.
Defined.

(** C5.  A non-equal block with exactly one token on each side, both of at
    least three characters, is neither a merge nor a split; it is counted
    as an abbreviation/expansion when one token is more than 1.5 times as
    long as the other and the shorter one occurs within the first
    [len(shorter) + 2] characters of the longer one, and as a lexical
    substitution otherwise. *)
Theorem C5_abbreviation_or_lexical
    (stats : gmap string nat) (examples : gmap string (list example))
    (op : WordEditOp) (ref_w hyp_w : str) :
  word_operation op ≠ "=" →
  ref_words op = [ref_w] → hyp_words op = [hyp_w] →
  3 ≤ length ref_w → 3 ≤ length hyp_w →
  is_merge (ref_words op) (hyp_words op) default_max_dist = Some false ∧
  is_split (ref_words op) (hyp_words op) default_max_dist = Some false ∧
  (abbrev_condition ref_w hyp_w →
   classify_word_step (stats, examples) op =
   Some (incr ErrorType.ABBR_EXP stats,
         push ErrorType.ABBR_EXP (ExWord ref_w hyp_w) examples)) ∧
  (¬ abbrev_condition ref_w hyp_w →
   classify_word_step (stats, examples) op =
   Some (incr ErrorType.LEX_SUB stats,
         push ErrorType.LEX_SUB (ExWord ref_w hyp_w) examples)).
Proof.
  intros Hne Hr Hh Hlr Hlh. unfold classify_word_step.
  rewrite decide_False by done. rewrite Hr, Hh.
  rewrite !is_merge_single, !is_split_single by done. simpl.
  split; [done|]. split; [done|].
  rewrite decide_True by done.
  pose proof (is_abbrev_expansion_spec ref_w hyp_w) as Hab.
  destruct (is_abbrev_expansion ref_w hyp_w default_min_ratio).
  - split; [done|]. intros Hn. exfalso. apply Hn, Hab; [lia..|done].
  - split; [|done]. intros Hc. apply Hab in Hc; [done|lia..].
Qed.

Lemma C5_witness :
  classify_word_step (∅, ∅) (mkWordEditOp [u "kralj"] [u "kraljevstvo"] "S") =
    Some (incr ErrorType.ABBR_EXP ∅,
          push ErrorType.ABBR_EXP (ExWord (u "kralj") (u "kraljevstvo")) ∅) ∧
  classify_word_step (∅, ∅) (mkWordEditOp [u "dom"] [u "kuca"] "S") =
    Some (incr ErrorType.LEX_SUB ∅,
          push ErrorType.LEX_SUB (ExWord (u "dom") (u "kuca")) ∅).
Proof.
  split.
  - apply (C5_abbreviation_or_lexical ∅ ∅
             (mkWordEditOp [u "kralj"] [u "kraljevstvo"] "S")
             (u "kralj") (u "kraljevstvo"));
      [done|reflexivity|reflexivity|simpl; lia|simpl; lia|].
    left. split; [simpl; lia|]. exists [], (u "ev"). reflexivity.
  - apply (C5_abbreviation_or_lexical ∅ ∅
             (mkWordEditOp [u "dom"] [u "kuca"] "S") (u "dom") (u "kuca"));
      [done|reflexivity|reflexivity|simpl; lia|simpl; lia|].
    intros [[H _]|[H _]]; simpl in H; lia.
Defined.

(** C6, as the code has it.  A non-equal block with exactly one token on
    each side, one of them shorter than three characters, is left out of
    the lexical/abbreviation classification and is not counted at all: the
    statistics and the examples stay as they were, whatever the block's
    operation tag. *)
Theorem C6_short_tokens_not_counted
    (stats : gmap string nat) (examples : gmap string (list example))
    (op : WordEditOp) (ref_w hyp_w : str) :
  word_operation op ≠ "=" →
  ref_words op = [ref_w] → hyp_words op = [hyp_w] →
  length ref_w < 3 ∨ length hyp_w < 3 →
  classify_word_step (stats, examples) op = Some (stats, examples).
Proof.
  intros Hne Hr Hh Hshort. unfold classify_word_step.
  rewrite decide_False by done. rewrite Hr, Hh.
  rewrite !is_merge_single, !is_split_single by done. simpl.
  by rewrite decide_False by lia.
Qed.

Lemma C6_witness :
  classify_word_step (∅, ∅) (mkWordEditOp [u "ab"] [u "cd"] "S") =
  Some (∅, ∅).
Proof.
  apply (C6_short_tokens_not_counted ∅ ∅
           (mkWordEditOp [u "ab"] [u "cd"] "S") (u "ab") (u "cd"));
    [done|reflexivity|reflexivity|left; simpl; lia].
Defined.

(** C6, as the specification states it, fails: the words "ab" and "cd" are
    aligned as one Substitute block with one short token on each side, and
    classifying it counts nothing; the same block tagged Delete or Insert
    is not counted in a residual bucket either. *)
Lemma C6_counterexample :
  word_align [u "ab"] [u "cd"] = Some [mkWordEditOp [u "ab"] [u "cd"] "S"] ∧
  (∀ tag, tag ∈ ["S"; "D"; "I"] →
     ∃ stats examples,
       classify_word_errors [mkWordEditOp [u "ab"] [u "cd"] tag] =
         Some (stats, examples) ∧
       get0 stats "word_d" = 0 ∧ get0 stats "word_i" = 0).
Proof.
  split; [vm_compute; reflexivity|].
  intros tag Htag. exists ∅, ∅.
  repeat (apply elem_of_cons in Htag as [->|Htag]);
    [..|by apply elem_of_nil in Htag];
    (split; [vm_compute; reflexivity|done]).
Qed.

Lemma page_pairs_take (ref_pages hyp_pages : list str) :
  page_pairs (take (length ref_pages `min` length hyp_pages) ref_pages)
             (take (length ref_pages `min` length hyp_pages) hyp_pages) =
  page_pairs ref_pages hyp_pages.
Proof.
  unfold page_pairs. revert hyp_pages.
  induction ref_pages as [|r rp IH]; intros [|h hp]; simpl; try done.
  f_equal. apply IH.
Qed.

Lemma analyze_page_lists_pairs (ref_pages hyp_pages : list str) :
  analyze_page_lists ref_pages hyp_pages =
  (length ref_pages `min` length hyp_pages,
   process_pairs (page_pairs ref_pages hyp_pages)).
Proof. unfold analyze_page_lists. by rewrite analyze_loop_pairs. Qed.

(** When both files are there, [analyze_pages] opens each once, announces
    the number of pages and returns the result of the page loop. *)
Lemma analyze_pages_found (fs : filesystem) (ref_file hyp_file : string)
    (ref_text hyp_text : str) :
  fs ref_file = Some ref_text → fs hyp_file = Some hyp_text →
  analyze_pages fs ref_file hyp_file =
  ([EvOpen ref_file; EvOpen hyp_file;
    EvPrint (MsgAnalysing
               (analyze_page_lists (parse_pages ref_text)
                  (parse_pages hyp_text)).1)],
   (analyze_page_lists (parse_pages ref_text) (parse_pages hyp_text)).2).
Proof.
  intros Hr Hh. unfold analyze_pages, read_inputs, analyze_texts.
  rewrite Hr, Hh. by destruct (analyze_page_lists _ _).
Qed.

(** C7.  For every pair of page lists the orchestrator processes exactly
    the first [min(len(ref_pages), len(hyp_pages))] pages, page [i] of the
    one with page [i] of the other; the pages beyond that number change
    nothing and raise nothing, and every row of the error log carries a
    page number between 1 and that minimum. *)
Theorem C7_min_pages_processed (ref_pages hyp_pages : list str) :
  ∃ res : results,
    analyze_page_lists ref_pages hyp_pages =
      (length ref_pages `min` length hyp_pages, Some res) ∧
    process_pairs (page_pairs ref_pages hyp_pages) = Some res ∧
    length (page_pairs ref_pages hyp_pages) =
      length ref_pages `min` length hyp_pages ∧
    analyze_page_lists
      (take (length ref_pages `min` length hyp_pages) ref_pages)
      (take (length ref_pages `min` length hyp_pages) hyp_pages) =
      (length ref_pages `min` length hyp_pages, Some res) ∧
    Forall (λ row, 1 ≤ page row ≤ length ref_pages `min` length hyp_pages)
      res.1.2.
Proof.
  destruct (process_pairs_ok (page_pairs ref_pages hyp_pages))
    as (aligns & res & Hres & _ & _ & Hrows).
  assert (length (page_pairs ref_pages hyp_pages) =
          length ref_pages `min` length hyp_pages) as Hlen
    by (unfold page_pairs; apply length_zip).
  exists res. rewrite !analyze_page_lists_pairs, page_pairs_take, Hres.
  rewrite Hlen in Hrows. repeat split; try done.
  f_equal. rewrite !length_take. lia.
Qed.

(** The checked example of the specification: five reference pages and
    three hypothesis pages. *)
Example five_and_three_pages :
  let res := analyze_page_lists
               [u "ab cd"; u "ef"; u "gh ij"; u "kl"; u "mn"]
               [u "ab cd"; u "xf"; u "ghij"] in
  res.1 = 3 ∧
  (λ r : results, page <$> r.1.2) <$> res.2 = Some [2; 3].
Proof. vm_compute. done. Qed.

(** C8.  If the reference file or the hypothesis file does not exist, the
    orchestrator prints the error, returns the empty statistics, the empty
    error log and the empty substitution table, and has opened each file at
    most once. *)
Theorem C8_missing_input_empty_results
    (fs : filesystem) (ref_file hyp_file : string) :
  fs ref_file = None ∨ fs hyp_file = None →
  ∃ opened missing,
    analyze_pages fs ref_file hyp_file =
      (opened ++ [EvPrint (MsgNotFound missing); EvPrint MsgCheckFiles],
       Some (∅, [], ∅)) ∧
    fs missing = None ∧
    (opened = [EvOpen ref_file] ∨ opened = [EvOpen ref_file; EvOpen hyp_file]).
Proof.
  intros Hmissing. unfold analyze_pages, read_inputs.
  destruct (fs ref_file) as [ref_text|] eqn:Hr.
  - destruct Hmissing as [?|Hh]; [done|]. rewrite Hh.
    exists [EvOpen ref_file; EvOpen hyp_file], hyp_file. auto.
  - exists [EvOpen ref_file], ref_file. auto.
Qed.

Lemma C8_witness :
  ∃ opened missing,
    analyze_pages (λ _, None) "reference.txt" "hypothesis.txt" =
      (opened ++ [EvPrint (MsgNotFound missing); EvPrint MsgCheckFiles],
       Some (∅, [], ∅)) ∧
    (λ _ : string, @None str) missing = None ∧
    (opened = [EvOpen "reference.txt"] ∨
     opened = [EvOpen "reference.txt"; EvOpen "hypothesis.txt"]).
Proof.
  apply (C8_missing_input_empty_results (λ _, None)
           "reference.txt" "hypothesis.txt").
  left. reflexivity.
Defined.

Lemma sum_list_with_plus {A} (f g : A → nat) (l : list A) :
  sum_list_with (λ x, f x + g x) l = sum_list_with f l + sum_list_with g l.
Proof. induction l as [|x l IH]; simpl; lia. Qed.

(** C9.  The two totals written by the report writer are
    [CharSubstitution + CharDeletion] and [CharSubstitution +
    CharInsertion] of the statistics the orchestrator returns, and they are
    what a direct recount of the "S", "D" and "I" operations in the
    alignments of all processed pages gives.  Handed these statistics,
    [save_outputs] writes them first, to [<prefix>_stats.json], together
    with exactly these two totals; it writes no other statistics, and on
    a disk where that file can be opened this is what is saved first. *)
Theorem C9_totals_are_recounts (ref_pages hyp_pages : list str) :
  ∃ (res : results) (aligns : list (list EditOp)),
    (analyze_page_lists ref_pages hyp_pages).2 = Some res ∧
    Forall2 (λ p ops, levenshtein_align p.1 p.2 = Some ops)
      (page_pairs ref_pages hyp_pages) aligns ∧
    total_chars_ref res.1.1 =
      get0 res.1.1 "char_substitution" + get0 res.1.1 "char_deletion" ∧
    total_chars_hyp res.1.1 =
      get0 res.1.1 "char_substitution" + get0 res.1.1 "char_insertion" ∧
    get0 res.1.1 "char_substitution" = sum_list_with (count_op "S") aligns ∧
    get0 res.1.1 "char_deletion" = sum_list_with (count_op "D") aligns ∧
    get0 res.1.1 "char_insertion" = sum_list_with (count_op "I") aligns ∧
    total_chars_ref res.1.1 =
      sum_list_with (λ ops, count_op "S" ops + count_op "D" ops) aligns ∧
    total_chars_hyp res.1.1 =
      sum_list_with (λ ops, count_op "S" ops + count_op "I" ops) aligns ∧
    ∀ (errors : list error_row) (sub_items : list sub_item) (prefix : string),
      head (save_outputs res.1.1 errors sub_items prefix) =
        Some (SaveWrite (prefix +:+ "_stats.json")
                (StatsJson res.1.1
                   (sum_list_with
                      (λ ops, count_op "S" ops + count_op "D" ops) aligns)
                   (sum_list_with
                      (λ ops, count_op "S" ops + count_op "I" ops) aligns))) ∧
      (∀ path counts t_ref t_hyp,
         SaveWrite path (StatsJson counts t_ref t_hyp)
           ∈ save_outputs res.1.1 errors sub_items prefix →
         path = prefix +:+ "_stats.json" ∧ counts = res.1.1 ∧
         t_ref = get0 res.1.1 "char_substitution"
                 + get0 res.1.1 "char_deletion" ∧
         t_hyp = get0 res.1.1 "char_substitution"
                 + get0 res.1.1 "char_insertion") ∧
      (∀ can_write : string → bool,
         can_write (prefix +:+ "_stats.json") = true →
         head (saved_files
                 (attempt can_write
                    (save_outputs res.1.1 errors sub_items prefix)).1) =
           Some (prefix +:+ "_stats.json",
                 StatsJson res.1.1
                   (sum_list_with
                      (λ ops, count_op "S" ops + count_op "D" ops) aligns)
                   (sum_list_with
                      (λ ops, count_op "S" ops + count_op "I" ops) aligns))).
Proof.
  destruct (process_pairs_ok (page_pairs ref_pages hyp_pages))
    as (aligns & res & Hres & Hal & Hcnt & _).
  exists res, aligns. rewrite analyze_page_lists_pairs. simpl.
  pose proof (Hcnt "S" ErrorType.CHAR_SUB eq_refl) as HS.
  pose proof (Hcnt "D" ErrorType.CHAR_DEL eq_refl) as HD.
  pose proof (Hcnt "I" ErrorType.CHAR_INS eq_refl) as HI.
  assert (total_chars_ref res.1.1 =
          sum_list_with (λ ops, count_op "S" ops + count_op "D" ops) aligns)
    as Href.
  { unfold total_chars_ref. rewrite sum_list_with_plus. lia. }
  assert (total_chars_hyp res.1.1 =
          sum_list_with (λ ops, count_op "S" ops + count_op "I" ops) aligns)
    as Hhyp.
  { unfold total_chars_hyp. rewrite sum_list_with_plus. lia. }
  do 2 (split; [done|]).
  unfold ErrorType.CHAR_SUB, ErrorType.CHAR_DEL, ErrorType.CHAR_INS in *.
  do 7 (split; [done|]).
  intros errors sub_items prefix. rewrite <- Href, <- Hhyp.
  split; [done|]. split.
  - intros path counts t_ref t_hyp. unfold save_outputs.
    rewrite !elem_of_app, !list_elem_of_singleton.
    intros [Hin|[Hin|[Hin|Hin]]]; try done.
    + by injection Hin as -> -> -> ->.
    + case_decide; by apply list_elem_of_singleton in Hin.
  - intros can_write Hw. unfold save_outputs. simpl. rewrite Hw.
    by destruct (attempt _ _).
Qed.

(** C10.  A block tagged "S" with two or more tokens on each side is
    neither a merge nor a split, and classifying it changes no counter: the
    statistics and the examples stay as they were.  The residual counters
    [word_d] and [word_i] change only for a block tagged "D" or "I". *)
Theorem C10_wide_replace_block_dropped
    (stats : gmap string nat) (examples : gmap string (list example))
    (op : WordEditOp) :
  word_operation op = "S" →
  2 ≤ length (ref_words op) → 2 ≤ length (hyp_words op) →
  classify_word_step (stats, examples) op = Some (stats, examples) ∧
  ∀ (op' : WordEditOp) acc',
    classify_word_step (stats, examples) op' = Some acc' →
    get0 acc'.1 "word_d" ≠ get0 stats "word_d" ∨
    get0 acc'.1 "word_i" ≠ get0 stats "word_i" →
    word_operation op' ∈ ["D"; "I"].
Proof.
  intros Htag Hr Hh. split.
  - unfold classify_word_step. rewrite Htag.
    rewrite decide_False by done.
    rewrite is_merge_wide, is_split_wide by done. simpl.
    by rewrite decide_False by lia.
  - intros op' acc'. unfold classify_word_step.
    case_decide; [intros [= <-]; simpl; lia|].
    destruct (is_merge_spec (ref_words op') (hyp_words op') default_max_dist)
      as (bm & -> & _). simpl. destruct bm.
    { intros [= <-]. simpl. rewrite !get0_incr.
      repeat case_decide; try done; lia. }
    destruct (is_split_spec (ref_words op') (hyp_words op') default_max_dist)
      as (bs & -> & _). simpl. destruct bs.
    { intros [= <-]. simpl. rewrite !get0_incr.
      repeat case_decide; try done; lia. }
    case_decide as Hlen.
    + destruct (py_get (ref_words op') 0) as [ref_w|]; simpl; [|done].
      destruct (py_get (hyp_words op') 0) as [hyp_w|]; simpl; [|done].
      case_decide; [|intros [= <-]; simpl; lia].
      destruct (is_abbrev_expansion _ _ _); intros [= <-]; simpl;
        rewrite !get0_incr; repeat case_decide; try done; lia.
    + case_decide as Htag'; [done|]. intros [= <-]. simpl. lia.
Qed.

Lemma C10_witness :
  classify_word_step (∅, ∅)
    (mkWordEditOp [u "ab"; u "cd"] [u "xy"; u "zw"; u "q"] "S") =
  Some (∅, ∅).
Proof.
  apply (C10_wide_replace_block_dropped ∅ ∅
           (mkWordEditOp [u "ab"; u "cd"] [u "xy"; u "zw"; u "q"] "S"));
    [reflexivity|simpl; lia|simpl; lia].
Defined.

(** * Further properties of the code *)

(** ** The distance is a metric *)

Lemma lev_refl s : lev s s = 0.
Proof.
  induction s as [|a s IH]; [done|].
  rewrite lev_cons, decide_True, IH by done. unfold min3. lia.
Qed.

Lemma edit_script_zero s t d : edit_script s t d → d = 0 → s = t.
Proof. induction 1; intros ?; try done. f_equal. auto. Qed.

Lemma lev_zero s t : lev s t = 0 ↔ s = t.
Proof.
  split.
  - intros H. eapply edit_script_zero; [apply lev_script|done].
  - intros ->. apply lev_refl.
Qed.

Lemma edit_script_lengths s t d :
  edit_script s t d → length s ≤ length t + d ∧ length t ≤ length s + d.
Proof. induction 1; simpl; lia. Qed.

Lemma lev_upper s t : lev s t ≤ length s `max` length t.
Proof.
  revert t. induction s as [|a s IH]; intros t.
  - rewrite lev_nil_l. simpl. lia.
  - destruct t as [|b t].
    + rewrite lev_nil_r. simpl. lia.
    + rewrite lev_cons. etrans; [apply min3_le_3|].
      specialize (IH t). simpl. case_decide; lia.
Qed.

(** Two scripts in a row are a script. *)
Lemma edit_script_trans s r t d1 d2 :
  edit_script s r d1 → edit_script r t d2 →
  ∃ d, edit_script s t d ∧ d ≤ d1 + d2.
Proof.
  intros H1. revert t d2.
  induction H1 as [|c s r d1 H1 IH|c c1 s r d1 H1 IH|c s r d1 H1 IH
                   |c1 s r d1 H1 IH]; intros t d2 H2.
  - exists d2. split; [done|lia].
  - remember (c :: r) as r0 eqn:Hr0. revert Hr0.
    induction H2 as [|c' r' t d2 H2 _|c' c2 r' t d2 H2 _|c' r' t d2 H2 _
                     |c2 r' t d2 H2 IH2]; intros Hr0; simplify_eq.
    + destruct (IH _ _ H2) as (d & Hd & ?).
      exists d. split; [by constructor|lia].
    + destruct (IH _ _ H2) as (d & Hd & ?).
      exists (S d). split; [by constructor|lia].
    + destruct (IH _ _ H2) as (d & Hd & ?).
      exists (S d). split; [by constructor|lia].
    + destruct (IH2 eq_refl) as (d & Hd & ?).
      exists (S d). split; [by constructor|lia].
  - remember (c1 :: r) as r0 eqn:Hr0. revert Hr0.
    induction H2 as [|c' r' t d2 H2 _|c' c2 r' t d2 H2 _|c' r' t d2 H2 _
                     |c2 r' t d2 H2 IH2]; intros Hr0; simplify_eq.
    + destruct (IH _ _ H2) as (d & Hd & ?).
      exists (S d). split; [by constructor|lia].
    + destruct (IH _ _ H2) as (d & Hd & ?).
      exists (S d). split; [by constructor|lia].
    + destruct (IH _ _ H2) as (d & Hd & ?).
      exists (S d). split; [by constructor|lia].
    + destruct (IH2 eq_refl) as (d & Hd & ?).
      exists (S d). split; [by constructor|lia].
  - destruct (IH _ _ H2) as (d & Hd & ?).
    exists (S d). split; [by constructor|lia].
  - remember (c1 :: r) as r0 eqn:Hr0. revert Hr0.
    induction H2 as [|c' r' t d2 H2 _|c' c2 r' t d2 H2 _|c' r' t d2 H2 _
                     |c2 r' t d2 H2 IH2]; intros Hr0; simplify_eq.
    + destruct (IH _ _ H2) as (d & Hd & ?).
      exists (S d). split; [by constructor|lia].
    + destruct (IH _ _ H2) as (d & Hd & ?).
      exists (S d). split; [by constructor|lia].
    + destruct (IH _ _ H2) as (d & Hd & ?).
      exists d. split; [done|lia].
    + destruct (IH2 eq_refl) as (d & Hd & ?).
      exists (S d). split; [by constructor|lia].
Qed.

Lemma lev_triangle s r t : lev s t ≤ lev s r + lev r t.
Proof.
  destruct (edit_script_trans s r t _ _ (lev_script s r) (lev_script r t))
    as (d & Hd & ?).
  apply lev_le in Hd. lia.
Qed.

(** X1.  [levenshtein_distance] returns for every two strings, and what it
    returns is their Levenshtein distance: the cost of a cheapest script of
    unit-cost insertions, deletions and substitutions. *)
Theorem X1_levenshtein_distance_correct (s1 s2 : str) :
  ∃ d, levenshtein_distance s1 s2 = Some d ∧ is_levenshtein s1 s2 d.
Proof.
  exists (lev s1 s2). split; [apply levenshtein_distance_spec|].
  apply lev_is_levenshtein.
Qed.

(** X2.  [levenshtein_distance] does not depend on the order of its
    arguments, and it returns 0 exactly when the two strings are equal. *)
Theorem X2_levenshtein_distance_symmetric_identity (s1 s2 : str) :
  levenshtein_distance s1 s2 = levenshtein_distance s2 s1 ∧
  (levenshtein_distance s1 s2 = Some 0 ↔ s1 = s2).
Proof.
  rewrite !levenshtein_distance_spec. split.
  - by rewrite lev_sym.
  - rewrite <- lev_zero. split; [by intros [= ->]|by intros ->].
Qed.

(** X3.  [levenshtein_distance] obeys the triangle inequality: going from
    [s1] to [s3] directly never costs more than going through [s2]. *)
Theorem X3_levenshtein_distance_triangle (s1 s2 s3 : str) :
  ∃ d12 d23 d13,
    levenshtein_distance s1 s2 = Some d12 ∧
    levenshtein_distance s2 s3 = Some d23 ∧
    levenshtein_distance s1 s3 = Some d13 ∧
    d13 ≤ d12 + d23.
Proof.
  exists (lev s1 s2), (lev s2 s3), (lev s1 s3).
  rewrite !levenshtein_distance_spec. repeat split. apply lev_triangle.
Qed.

(** X4.  The distance lies between the difference of the two lengths and
    the larger of the two lengths. *)
Theorem X4_levenshtein_distance_bounds (s1 s2 : str) :
  ∃ d, levenshtein_distance s1 s2 = Some d ∧
    length s1 - length s2 ≤ d ∧ length s2 - length s1 ≤ d ∧
    d ≤ length s1 `max` length s2.
Proof.
  exists (lev s1 s2). split; [apply levenshtein_distance_spec|].
  destruct (edit_script_lengths _ _ _ (lev_script s1 s2)).
  pose proof (lev_upper s1 s2). lia.
Qed.

(** ** Alignments *)

Lemma well_formed_op_cases op :
  well_formed_op op →
  (∃ c, op = match_op c) ∨ (∃ c c', c ≠ c' ∧ op = mkEditOp [c] [c'] "S") ∨
  (∃ c, op = delete_op c) ∨ (∃ c, op = insert_op c).
Proof. done. Qed.

Lemma non_match_count_cons op ops :
  non_match_count (op :: ops) =
  (if non_match op then 1 else 0) + non_match_count ops.
Proof.
  unfold non_match_count. rewrite filter_cons.
  destruct (non_match op); by case_decide.
Qed.

Lemma count_op_cons tag op ops :
  count_op tag (op :: ops) =
  (if decide (operation op = tag) then 1 else 0) + count_op tag ops.
Proof. unfold count_op. rewrite filter_cons. by case_decide. Qed.

Lemma ref_text_cons op ops : ref_text (op :: ops) = ref_char op ++ ref_text ops.
Proof. reflexivity. Qed.

Lemma hyp_text_cons op ops : hyp_text (op :: ops) = hyp_char op ++ hyp_text ops.
Proof. reflexivity. Qed.

(** An alignment without cost is a run of Match operations. *)
Lemma free_alignment_matches ops :
  Forall well_formed_op ops → non_match_count ops = 0 →
  ops = match_op <$> ref_text ops ∧ hyp_text ops = ref_text ops.
Proof.
  induction 1 as [|op ops Hop _ IH]; [done|].
  rewrite non_match_count_cons.
  destruct Hop as [(c & ->)|[(c & c' & _ & ->)|[(c & ->)|(c & ->)]]];
    try (rewrite ?non_match_S, ?non_match_D, ?non_match_I; lia).
  rewrite non_match_eq. intros Hc. destruct (IH Hc) as [Hops Hh].
  rewrite ref_text_cons, hyp_text_cons, Hh. simpl. split; [|done].
  f_equal. done.
Qed.

(** An alignment of the empty reference is a run of Insert operations, and
    one of the empty hypothesis a run of Delete operations. *)
Lemma alignment_of_nil_ref ops :
  Forall well_formed_op ops → ref_text ops = [] →
  ops = insert_op <$> hyp_text ops.
Proof.
  induction 1 as [|op ops Hop _ IH]; [done|].
  rewrite ref_text_cons, hyp_text_cons.
  destruct Hop as [(c & ->)|[(c & c' & _ & ->)|[(c & ->)|(c & ->)]]];
    simpl; try done.
  intros Hr. f_equal. by apply IH.
Qed.

Lemma alignment_of_nil_hyp ops :
  Forall well_formed_op ops → hyp_text ops = [] →
  ops = delete_op <$> ref_text ops.
Proof.
  induction 1 as [|op ops Hop _ IH]; [done|].
  rewrite ref_text_cons, hyp_text_cons.
  destruct Hop as [(c & ->)|[(c & c' & _ & ->)|[(c & ->)|(c & ->)]]];
    simpl; try done.
  intros Hr. f_equal. by apply IH.
Qed.

Lemma alignment_lengths ops :
  Forall well_formed_op ops →
  length (ref_text ops) = count_op "=" ops + count_op "S" ops + count_op "D" ops ∧
  length (hyp_text ops) = count_op "=" ops + count_op "S" ops + count_op "I" ops ∧
  length ops =
    count_op "=" ops + count_op "S" ops + count_op "D" ops + count_op "I" ops ∧
  non_match_count ops = count_op "S" ops + count_op "D" ops + count_op "I" ops.
Proof.
  induction 1 as [|op ops Hop _ IH]; [done|].
  rewrite !count_op_cons, non_match_count_cons, ref_text_cons, hyp_text_cons.
  rewrite !length_app.
  destruct Hop as [(c & ->)|[(c & c' & _ & ->)|[(c & ->)|(c & ->)]]];
    rewrite ?non_match_eq, ?non_match_S, ?non_match_D, ?non_match_I;
    simpl; repeat case_decide; try done; lia.
Qed.

Lemma levenshtein_align_self s : levenshtein_align s s = Some (match_op <$> s).
Proof.
  destruct (levenshtein_align_spec s s) as (ops & Hal & Hwf & Hr & _ & Hcnt).
  rewrite lev_refl in Hcnt.
  destruct (free_alignment_matches ops Hwf Hcnt) as [Hops _].
  rewrite Hr in Hops. by subst ops.
Qed.

Lemma classify_char_errors_matches ops :
  Forall (λ op, operation op = "=") ops → classify_char_errors ops = (∅, ∅).
Proof.
  unfold classify_char_errors.
  generalize (∅ : gmap string nat, ∅ : gmap (str * str) nat).
  intros acc Hops. revert acc.
  induction Hops as [|op ops Hop _ IH]; intros acc; simpl; [done|].
  rewrite <- IH. f_equal. destruct acc. unfold classify_char_step.
  rewrite Hop. done.
Qed.

(** X5.  Aligning a string with itself gives one Match operation per
    character and nothing else, and the character classifier then counts
    no error and no substitution pair. *)
Theorem X5_self_alignment_only_matches (s : str) :
  levenshtein_align s s = Some (match_op <$> s) ∧
  classify_char_errors (match_op <$> s) = (∅, ∅).
Proof.
  split; [apply levenshtein_align_self|].
  apply classify_char_errors_matches, Forall_fmap, Forall_true. done.
Qed.

(** X6.  Against an empty reference the aligner returns one Insert per
    character of the hypothesis, against an empty hypothesis one Delete per
    character of the reference, in the order of the characters. *)
Theorem X6_alignment_with_empty_side (s : str) :
  levenshtein_align [] s = Some (insert_op <$> s) ∧
  levenshtein_align s [] = Some (delete_op <$> s).
Proof.
  split.
  - destruct (levenshtein_align_spec [] s) as (ops & Hal & Hwf & Hr & Hh & _).
    rewrite Hal. f_equal. rewrite <- Hh.
    by apply alignment_of_nil_ref.
  - destruct (levenshtein_align_spec s []) as (ops & Hal & Hwf & Hr & Hh & _).
    rewrite Hal. f_equal. rewrite <- Hr.
    by apply alignment_of_nil_hyp.
Qed.

(** X7.  In every alignment the aligner returns, the reference has as many
    characters as there are Match, Substitute and Delete operations and the
    hypothesis as many as there are Match, Substitute and Insert operations;
    so the alignment is at least as long as the longer string and at most
    as long as both together. *)
Theorem X7_alignment_length_accounts (ref hyp : str) :
  ∃ ops, levenshtein_align ref hyp = Some ops ∧
    length ref = count_op "=" ops + count_op "S" ops + count_op "D" ops ∧
    length hyp = count_op "=" ops + count_op "S" ops + count_op "I" ops ∧
    length ref `max` length hyp ≤ length ops ∧
    length ops ≤ length ref + length hyp.
Proof.
  destruct (levenshtein_align_spec ref hyp)
    as (ops & Hal & Hwf & Hr & Hh & _).
  exists ops. split; [done|].
  destruct (alignment_lengths ops Hwf) as (H1 & H2 & H3 & _).
  rewrite Hr in H1. rewrite Hh in H2. lia.
Qed.

(** X8.  Every operation the aligner returns has one of four shapes: a
    Match carries the same character twice, a Substitute two different
    characters, a Delete only a reference character and an Insert only a
    hypothesis character. *)
Theorem X8_alignment_operations_well_formed (ref hyp : str) :
  ∃ ops, levenshtein_align ref hyp = Some ops ∧
    Forall (λ op,
      (∃ c, op = mkEditOp [c] [c] "=") ∨
      (∃ c c', c ≠ c' ∧ op = mkEditOp [c] [c'] "S") ∨
      (∃ c, op = mkEditOp [c] [] "D") ∨
      (∃ c, op = mkEditOp [] [c] "I")) ops.
Proof.
  destruct (levenshtein_align_spec ref hyp) as (ops & Hal & Hwf & _).
  by exists ops.
Qed.

(** X9.  Classifying the alignment of two strings, the three character
    counters add up to the Levenshtein distance of the strings. *)
Theorem X9_character_counters_sum_to_distance (ref hyp : str) :
  ∃ ops, levenshtein_align ref hyp = Some ops ∧
    char_error_total (classify_char_errors ops).1 = lev ref hyp ∧
    is_levenshtein ref hyp (char_error_total (classify_char_errors ops).1).
Proof.
  destruct (levenshtein_align_spec ref hyp)
    as (ops & Hal & Hwf & _ & _ & Hcnt).
  exists ops. split; [done|].
  assert (char_error_total (classify_char_errors ops).1 = lev ref hyp) as ->.
  { unfold char_error_total.
    rewrite (classify_char_errors_count ops "S" ErrorType.CHAR_SUB eq_refl).
    rewrite (classify_char_errors_count ops "D" ErrorType.CHAR_DEL eq_refl).
    rewrite (classify_char_errors_count ops "I" ErrorType.CHAR_INS eq_refl).
    destruct (alignment_lengths ops Hwf) as (_ & _ & _ & H4). lia. }
  split; [done|]. apply lev_is_levenshtein.
Qed.

(** ** Counters *)

Lemma counter_total_empty `{Countable K} : counter_total (∅ : gmap K nat) = 0.
Proof. unfold counter_total. apply map_fold_empty. Qed.

Lemma counter_total_insert_new `{Countable K} (d : gmap K nat) k v :
  d !! k = None → counter_total (<[k:=v]> d) = v + counter_total d.
Proof.
  intros Hk. unfold counter_total.
  rewrite map_fold_insert_L; [done| |done]. intros. lia.
Qed.

Lemma counter_total_lookup `{Countable K} (d : gmap K nat) k v :
  d !! k = Some v → counter_total d = v + counter_total (delete k d).
Proof.
  intros Hk. unfold counter_total.
  rewrite (map_fold_delete_L _ _ k v d); [done| |done]. intros. lia.
Qed.

Lemma counter_total_incr `{Countable K} (d : gmap K nat) k :
  counter_total (incr k d) = S (counter_total d).
Proof.
  unfold incr. destruct (d !! k) as [v|] eqn:Hk; simpl.
  - rewrite <- insert_delete_eq, counter_total_insert_new
      by apply lookup_delete_eq.
    rewrite (counter_total_lookup d k v Hk). lia.
  - by rewrite counter_total_insert_new.
Qed.

Lemma positive_counts_empty `{Countable K} :
  positive_counts (∅ : gmap K nat).
Proof. intros k v. by rewrite lookup_empty. Qed.

Lemma positive_counts_incr `{Countable K} (d : gmap K nat) k :
  positive_counts d → positive_counts (incr k d).
Proof.
  intros Hd k' v. unfold incr. rewrite lookup_insert. case_decide.
  - intros [= <-]. lia.
  - apply Hd.
Qed.

Lemma positive_counts_add `{Countable K} (d1 d2 : gmap K nat) :
  positive_counts d1 → positive_counts d2 → positive_counts (add_counts d1 d2).
Proof.
  intros H1 H2 k v. unfold add_counts. rewrite lookup_union_with.
  destruct (d1 !! k) as [v1|] eqn:Hk1, (d2 !! k) as [v2|] eqn:Hk2; simpl;
    intros [= <-]; try done.
  - specialize (H1 _ _ Hk1). lia.
  - by eapply H1.
  - by eapply H2.
Qed.

(** Two counters without zeros that count the same are the same. *)
Lemma positive_counts_eq `{Countable K} (d1 d2 : gmap K nat) :
  positive_counts d1 → positive_counts d2 →
  (∀ k, get0 d1 k = get0 d2 k) → d1 = d2.
Proof.
  intros H1 H2 Hget. apply map_eq. intros k. specialize (Hget k).
  unfold get0 in Hget.
  destruct (d1 !! k) as [v1|] eqn:Hk1, (d2 !! k) as [v2|] eqn:Hk2;
    simpl in Hget; try done.
  - by subst.
  - specialize (H1 _ _ Hk1). lia.
  - specialize (H2 _ _ Hk2). lia.
Qed.

Lemma incr_lookup_other `{Countable K} (d : gmap K nat) k k' :
  k ≠ k' → incr k d !! k' = d !! k'.
Proof. intros. unfold incr. by rewrite lookup_insert_ne. Qed.

(** ** classify_char_errors on any list of operations *)

Lemma classify_char_step_pairs acc op pr :
  get0 (classify_char_step acc op).2 pr =
  get0 acc.2 pr +
  (if decide (operation op = "S" ∧ (ref_char op, hyp_char op) = pr)
   then 1 else 0).
Proof.
  destruct acc as [stats sub_pairs]. unfold classify_char_step.
  repeat case_decide; simpl; rewrite ?get0_incr;
    repeat case_decide; destruct_and?; simplify_eq; try lia;
    exfalso; tauto.
Qed.

Lemma classify_char_step_invariant acc op :
  positive_counts acc.1 → positive_counts acc.2 →
  (∀ k, k ∉ char_keys → acc.1 !! k = None) →
  counter_total acc.2 = get0 acc.1 ErrorType.CHAR_SUB →
  positive_counts (classify_char_step acc op).1 ∧
  positive_counts (classify_char_step acc op).2 ∧
  (∀ k, k ∉ char_keys → (classify_char_step acc op).1 !! k = None) ∧
  counter_total (classify_char_step acc op).2 =
    get0 (classify_char_step acc op).1 ErrorType.CHAR_SUB.
Proof.
  destruct acc as [stats sub_pairs]. simpl. intros H1 H2 Hk Ht.
  unfold classify_char_step. repeat case_decide; simpl;
    repeat split; try done; try (by apply positive_counts_incr);
    try (intros k Hnk; rewrite incr_lookup_other;
         [by apply Hk|intros <-; apply Hnk; unfold char_keys; set_solver]);
    rewrite ?counter_total_incr, ?get0_incr; repeat case_decide; try done;
    lia.
Qed.

Lemma classify_char_foldl_invariant acc ops :
  positive_counts acc.1 → positive_counts acc.2 →
  (∀ k, k ∉ char_keys → acc.1 !! k = None) →
  counter_total acc.2 = get0 acc.1 ErrorType.CHAR_SUB →
  positive_counts (foldl classify_char_step acc ops).1 ∧
  positive_counts (foldl classify_char_step acc ops).2 ∧
  (∀ k, k ∉ char_keys → (foldl classify_char_step acc ops).1 !! k = None) ∧
  counter_total (foldl classify_char_step acc ops).2 =
    get0 (foldl classify_char_step acc ops).1 ErrorType.CHAR_SUB.
Proof.
  revert acc. induction ops as [|op ops IH]; intros acc H1 H2 Hk Ht; simpl.
  - done.
  - destruct (classify_char_step_invariant acc op H1 H2 Hk Ht)
      as (? & ? & ? & ?). by apply IH.
Qed.

Lemma classify_char_errors_invariant ops :
  positive_counts (classify_char_errors ops).1 ∧
  positive_counts (classify_char_errors ops).2 ∧
  (∀ k, k ∉ char_keys → (classify_char_errors ops).1 !! k = None) ∧
  counter_total (classify_char_errors ops).2 =
    get0 (classify_char_errors ops).1 ErrorType.CHAR_SUB.
Proof.
  apply classify_char_foldl_invariant; simpl.
  - apply positive_counts_empty.
  - apply positive_counts_empty.
  - intros k _. apply lookup_empty.
  - by rewrite counter_total_empty, get0_empty.
Qed.

Lemma classify_char_foldl_pairs acc ops pr :
  get0 (foldl classify_char_step acc ops).2 pr =
  get0 acc.2 pr +
  length (filter (λ op, operation op = "S" ∧
                        (ref_char op, hyp_char op) = pr) ops).
Proof.
  revert acc. induction ops as [|op ops IH]; intros acc; simpl.
  - lia.
  - rewrite IH, classify_char_step_pairs, filter_cons.
    case_decide; simpl; lia.
Qed.

(** X10.  For any list of character operations, the three counters are the
    numbers of "S", "D" and "I" operations, a Match changes nothing, no
    other key is ever written and no counter is stored as zero. *)
Theorem X10_character_counters_recount (ops : list EditOp) :
  get0 (classify_char_errors ops).1 "char_substitution" = count_op "S" ops ∧
  get0 (classify_char_errors ops).1 "char_deletion" = count_op "D" ops ∧
  get0 (classify_char_errors ops).1 "char_insertion" = count_op "I" ops ∧
  (∀ k v, (classify_char_errors ops).1 !! k = Some v →
     k ∈ ["char_substitution"; "char_deletion"; "char_insertion"] ∧ 0 < v) ∧
  (∀ r h, classify_char_errors (ops ++ [mkEditOp r h "="]) =
          classify_char_errors ops).
Proof.
  destruct (classify_char_errors_invariant ops) as (Hpos & _ & Hkeys & _).
  split; [apply (classify_char_errors_count ops "S"); done|].
  split; [apply (classify_char_errors_count ops "D"); done|].
  split; [apply (classify_char_errors_count ops "I"); done|].
  split.
  - intros k v Hk. split; [|by eapply Hpos].
    destruct (decide (k ∈ char_keys)) as [Hin|Hnin]; [done|].
    rewrite Hkeys in Hk by done. done.
  - intros r h. unfold classify_char_errors. rewrite foldl_snoc.
    by destruct (foldl _ _ _).
Qed.

(** X11.  The substitution table is a recount too: the count of a pair is
    the number of Substitute operations with that reference and that
    hypothesis character, and all its counts together are the
    [char_substitution] counter. *)
Theorem X11_substitution_table_recount (ops : list EditOp) :
  (∀ r h, get0 (classify_char_errors ops).2 (r, h) =
          length (filter (λ op, operation op = "S" ∧
                                (ref_char op, hyp_char op) = (r, h)) ops)) ∧
  counter_total (classify_char_errors ops).2 =
    get0 (classify_char_errors ops).1 "char_substitution" ∧
  positive_counts (classify_char_errors ops).2.
Proof.
  destruct (classify_char_errors_invariant ops) as (_ & Hpos & _ & Htot).
  split; [|done]. intros r h. unfold classify_char_errors.
  rewrite classify_char_foldl_pairs. simpl. by rewrite get0_empty.
Qed.

(** X12.  Classifying two alignments one after the other and adding the
    counts, as the orchestrator does page by page, gives the counters and
    the table of the two alignments put together. *)
Theorem X12_character_classifier_additive (ops1 ops2 : list EditOp) :
  (classify_char_errors (ops1 ++ ops2)).1 =
    add_counts (classify_char_errors ops1).1 (classify_char_errors ops2).1 ∧
  (classify_char_errors (ops1 ++ ops2)).2 =
    add_counts (classify_char_errors ops1).2 (classify_char_errors ops2).2.
Proof.
  destruct (classify_char_errors_invariant ops1) as (Hs1 & Hp1 & _ & _).
  destruct (classify_char_errors_invariant ops2) as (Hs2 & Hp2 & _ & _).
  destruct (classify_char_errors_invariant (ops1 ++ ops2))
    as (Hs & Hp & _ & _).
  split; (apply positive_counts_eq;
          [done|by apply positive_counts_add|]); intros k;
    rewrite get0_add_counts; unfold classify_char_errors.
  - rewrite !classify_char_foldl_get0. simpl.
    rewrite get0_empty, filter_app, length_app. lia.
  - rewrite !classify_char_foldl_pairs. simpl.
    rewrite get0_empty, filter_app, length_app. lia.
Qed.

(** ** is_merge, is_split, is_abbrev_expansion *)

(** X13.  A split is a merge seen from the other side: [is_split] on a
    block answers what [is_merge] answers on the block with reference and
    hypothesis exchanged, and the two never both say yes to one block. *)
Theorem X13_split_mirrors_merge (r_words h_words : list str) (max_dist : nat) :
  is_split r_words h_words max_dist = is_merge h_words r_words max_dist ∧
  ¬ (is_merge r_words h_words max_dist = Some true ∧
     is_split r_words h_words max_dist = Some true).
Proof.
  split.
  - unfold is_split, is_merge.
    destruct (decide (length r_words ≠ 1 ∨ length h_words < 2)) as [H|H].
    + rewrite decide_True by tauto. done.
    + rewrite decide_False by tauto.
      destruct (py_get r_words 0) as [r0|]; simpl; [|done].
      by rewrite !levenshtein_distance_spec, lev_sym.
  - intros [Hm Hs].
    apply is_merge_true in Hm as (_ & h0 & Hh & _).
    apply is_split_true in Hs as (Hlen & _).
    rewrite Hh in Hlen. simpl in Hlen. lia.
Qed.

Lemma substring_take x s n : substring x (take n s) → substring x s.
Proof.
  intros (p & q & Hpq). exists p, (q ++ drop n s).
  rewrite <- (take_drop n s) at 1. rewrite Hpq. by rewrite <- !app_assoc.
Qed.

(** X14.  [is_abbrev_expansion] does not depend on the order of the two
    words, whatever the ratio.  With the ratio 1.5 a yes means that one
    word is more than 1.5 times as long as the other and contains it, so
    the answer is no for two words of the same length and for an empty
    word. *)
Theorem X14_abbreviation_symmetric_and_sound (w1 w2 : str) :
  (∀ min_ratio,
     is_abbrev_expansion w1 w2 min_ratio = is_abbrev_expansion w2 w1 min_ratio) ∧
  (is_abbrev_expansion w1 w2 default_min_ratio = true →
     (3 * length w1 < 2 * length w2 ∧ substring w1 w2) ∨
     (3 * length w2 < 2 * length w1 ∧ substring w2 w1)) ∧
  (length w1 = length w2 ∨ w1 = [] ∨ w2 = [] →
     is_abbrev_expansion w1 w2 default_min_ratio = false).
Proof.
  assert (is_abbrev_expansion w1 w2 default_min_ratio = true →
     (3 * length w1 < 2 * length w2 ∧ substring w1 w2) ∨
     (3 * length w2 < 2 * length w1 ∧ substring w2 w1)) as Hsound.
  { unfold is_abbrev_expansion. case_decide as Hlen; [done|].
    intros Htrue.
    destruct (longer_by w2 w1 default_min_ratio) eqn:H1;
      destruct (py_in w1 (take (length w1 + 2) w2)) eqn:H2;
      simpl in Htrue;
      try (left; split; [by apply longer_by_spec|];
           by eapply substring_take, py_in_spec).
    all: destruct (longer_by w1 w2 default_min_ratio) eqn:H3;
      destruct (py_in w2 (take (length w2 + 2) w1)) eqn:H4;
      simpl in Htrue; try done;
      right; split; [by apply longer_by_spec|];
      by eapply substring_take, py_in_spec. }
  split; [|split; [done|]].
  - intros min_ratio. unfold is_abbrev_expansion.
    destruct (decide (length w1 = 0 ∨ length w2 = 0)) as [H|H].
    + rewrite decide_True by tauto. done.
    + rewrite decide_False by tauto.
      destruct (longer_by w2 w1 min_ratio), (longer_by w1 w2 min_ratio),
        (py_in w1 _), (py_in w2 _); done.
  - intros Hcases.
    destruct (is_abbrev_expansion w1 w2 default_min_ratio) eqn:Hab; [|done].
    exfalso. destruct Hcases as [Heq|[->| ->]].
    + destruct (Hsound eq_refl) as [[? _]|[? _]]; lia.
    + unfold is_abbrev_expansion in Hab. by rewrite decide_True in Hab by auto.
    + unfold is_abbrev_expansion in Hab. by rewrite decide_True in Hab by auto.
Qed.

(** ** classify_word_errors on any list of blocks *)

Lemma push_examples_of k x examples k' :
  examples_of (push k x examples) k' =
  examples_of examples k' ++ (if decide (k = k') then [x] else []).
Proof.
  unfold examples_of, push. case_decide.
  - subst. by rewrite lookup_insert_eq.
  - rewrite lookup_insert_ne by done. by rewrite app_nil_r.
Qed.

(** Runs the classifier's tests once their outcomes are in the context. *)
Ltac run_word_step :=
  repeat first
    [ rewrite decide_True by done
    | rewrite decide_False by done
    | match goal with H : is_merge _ _ _ = _ |- _ => rewrite H end
    | match goal with H : is_split _ _ _ = _ |- _ => rewrite H end
    | match goal with H : is_abbrev_expansion _ _ _ = _ |- _ => rewrite H end
    | progress simpl ];
  try done.

(** What one block does does not depend on what was counted before. *)
Lemma classify_word_step_shape op :
  ∃ c, (∀ acc, classify_word_step acc op = Some (apply_count c acc)) ∧
    (word_operation op = "=" → c = None) ∧
    match c with
    | None => True
    | Some (k, None) =>
        k ∈ ["word_d"; "word_i"] ∧ word_operation op ∈ ["D"; "I"]
    | Some (k, Some x) => k ∈ example_keys
    end.
Proof.
  unfold classify_word_step.
  destruct (decide (word_operation op = "=")) as [Heq|Hne].
  { exists None. split; [|done]. by intros [stats examples]. }
  destruct (is_merge_spec (ref_words op) (hyp_words op) default_max_dist)
    as (bm & Hbm & _).
  destruct (is_split_spec (ref_words op) (hyp_words op) default_max_dist)
    as (bs & Hbs & _).
  destruct bm.
  { eexists (Some (_, Some _)). split; [|split; [done|]].
    - intros [stats examples]. run_word_step.
    - unfold example_keys. set_solver. }
  destruct bs.
  { eexists (Some (_, Some _)). split; [|split; [done|]].
    - intros [stats examples]. run_word_step.
    - unfold example_keys. set_solver. }
  destruct (decide (length (ref_words op) = 1 ∧ length (hyp_words op) = 1))
    as [[Hr Hh]|Hlen].
  - destruct (ref_words op) as [|ref_w [|??]] eqn:Hrw; try done.
    destruct (hyp_words op) as [|hyp_w [|??]] eqn:Hhw; try done.
    destruct (decide (3 ≤ length ref_w ∧ 3 ≤ length hyp_w)) as [Hlong|Hshort].
    + destruct (is_abbrev_expansion ref_w hyp_w default_min_ratio) eqn:Hab.
      * eexists (Some (_, Some _)). split; [|split; [done|]].
        -- intros [stats examples]. run_word_step.
        -- unfold example_keys. set_solver.
      * eexists (Some (_, Some _)). split; [|split; [done|]].
        -- intros [stats examples]. run_word_step.
        -- unfold example_keys. set_solver.
    + exists None. split; [|done].
      intros [stats examples]. run_word_step.
  - destruct (decide (word_operation op ∈ ["D"; "I"])) as [Htag|Htag].
    + eexists (Some (_, None)). split; [|split; [done|]].
      * intros [stats examples]. run_word_step.
      * split; [|done].
        apply elem_of_cons in Htag as [->|Htag];
          [|apply list_elem_of_singleton in Htag as ->]; set_solver.
    + exists None. split; [|done].
      intros [stats examples]. run_word_step.
Qed.

(** The invariants of the loop over the blocks. *)
Lemma classify_word_errors_invariant word_ops :
  ∃ stats examples,
    classify_word_errors word_ops = Some (stats, examples) ∧
    positive_counts stats ∧
    (∀ k, k ∉ word_keys → stats !! k = None) ∧
    counter_total stats ≤ length (non_equal_blocks word_ops) ∧
    (∀ k, length (examples_of examples k) =
          if decide (k ∈ example_keys) then get0 stats k else 0) ∧
    (∀ k, k ∉ example_keys → examples !! k = None).
Proof.
  unfold classify_word_errors.
  destruct (for_loop_inv
    (λ t (acc : gmap string nat * gmap string (list example)),
       positive_counts acc.1 ∧
       (∀ k, k ∉ word_keys → acc.1 !! k = None) ∧
       counter_total acc.1 ≤ length (non_equal_blocks (take t word_ops)) ∧
       (∀ k, length (examples_of acc.2 k) =
             if decide (k ∈ example_keys) then get0 acc.1 k else 0) ∧
       (∀ k, k ∉ example_keys → acc.2 !! k = None))
    word_ops classify_word_step (∅, ∅))
    as ([stats examples] & Hres & Hpos & Hkeys & Htot & Hex & Hnone).
  - simpl. split; [apply positive_counts_empty|].
    split; [intros; apply lookup_empty|].
    split; [by rewrite counter_total_empty|].
    split; [|intros; apply lookup_empty].
    intros k. unfold examples_of. rewrite lookup_empty, get0_empty. simpl.
    by case_decide.
  - intros t op [stats examples] Hop (Hpos & Hkeys & Htot & Hex & Hnone).
    cbn [fst snd] in Hpos, Hkeys, Htot, Hex, Hnone.
    destruct (classify_word_step_shape op) as (c & Hstep & Heq & Hc).
    rewrite Hstep. eexists. split; [done|].
    rewrite (take_S_r word_ops t op Hop). unfold non_equal_blocks in *.
    rewrite filter_app, length_app, filter_cons, filter_nil.
    destruct c as [[k [x|]]|]; simpl.
    + destruct (decide (word_operation op ≠ "=")) as [Hne|Hne];
        [|apply dec_stable in Hne; by specialize (Heq Hne)].
      split; [by apply positive_counts_incr|]. split; [|split; [|split]].
      * intros k' Hk'. rewrite incr_lookup_other; [by apply Hkeys|].
        intros <-. apply Hk'. unfold word_keys. set_solver.
      * rewrite counter_total_incr. simpl. lia.
      * intros k'. rewrite push_examples_of, length_app, get0_incr, Hex.
        repeat case_decide; subst; simpl; try done; lia.
      * intros k' Hk'. unfold push. rewrite lookup_insert_ne; [by apply Hnone|].
        by intros <-.
    + destruct Hc as [Hk _].
      destruct (decide (word_operation op ≠ "=")) as [Hne|Hne];
        [|apply dec_stable in Hne; by specialize (Heq Hne)].
      split; [by apply positive_counts_incr|]. split; [|split; [|split]].
      * intros k' Hk'. rewrite incr_lookup_other; [by apply Hkeys|].
        intros <-. apply Hk'. unfold word_keys. set_solver.
      * rewrite counter_total_incr. simpl. lia.
      * intros k'. rewrite get0_incr, Hex.
        repeat case_decide; subst; simpl; try done; try lia.
        exfalso. revert Hk. unfold example_keys in *.
        set_unfold. naive_solver.
      * done.
    + repeat split; try done. case_decide; simpl; lia.
  - exists stats, examples. rewrite firstn_all in Htot. done.
Qed.

(** X15.  The word classifier returns for every list of blocks.  It writes
    only the six counters [word_merge], [word_split], [abbrev_expansion],
    [lexical_substitution], [word_d] and [word_i], stores no zero, and
    counts each block that is not tagged "=" at most once: all counters
    together are at most the number of such blocks. *)
Theorem X15_word_counters_accounting (word_ops : list WordEditOp) :
  ∃ stats examples,
    classify_word_errors word_ops = Some (stats, examples) ∧
    (∀ k v, stats !! k = Some v →
       k ∈ ["word_merge"; "word_split"; "abbrev_expansion";
            "lexical_substitution"; "word_d"; "word_i"] ∧ 0 < v) ∧
    counter_total stats ≤ length (non_equal_blocks word_ops).
Proof.
  destruct (classify_word_errors_invariant word_ops)
    as (stats & examples & Hres & Hpos & Hkeys & Htot & _ & _).
  exists stats, examples. split; [done|]. split; [|done].
  intros k v Hk. split; [|by eapply Hpos].
  destruct (decide (k ∈ word_keys)) as [Hin|Hnin]; [done|].
  rewrite Hkeys in Hk by done. done.
Qed.

(** X16.  The examples follow the counters: for a merge, a split, an
    abbreviation or a lexical substitution there are as many examples as
    the counter says, and the residual counters [word_d] and [word_i] have
    no examples at all. *)
Theorem X16_examples_follow_counters (word_ops : list WordEditOp) :
  ∃ stats examples,
    classify_word_errors word_ops = Some (stats, examples) ∧
    (∀ k, k ∈ ["word_merge"; "word_split"; "abbrev_expansion";
               "lexical_substitution"] →
          length (examples_of examples k) = get0 stats k) ∧
    (∀ k, k ∉ ["word_merge"; "word_split"; "abbrev_expansion";
               "lexical_substitution"] → examples !! k = None).
Proof.
  destruct (classify_word_errors_invariant word_ops)
    as (stats & examples & Hres & _ & _ & _ & Hex & Hnone).
  exists stats, examples. split; [done|]. split.
  - intros k Hk. rewrite Hex. by rewrite decide_True.
  - intros k Hk. by apply Hnone.
Qed.

Lemma is_merge_not_one_hyp r h md :
  length h ≠ 1 → is_merge r h md = Some false.
Proof. intros. unfold is_merge. by rewrite decide_True by auto. Qed.

Lemma is_split_not_one_ref r h md :
  length r ≠ 1 → is_split r h md = Some false.
Proof. intros. unfold is_split. by rewrite decide_True by auto. Qed.

Lemma is_merge_few_ref r h md :
  length r < 2 → is_merge r h md = Some false.
Proof. intros. unfold is_merge. by rewrite decide_True by auto. Qed.

Lemma is_split_few_hyp r h md :
  length h < 2 → is_split r h md = Some false.
Proof. intros. unfold is_split. by rewrite decide_True by auto. Qed.

(** X17.  Every Delete block of the word aligner is counted as [word_d]
    and every Insert block as [word_i], whatever was counted before; this
    holds also for the block of a deleted or inserted separator space,
    which has no token at all. *)
Theorem X17_delete_insert_blocks_counted (ref_words0 hyp_words0 : list str) :
  ∃ ops, word_align ref_words0 hyp_words0 = Some ops ∧
    ∀ op stats examples, op ∈ ops →
      (word_operation op = "D" →
       hyp_words op = [] ∧
       classify_word_step (stats, examples) op =
         Some (incr "word_d" stats, examples)) ∧
      (word_operation op = "I" →
       ref_words op = [] ∧
       classify_word_step (stats, examples) op =
         Some (incr "word_i" stats, examples)).
Proof.
  destruct (word_align_ok ref_words0 hyp_words0) as (ops & Hwa & Hops).
  exists ops. split; [done|]. intros op stats examples Hop.
  apply (proj1 (Forall_forall _ _) Hops) in Hop
    as (rs & hs & _ & _ & _ & Hr & Hh & _ & HD & HI).
  split; intros Htag.
  - rewrite (HD Htag) in Hh. change (py_split []) with (@nil str) in Hh.
    split; [done|]. unfold classify_word_step. rewrite Htag, Hh.
    rewrite is_merge_not_one_hyp, is_split_few_hyp by (simpl; lia).
    cbn [mbind option_bind]. rewrite decide_False by done.
    rewrite decide_False by (simpl; lia). by rewrite decide_True by set_solver.
  - rewrite (HI Htag) in Hr. change (py_split []) with (@nil str) in Hr.
    split; [done|]. unfold classify_word_step. rewrite Htag, Hr.
    rewrite is_merge_few_ref, is_split_not_one_ref by (simpl; lia).
    cbn [mbind option_bind]. rewrite decide_False by done.
    rewrite decide_False by (simpl; lia). by rewrite decide_True by set_solver.
Qed.

Lemma for_loop_app {S X} (xs ys : list X) (body : S → X → option S) (s : S) :
  for_loop (xs ++ ys) body s = (s' ← for_loop xs body s; for_loop ys body s').
Proof.
  revert s. induction xs as [|x xs IH]; intros s; simpl; [done|].
  destruct (body s x); simpl; [apply IH|done].
Qed.

(** The loop over a run of blocks applies a run of counts that does not
    depend on the accumulators. *)
Lemma classify_word_loop_shape word_ops :
  ∃ cs, ∀ acc,
    for_loop word_ops classify_word_step acc = Some (apply_counts cs acc).
Proof.
  induction word_ops as [|op ops (cs & IH)].
  - by exists [].
  - destruct (classify_word_step_shape op) as (c & Hstep & _).
    destruct c as [c|].
    + exists (c :: cs). intros acc. simpl. rewrite Hstep. simpl. apply IH.
    + exists cs. intros acc. simpl. rewrite Hstep. simpl. apply IH.
Qed.

Lemma apply_counts_app cs1 cs2 acc :
  apply_counts (cs1 ++ cs2) acc = apply_counts cs2 (apply_counts cs1 acc).
Proof. unfold apply_counts. by rewrite foldl_app. Qed.

Lemma apply_counts_get0 cs acc k :
  get0 (apply_counts cs acc).1 k =
  get0 acc.1 k + length (filter (λ c, c.1 = k) cs).
Proof.
  revert acc. induction cs as [|[k' x] cs IH]; intros acc.
  - simpl. lia.
  - change (apply_counts ((k', x) :: cs) acc)
      with (apply_counts cs (apply_count (Some (k', x)) acc)).
    rewrite IH, filter_cons. destruct x as [x|]; simpl;
      rewrite get0_incr; repeat case_decide; simpl; try done; lia.
Qed.

Lemma apply_counts_examples cs acc k :
  examples_of (apply_counts cs acc).2 k =
  examples_of acc.2 k ++ examples_under k cs.
Proof.
  revert acc. induction cs as [|[k' x] cs IH]; intros acc.
  - simpl. by rewrite app_nil_r.
  - change (apply_counts ((k', x) :: cs) acc)
      with (apply_counts cs (apply_count (Some (k', x)) acc)).
    rewrite IH. unfold examples_under. simpl.
    destruct x as [x|]; simpl.
    + rewrite push_examples_of. case_decide; simpl; [|by rewrite app_nil_r].
      by rewrite <- app_assoc.
    + by case_decide.
Qed.

Lemma classify_word_errors_app word_ops1 word_ops2 :
  ∃ r1 r2 r,
    classify_word_errors word_ops1 = Some r1 ∧
    classify_word_errors word_ops2 = Some r2 ∧
    classify_word_errors (word_ops1 ++ word_ops2) = Some r ∧
    r.1 = add_counts r1.1 r2.1 ∧
    ∀ k, examples_of r.2 k = examples_of r1.2 k ++ examples_of r2.2 k.
Proof.
  destruct (classify_word_loop_shape word_ops1) as (cs1 & H1).
  destruct (classify_word_loop_shape word_ops2) as (cs2 & H2).
  destruct (classify_word_errors_invariant word_ops1)
    as (s1 & e1 & Hr1 & Hp1 & _).
  destruct (classify_word_errors_invariant word_ops2)
    as (s2 & e2 & Hr2 & Hp2 & _).
  destruct (classify_word_errors_invariant (word_ops1 ++ word_ops2))
    as (s & e & Hr & Hp & _).
  exists (s1, e1), (s2, e2), (s, e). split; [done|]. split; [done|].
  split; [done|].
  unfold classify_word_errors in *.
  rewrite for_loop_app, H1 in Hr. simpl in Hr. rewrite H2 in Hr.
  rewrite H1 in Hr1. rewrite H2 in Hr2.
  injection Hr as Hr. injection Hr1 as Hr1. injection Hr2 as Hr2.
  split.
  - simpl. apply positive_counts_eq; [done|by apply positive_counts_add|].
    intros k. rewrite get0_add_counts.
    replace s with (apply_counts cs2 (apply_counts cs1 (∅, ∅))).1
      by (by rewrite Hr).
    replace s1 with (apply_counts cs1 (∅, ∅)).1 by (by rewrite Hr1).
    replace s2 with (apply_counts cs2 (∅, ∅)).1 by (by rewrite Hr2).
    rewrite !apply_counts_get0. simpl. rewrite get0_empty. lia.
  - intros k. simpl.
    replace e with (apply_counts cs2 (apply_counts cs1 (∅, ∅))).2
      by (by rewrite Hr).
    replace e1 with (apply_counts cs1 (∅, ∅)).2 by (by rewrite Hr1).
    replace e2 with (apply_counts cs2 (∅, ∅)).2 by (by rewrite Hr2).
    rewrite !apply_counts_examples. simpl.
    unfold examples_of at 2 3. by rewrite lookup_empty.
Qed.

(** X18.  Classifying two runs of blocks one after the other and adding
    the counts, as the orchestrator does page by page, gives the counters
    of the two runs put together, and the examples of each kind in the
    same order. *)
Theorem X18_word_classifier_additive (word_ops1 word_ops2 : list WordEditOp) :
  ∃ stats1 examples1 stats2 examples2 examples,
    classify_word_errors word_ops1 = Some (stats1, examples1) ∧
    classify_word_errors word_ops2 = Some (stats2, examples2) ∧
    classify_word_errors (word_ops1 ++ word_ops2) =
      Some (add_counts stats1 stats2, examples) ∧
    ∀ k, examples_of examples k =
         examples_of examples1 k ++ examples_of examples2 k.
Proof.
  destruct (classify_word_errors_app word_ops1 word_ops2)
    as ([s1 e1] & [s2 e2] & [s e] & H1 & H2 & H & Hs & He).
  simpl in Hs, He. subst s. by exists s1, e1, s2, e2, e.
Qed.

(** ** The orchestrator as one classification *)

Lemma process_page_eq (page_idx : nat) (ref_page hyp_page : str)
    (all_stats : gmap string nat) (all_errors : list error_row)
    (all_sub_pairs : gmap (str * str) nat) cops wops wr :
  levenshtein_align ref_page hyp_page = Some cops →
  word_align (py_split ref_page) (py_split hyp_page) = Some wops →
  classify_word_errors wops = Some wr →
  process_page page_idx ref_page hyp_page
    (all_stats, all_errors, all_sub_pairs) =
  Some (add_counts (add_counts all_stats (classify_char_errors cops).1) wr.1,
        all_errors ++ page_errors page_idx wops,
        add_counts all_sub_pairs (classify_char_errors cops).2).
Proof.
  intros Hc Hw Hwr. unfold process_page. rewrite Hc. simpl.
  destruct (classify_char_errors cops). rewrite Hw. simpl. rewrite Hwr.
  by destruct wr.
Qed.

Lemma classify_char_errors_app_get0 ops1 ops2 :
  (∀ k, get0 (classify_char_errors (ops1 ++ ops2)).1 k =
        get0 (classify_char_errors ops1).1 k +
        get0 (classify_char_errors ops2).1 k) ∧
  (∀ pr, get0 (classify_char_errors (ops1 ++ ops2)).2 pr =
         get0 (classify_char_errors ops1).2 pr +
         get0 (classify_char_errors ops2).2 pr).
Proof.
  unfold classify_char_errors. split; intros k.
  - rewrite !classify_char_foldl_get0. simpl.
    rewrite get0_empty, filter_app, length_app. lia.
  - rewrite !classify_char_foldl_pairs. simpl.
    rewrite get0_empty, filter_app, length_app. lia.
Qed.

Lemma error_log_snoc blocks wops :
  error_log (blocks ++ [wops]) =
  error_log blocks ++ page_errors (length blocks) wops.
Proof.
  unfold error_log. rewrite imap_app, concat_app. simpl.
  by rewrite Nat.add_0_r, app_nil_r.
Qed.

(** What the page loop returns, told without the loop: the statistics are
    those of all alignments and of all word blocks, the substitution table
    is the one of all alignments, the log is the log of all blocks. *)
Lemma process_pairs_characterised (pairs : list (str * str)) :
  ∃ (aligns : list (list EditOp)) (blocks : list (list WordEditOp))
    (wres : gmap string nat * gmap string (list example)) (res : results),
    process_pairs pairs = Some res ∧
    aligned pairs aligns ∧ word_aligned pairs blocks ∧
    classify_word_errors (concat blocks) = Some wres ∧
    res.1.1 = add_counts (classify_char_errors (concat aligns)).1 wres.1 ∧
    res.2 = (classify_char_errors (concat aligns)).2 ∧
    res.1.2 = error_log blocks.
Proof.
  unfold process_pairs.
  destruct (for_loop_inv
    (λ t (acc : results), ∃ aligns blocks wres,
       aligned (take t pairs) aligns ∧ word_aligned (take t pairs) blocks ∧
       classify_word_errors (concat blocks) = Some wres ∧
       positive_counts acc.1.1 ∧ positive_counts acc.2 ∧
       (∀ k, get0 acc.1.1 k =
             get0 (classify_char_errors (concat aligns)).1 k + get0 wres.1 k) ∧
       (∀ pr, get0 acc.2 pr =
              get0 (classify_char_errors (concat aligns)).2 pr) ∧
       acc.1.2 = error_log blocks)
    (enumerate pairs)
    (λ acc (ip : nat * (str * str)), process_page ip.1 ip.2.1 ip.2.2 acc)
    (∅, [], ∅))
    as (res & Hres & aligns & blocks & wres & Hal & Hbl & Hwres & Hp1 & Hp2
        & Hs & Hp & He).
  - exists [], [], (∅, ∅). simpl. repeat split; try done;
      try apply positive_counts_empty; try constructor.
  - intros t [i p] [[S0 E0] P0] [-> Hp]%enumerate_lookup
      (aligns & blocks & wres & Hal & Hbl & Hwres & Hp1 & Hp2 & Hs & Hpr & He).
    cbn [fst snd] in *.
    destruct (levenshtein_align_spec p.1 p.2) as (cops & Hcops & _).
    destruct (word_align_ok (py_split p.1) (py_split p.2))
      as (wops & Hwops & _).
    destruct (classify_word_errors_app (concat blocks) wops)
      as (r1 & wr & r & Hr1 & Hwr & Hr & Hsum & _).
    rewrite Hwres in Hr1. injection Hr1 as <-.
    rewrite (process_page_eq t p.1 p.2 S0 E0 P0 cops wops wr Hcops Hwops Hwr).
    eexists. split; [done|].
    exists (aligns ++ [cops]), (blocks ++ [wops]), r.
    rewrite (take_S_r pairs t p Hp). cbn [fst snd].
    rewrite !concat_app. simpl. rewrite !app_nil_r.
    destruct (classify_char_errors_invariant cops) as (Hc1 & Hc2 & _).
    destruct (classify_word_errors_invariant wops)
      as (ws & we & Hwr' & Hw1 & _).
    rewrite Hwr in Hwr'. injection Hwr' as ->.
    destruct (classify_char_errors_app_get0 (concat aligns) cops) as [Ha1 Ha2].
    split; [apply Forall2_app; [done|by constructor]|].
    split; [apply Forall2_app; [done|by constructor]|].
    split; [done|].
    split; [by repeat apply positive_counts_add|].
    split; [by apply positive_counts_add|].
    split; [|split].
    + intros k. rewrite !get0_add_counts, Hs, Ha1, Hsum, get0_add_counts.
      simpl. lia.
    + intros pr. rewrite get0_add_counts, Hpr, Ha2. lia.
    + rewrite error_log_snoc, He. do 2 f_equal.
      apply Forall2_length in Hbl. rewrite <- Hbl, length_take.
      apply lookup_lt_Some in Hp. lia.
  - rewrite enumerate_length, firstn_all in Hal, Hbl.
    exists aligns, blocks, wres, res. repeat split; try done.
    + destruct (classify_char_errors_invariant (concat aligns))
        as (Hc1 & _).
      destruct (classify_word_errors_invariant (concat blocks))
        as (ws & we & Hwr' & Hw1 & _).
      rewrite Hwres in Hwr'. injection Hwr' as ->.
      apply positive_counts_eq; [done|by apply positive_counts_add|].
      intros k. by rewrite Hs, get0_add_counts.
    + destruct (classify_char_errors_invariant (concat aligns))
        as (_ & Hc2 & _).
      by apply positive_counts_eq.
Qed.

(** X19.  What the orchestrator returns for two page lists is one
    classification of everything: its statistics are the character
    counters of all page alignments put end to end plus the word counters
    of all pages' word blocks put end to end, its substitution table is
    the one of all alignments, and its error log is the log of all
    blocks. *)
Theorem X19_orchestrator_is_one_classification
    (ref_pages hyp_pages : list str) :
  ∃ (aligns : list (list EditOp)) (blocks : list (list WordEditOp))
    (wres : gmap string nat * gmap string (list example)) (res : results),
    (analyze_page_lists ref_pages hyp_pages).2 = Some res ∧
    aligned (page_pairs ref_pages hyp_pages) aligns ∧
    word_aligned (page_pairs ref_pages hyp_pages) blocks ∧
    classify_word_errors (concat blocks) = Some wres ∧
    res.1.1 = add_counts (classify_char_errors (concat aligns)).1 wres.1 ∧
    res.2 = (classify_char_errors (concat aligns)).2 ∧
    res.1.2 = error_log blocks.
Proof.
  rewrite analyze_page_lists_pairs. simpl.
  destruct (process_pairs_characterised (page_pairs ref_pages hyp_pages))
    as (aligns & blocks & wres & res & H).
  by exists aligns, blocks, wres, res.
Qed.

(** ** Edge cases of the orchestrator *)

Lemma aligned_self pages aligns :
  aligned (page_pairs pages pages) aligns →
  Forall (λ op, operation op = "=") (concat aligns).
Proof.
  unfold aligned, page_pairs. revert aligns.
  induction pages as [|p pages IH]; intros aligns Hal; simpl in Hal.
  - apply Forall2_nil_inv_l in Hal as ->. constructor.
  - apply Forall2_cons_inv_l in Hal as (ops & aligns' & Hops & Hal & ->).
    simpl in Hops. rewrite levenshtein_align_self in Hops.
    injection Hops as <-. simpl. apply Forall_app. split; [|by apply IH].
    apply Forall_fmap, Forall_true. done.
Qed.

(** X20.  Comparing a list of pages with itself gives no character error:
    the substitution table is empty, the three character counters are
    absent from the statistics, not stored as 0, and both derived totals
    are 0. *)
Theorem X20_self_comparison_no_character_errors (pages : list str) :
  ∃ res : results,
    (analyze_page_lists pages pages).2 = Some res ∧
    res.2 = ∅ ∧
    (∀ k, k ∈ ["char_substitution"; "char_deletion"; "char_insertion"] →
          res.1.1 !! k = None) ∧
    char_error_total res.1.1 = 0 ∧
    total_chars_ref res.1.1 = 0 ∧ total_chars_hyp res.1.1 = 0.
Proof.
  rewrite analyze_page_lists_pairs. simpl.
  destruct (process_pairs_characterised (page_pairs pages pages))
    as (aligns & blocks & wres & res & Hres & Hal & _ & Hw & Hs & Hp & _).
  exists res. split; [done|].
  rewrite (classify_char_errors_matches _ (aligned_self _ _ Hal)) in Hs, Hp.
  split; [done|].
  destruct (classify_word_errors_invariant (concat blocks))
    as (wstats & wexamples & Hw' & _ & Hkeys & _).
  rewrite Hw in Hw'. injection Hw' as ->.
  assert (∀ k, k ∈ char_keys → res.1.1 !! k = None) as Hnone.
  { intros k Hin. rewrite Hs. unfold add_counts. simpl.
    rewrite lookup_union_with, lookup_empty, Hkeys; [done|].
    intros Hw'. revert Hin. unfold char_keys, word_keys, example_keys in *.
    set_unfold. intros Hin.
    repeat destruct Hin as [->|Hin]; try done;
      repeat destruct Hw' as [Hw'|Hw']; done. }
  split; [exact Hnone|].
  assert (∀ k, k ∈ char_keys → get0 res.1.1 k = 0) as Hzero.
  { intros k Hin. unfold get0. by rewrite Hnone. }
  unfold char_error_total, total_chars_ref, total_chars_hyp.
  rewrite !Hzero by (unfold char_keys; set_solver). done.
Qed.

Lemma page_errors_tags page_idx word_ops :
  Forall (λ op, word_operation op ∈ ["="; "D"; "I"; "S"]) word_ops →
  Forall (λ row, error_type row ∈ ["S"; "D"; "I"])
    (page_errors page_idx word_ops).
Proof.
  intros Hops. unfold page_errors. apply Forall_fmap.
  apply Forall_forall. intros op [Hne Hin]%list_elem_of_filter.
  apply (proj1 (Forall_forall _ _) Hops) in Hin. simpl.
  set_unfold. naive_solver.
Qed.

Lemma error_log_properties blocks :
  Forall (Forall (λ op, word_operation op ∈ ["="; "D"; "I"; "S"])) blocks →
  StronglySorted le (page <$> error_log blocks) ∧
  Forall (λ row, 1 ≤ page row ≤ length blocks) (error_log blocks) ∧
  Forall (λ row, error_type row ∈ ["S"; "D"; "I"]) (error_log blocks) ∧
  length (error_log blocks) = length (non_equal_blocks (concat blocks)).
Proof.
  induction blocks as [|wops blocks IH] using rev_ind; intros Hblocks.
  - repeat split; constructor.
  - apply Forall_app in Hblocks as [Hb Hw].
    rewrite Forall_singleton in Hw.
    destruct (IH Hb) as (Hsorted & Hpages & Htags & Hlen).
    rewrite error_log_snoc, length_app. simpl.
    pose proof (page_errors_page (length blocks) wops) as Hnew.
    split; [|split; [|split]].
    + rewrite fmap_app. apply StronglySorted_app_2; [|done|].
      * intros x1 x2 (r1 & -> & Hr1)%list_elem_of_fmap
          (r2 & -> & Hr2)%list_elem_of_fmap.
        apply (proj1 (Forall_forall _ _) Hpages) in Hr1.
        apply (proj1 (Forall_forall _ _) Hnew) in Hr2. lia.
      * clear -Hnew. induction Hnew as [|r rs Hr Hrs IHr]; [constructor|].
        simpl. constructor; [done|]. apply Forall_fmap.
        eapply Forall_impl; [exact Hrs|]. simpl. intros ? ->. lia.
    + apply Forall_app. split.
      * eapply Forall_impl; [exact Hpages|]. simpl. lia.
      * eapply Forall_impl; [exact Hnew|]. simpl. intros ? ->. lia.
    + apply Forall_app. split; [done|]. by apply page_errors_tags.
    + rewrite length_app, Hlen. unfold non_equal_blocks.
      rewrite concat_app, filter_app, length_app. simpl.
      rewrite app_nil_r. unfold page_errors. by rewrite length_fmap.
Qed.

Lemma word_aligned_tags pairs blocks :
  word_aligned pairs blocks →
  Forall (Forall (λ op, word_operation op ∈ ["="; "D"; "I"; "S"])) blocks.
Proof.
  induction 1 as [|p wops pairs blocks Hw _ IH]; constructor; [|done].
  destruct (word_align_ok (py_split p.1) (py_split p.2))
    as (ops & Hops & Hall).
  rewrite Hw in Hops. injection Hops as <-.
  eapply Forall_impl; [exact Hall|]. simpl.
  by intros op (rs & hs & _ & _ & _ & _ & _ & Htag & _).
Qed.

(** X21.  The error log is in page order, every row carries the tag "S",
    "D" or "I" of its block and never "=", and the log has one row for
    each block of the run that is not tagged "=". *)
Theorem X21_error_log_ordered_and_complete (ref_pages hyp_pages : list str) :
  ∃ (res : results) (blocks : list (list WordEditOp)),
    (analyze_page_lists ref_pages hyp_pages).2 = Some res ∧
    word_aligned (page_pairs ref_pages hyp_pages) blocks ∧
    StronglySorted le (page <$> res.1.2) ∧
    Forall (λ row, error_type row ∈ ["S"; "D"; "I"]) res.1.2 ∧
    length res.1.2 = length (non_equal_blocks (concat blocks)).
Proof.
  rewrite analyze_page_lists_pairs. simpl.
  destruct (process_pairs_characterised (page_pairs ref_pages hyp_pages))
    as (aligns & blocks & wres & res & Hres & _ & Hbl & _ & _ & _ & He).
  exists res, blocks. split; [done|]. split; [done|]. rewrite He.
  destruct (error_log_properties blocks (word_aligned_tags _ _ Hbl))
    as (? & _ & ? & ?).
  done.
Qed.

(** ** parse_pages *)

Lemma py_lstrip_spec s :
  ∃ w, s = w ++ py_lstrip s ∧ Forall (λ c, isspace c = true) w ∧
       ∀ c, head (py_lstrip s) = Some c → isspace c = false.
Proof.
  induction s as [|c s (w & Hs & Hw & Hhead)]; simpl.
  - exists []. by repeat split.
  - destruct (isspace c) eqn:Hc.
    + exists (c :: w). simpl. rewrite <- Hs. repeat split; try done.
      by constructor.
    + exists []. repeat split; try done. simpl. by intros ? [= <-].
Qed.

Lemma py_lstrip_fixed s :
  (∀ c, head s = Some c → isspace c = false) → py_lstrip s = s.
Proof.
  destruct s as [|c s]; simpl; [done|]. intros H. by rewrite (H c eq_refl).
Qed.

Lemma py_lstrip_nil s : py_lstrip s = [] ↔ Forall (λ c, isspace c = true) s.
Proof.
  induction s as [|c s IH]; simpl; [done|].
  destruct (isspace c) eqn:Hc.
  - rewrite IH. split; [by constructor|]. by intros [_ ?]%Forall_cons.
  - split; [done|]. intros [? _]%Forall_cons. congruence.
Qed.

Lemma head_reverse {A} (l : list A) : head (reverse l) = last l.
Proof.
  induction l as [|x l IH] using rev_ind; [done|].
  by rewrite reverse_snoc, last_snoc.
Qed.

Lemma last_reverse {A} (l : list A) : last (reverse l) = head l.
Proof. by rewrite <- head_reverse, reverse_involutive. Qed.

(** What [strip] returns neither starts nor ends with white space. *)
Lemma py_strip_ends s :
  (∀ c, head (py_strip s) = Some c → isspace c = false) ∧
  (∀ c, last (py_strip s) = Some c → isspace c = false).
Proof.
  unfold py_strip.
  destruct (py_lstrip_spec s) as (w1 & _ & _ & Hh1).
  destruct (py_lstrip_spec (reverse (py_lstrip s))) as (w2 & Hs2 & _ & Hh2).
  set (x := py_lstrip s) in *. set (y := py_lstrip (reverse x)) in *.
  split; intros c.
  - rewrite head_reverse. intros Hlast. apply Hh1.
    rewrite <- last_reverse, Hs2.
    destruct y as [|c0 y'] using rev_ind; [done|].
    rewrite app_assoc, last_snoc. by rewrite last_snoc in Hlast.
  - rewrite last_reverse. apply Hh2.
Qed.

Lemma py_strip_fixed s :
  (∀ c, head s = Some c → isspace c = false) →
  (∀ c, last s = Some c → isspace c = false) → py_strip s = s.
Proof.
  intros Hh Hl. unfold py_strip. rewrite (py_lstrip_fixed s Hh).
  rewrite py_lstrip_fixed; [apply reverse_involutive|].
  intros c. rewrite head_reverse. apply Hl.
Qed.

Lemma py_strip_idemp s : py_strip (py_strip s) = py_strip s.
Proof. destruct (py_strip_ends s). by apply py_strip_fixed. Qed.

Lemma py_strip_nil s : py_strip s = [] ↔ Forall (λ c, isspace c = true) s.
Proof.
  unfold py_strip. split.
  - intros H. apply (f_equal reverse) in H.
    rewrite reverse_involutive in H. change (reverse []) with (@nil char) in H.
    apply py_lstrip_nil in H. apply Forall_reverse in H.
    rewrite reverse_involutive in H.
    destruct (py_lstrip_spec s) as (w & Hs & Hw & Hhead).
    rewrite Hs. apply Forall_app. done.
  - intros H. apply py_lstrip_nil in H. by rewrite H.
Qed.

(** The first piece of a split starts with what was read so far. *)
Lemma re_split_from_first fuel r cur s :
  ∃ rest pieces, re_split_from fuel r cur s = (cur ++ rest) :: pieces.
Proof.
  revert cur s. induction fuel as [|fuel IH]; intros cur s.
  - by exists s, [].
  - rewrite re_split_from_S. destruct (re_match r s Some) as [s'|].
    + exists [], (re_split_from fuel r [] s'). by rewrite app_nil_r.
    + destruct s as [|c s].
      * exists [], []. by rewrite app_nil_r.
      * destruct (IH (cur ++ [c]) s) as (rest & pieces & ->).
        exists (c :: rest), pieces. by rewrite <- app_assoc.
Qed.

Lemma page_break_needs_newline c s :
  c ≠ newline → re_match page_break (c :: s) Some = None.
Proof. intros Hc. simpl. by rewrite !decide_False by done. Qed.

Lemma parse_pages_blank text :
  Forall (λ c, isspace c = true) text → parse_pages text = [].
Proof.
  intros Hblank. unfold parse_pages.
  by rewrite (proj2 (py_strip_nil text) Hblank).
Qed.

Lemma parse_pages_not_blank text :
  ¬ Forall (λ c, isspace c = true) text → parse_pages text ≠ [].
Proof.
  intros Hnb. unfold parse_pages.
  destruct (py_strip text) as [|c s] eqn:Hstrip.
  { by apply py_strip_nil in Hstrip. }
  destruct (py_strip_ends text) as [Hhead _]. rewrite Hstrip in Hhead.
  specialize (Hhead c eq_refl).
  unfold re_split. cbn [length]. rewrite Nat.add_1_r, re_split_from_S.
  rewrite page_break_needs_newline by (intros ->; done).
  destruct (re_split_from_first (S (length s)) page_break ([] ++ [c]) s)
    as (rest & pieces & ->).
  rewrite filter_cons, decide_True; [done|].
  intros Hnil%py_strip_nil. simpl in Hnil.
  apply Forall_cons in Hnil as [Hc _]. congruence.
Qed.

(** X22.  Every page [parse_pages] returns is non-empty and neither starts
    nor ends with white space, so stripping it again changes nothing; and
    no page at all is returned exactly when the text is blank. *)
Theorem X22_pages_stripped_and_non_empty (text : str) :
  Forall (λ p, p ≠ [] ∧ py_strip p = p ∧
               (∀ c, head p = Some c → isspace c = false) ∧
               (∀ c, last p = Some c → isspace c = false))
    (parse_pages text) ∧
  (parse_pages text = [] ↔ Forall (λ c, isspace c = true) text).
Proof.
  split.
  - unfold parse_pages. apply Forall_fmap, Forall_forall.
    intros q [Hq _]%list_elem_of_filter. simpl.
    destruct (py_strip_ends q). by rewrite py_strip_idemp.
  - split; [|apply parse_pages_blank].
    intros Hnil.
    destruct (decide (Forall (λ c, isspace c = true) text)) as [|Hnb];
      [done|].
    by apply parse_pages_not_blank in Hnb.
Qed.

(** X23.  When both files are there and one of them is blank, the
    orchestrator announces 0 pages and returns the empty statistics, the
    empty error log and the empty substitution table, as for a missing
    file but without an error message. *)
Theorem X23_blank_document_gives_empty_results
    (fs : filesystem) (ref_file hyp_file : string) (ref_text hyp_text : str) :
  fs ref_file = Some ref_text → fs hyp_file = Some hyp_text →
  Forall (λ c, isspace c = true) ref_text ∨
  Forall (λ c, isspace c = true) hyp_text →
  analyze_pages fs ref_file hyp_file =
  ([EvOpen ref_file; EvOpen hyp_file; EvPrint (MsgAnalysing 0)],
   Some (∅, [], ∅)).
Proof.
  intros Hr Hh Hblank.
  rewrite (analyze_pages_found fs ref_file hyp_file ref_text hyp_text Hr Hh).
  unfold analyze_page_lists.
  destruct Hblank as [Hb|Hb]; rewrite (parse_pages_blank _ Hb); simpl.
  - done.
  - by rewrite Nat.min_0_r.
Qed.

Lemma X23_witness :
  analyze_pages
    (λ path, if decide (path = "reference.txt") then Some (u "  ")
             else Some (u "ab cd"))
    "reference.txt" "hypothesis.txt" =
  ([EvOpen "reference.txt"; EvOpen "hypothesis.txt"; EvPrint (MsgAnalysing 0)],
   Some (∅, [], ∅)).
Proof.
  apply (X23_blank_document_gives_empty_results
           (λ path, if decide (path = "reference.txt") then Some (u "  ")
                    else Some (u "ab cd"))
           "reference.txt" "hypothesis.txt" (u "  ") (u "ab cd"));
    [reflexivity|reflexivity|].
  left. repeat constructor.
Defined.

(** ** save_outputs and main *)

Lemma insert_by_count_perm x l : insert_by_count x l ≡ₚ x :: l.
Proof.
  induction l as [|y l IH]; simpl; [done|].
  case_decide; [done|]. rewrite IH. apply Permutation_swap.
Qed.

Lemma insert_by_count_sorted x l :
  StronglySorted count_ge l → StronglySorted count_ge (insert_by_count x l).
Proof.
  induction 1 as [|y l Hl IH Hy]; simpl.
  - repeat constructor.
  - case_decide as Hlt.
    + constructor; [by constructor|]. constructor.
      * unfold count_ge. lia.
      * eapply Forall_impl; [exact Hy|]. unfold count_ge. simpl. lia.
    + constructor; [done|]. rewrite insert_by_count_perm.
      constructor; [unfold count_ge; lia|done].
Qed.

(** An entry goes behind the entries of its own count. *)
Lemma insert_by_count_stable x l c :
  StronglySorted count_ge l →
  filter (λ y, y.2 = c) (insert_by_count x l) =
  filter (λ y, y.2 = c) l ++ filter (λ y, y.2 = c) [x].
Proof.
  induction 1 as [|y l Hl IH Hy]; [done|].
  cbn [insert_by_count]. destruct (decide (y.2 < x.2)) as [Hlt|Hge].
  - rewrite (filter_cons _ x), (filter_cons _ x []), filter_nil.
    destruct (decide (x.2 = c)) as [Hx|Hx]; [|by rewrite app_nil_r].
    assert (filter (λ z : sub_item, z.2 = c) (y :: l) = []) as ->; [|done].
    rewrite filter_cons_False by lia.
    clear IH Hl. induction Hy as [|z l Hz Hy IH]; [done|].
    unfold count_ge in Hz. rewrite filter_cons_False by lia. done.
  - rewrite !(filter_cons _ y), IH. by destruct (decide (y.2 = c)).
Qed.

Lemma sorted_by_count_from acc items :
  StronglySorted count_ge acc →
  foldl (λ acc x, insert_by_count x acc) acc items ≡ₚ acc ++ items ∧
  StronglySorted count_ge (foldl (λ acc x, insert_by_count x acc) acc items) ∧
  ∀ c, filter (λ y, y.2 = c)
         (foldl (λ acc x, insert_by_count x acc) acc items) =
       filter (λ y, y.2 = c) acc ++ filter (λ y, y.2 = c) items.
Proof.
  revert acc. induction items as [|x items IH]; intros acc Hacc; simpl.
  - rewrite app_nil_r. repeat split; try done. intros c.
    by rewrite filter_nil, app_nil_r.
  - destruct (IH (insert_by_count x acc) (insert_by_count_sorted x acc Hacc))
      as (Hperm & Hsorted & Hstable).
    split; [|split; [done|]].
    + rewrite Hperm, insert_by_count_perm. simpl. apply Permutation_middle.
    + intros c. rewrite Hstable, insert_by_count_stable by done.
      rewrite <- app_assoc. f_equal.
      rewrite (filter_cons _ x items), (filter_cons _ x []), filter_nil.
      by destruct (decide (x.2 = c)).
Qed.

Lemma sorted_by_count_spec items :
  sorted_by_count items ≡ₚ items ∧
  StronglySorted count_ge (sorted_by_count items) ∧
  ∀ c, filter (λ y, y.2 = c) (sorted_by_count items) =
       filter (λ y, y.2 = c) items.
Proof.
  destruct (sorted_by_count_from [] items) as (H1 & H2 & H3); [constructor|].
  repeat split; try done.
Qed.

(** X24.  Whether or not there are substitution pairs, the substitution
    table is among the files [save_outputs] writes, under the header
    [ref_char, hyp_char, count, napomena].  When there are substitution
    pairs its rows are exactly the pairs, the most frequent first, pairs of
    equal count in the order of the dictionary; when there are none it
    holds the one row that says so. *)
Theorem X24_substitution_file_sorted
    (stats : gmap string nat) (errors : list error_row)
    (sub_items : list sub_item) (prefix : string) :
  ∃ rows,
    SaveWrite (prefix +:+ "_char_subs.csv") (CharSubsCsv subs_header rows)
      ∈ save_outputs stats errors sub_items prefix ∧
    (sub_items = [] → rows = [NoSubsRow]) ∧
    (sub_items ≠ [] →
     ∃ sorted, rows = subs_row_of <$> sorted ∧
       sorted ≡ₚ sub_items ∧
       StronglySorted count_ge sorted ∧
       ∀ c, filter (λ y, y.2 = c) sorted = filter (λ y, y.2 = c) sub_items).
Proof.
  eexists. split.
  - unfold save_outputs. rewrite !elem_of_app. right; right; left.
    apply list_elem_of_singleton. reflexivity.
  - split.
    + intros ->. by rewrite decide_False by auto.
    + intros Hne. rewrite decide_True by done.
      exists (sorted_by_count sub_items). split; [done|].
      apply sorted_by_count_spec.
Qed.

(** *** Running the plan of [save_outputs] on a disk *)



Lemma attempt_all (can_write : string → bool) (l : list save_event) :
  (∀ path content, SaveWrite path content ∈ l → can_write path = true) →
  attempt can_write l = (l, Some ()).
Proof.
  induction l as [|[path content|msg] l IH]; intros H; simpl.
  - done.
  - rewrite (H path content) by by left. rewrite IH; [done|].
    intros p c Hin. eapply H. by right.
  - rewrite IH; [done|]. intros p c Hin. eapply H. by right.
Qed.

Lemma main_save_events_shape (evs : list event) (so : list save_event)
    (tail : list main_event) :
  main_save_events tail = [] →
  main_save_events
    (MainPrintAnalyzing :: (MainAnalyze <$> evs) ++ (MainSave <$> so)
     ++ tail) = so.
Proof.
  intros Htail. unfold main_save_events in *. cbn [omap list_omap].
  induction evs as [|e evs IH]; [|exact IH].
  induction so as [|x so IH]; [exact Htail|].
  cbn [fmap list_fmap app omap list_omap]. f_equal. exact IH.
Qed.

(** The page loop never raises: when the files are read or not found,
    [analyze_pages] returns. *)
Lemma analyze_pages_returns (fs : filesystem) (reference hypothesis : string) :
  ∃ evs res, analyze_pages fs reference hypothesis = (evs, Some res).
Proof.
  unfold analyze_pages. destruct (read_inputs _ _ _) as [evs [[r h]|m]].
  - unfold analyze_texts. rewrite analyze_page_lists_pairs.
    destruct (process_pairs_characterised
                (page_pairs (parse_pages r) (parse_pages h)))
      as (_ & _ & _ & res & -> & _).
    by eexists _, _.
  - by eexists _, _.
Qed.



(** When every file of the plan can be opened, all of it happens. *)
Lemma main_ok (dict_items : gmap (str * str) nat → list sub_item)
    (d : disk) (reference hypothesis prefix : string) :
  read_raises d reference hypothesis = None →
  (∀ res, (analyze_pages (found d) reference hypothesis).2 = Some res →
     ∀ path content,
       SaveWrite path content
         ∈ save_outputs res.1.1 res.1.2 (dict_items res.2) prefix →
       disk_can_write d path = true) →
  ∃ evs res,
    (analyze_pages (found d) reference hypothesis).2 = Some res ∧
    main dict_items d reference hypothesis prefix = (evs, Some ()) ∧
    main_save_events evs =
      save_outputs res.1.1 res.1.2 (dict_items res.2) prefix ∧
    last evs = Some (MainPrintSaved prefix).
Proof.
  intros Hread Hwrite. unfold main. rewrite Hread.
  destruct (analyze_pages_returns (found d) reference hypothesis)
    as (evs & [[stats errors] subs] & Hres).
  rewrite Hres in Hwrite |- *. specialize (Hwrite _ eq_refl).
  cbn [fst snd] in Hwrite. rewrite (attempt_all _ _ Hwrite).
  eexists _, (stats, errors, subs). split; [done|]. split; [done|].
  cbn [fst snd]. split.
  - by apply main_save_events_shape.
  - rewrite app_comm_cons, !app_assoc. by rewrite last_app.
Qed.

Lemma save_outputs_paths (stats : gmap string nat) (errors : list error_row)
    (sub_items : list sub_item) (prefix path : string)
    (content : file_content) :
  SaveWrite path content ∈ save_outputs stats errors sub_items prefix →
  path = prefix +:+ "_stats.json" ∨
  (path = prefix +:+ "_errors.csv" ∧ errors ≠ []) ∨
  path = prefix +:+ "_char_subs.csv".
Proof.
  unfold save_outputs. rewrite !elem_of_app, !list_elem_of_singleton.
  intros [[= -> _]|[Hin|[[= -> _]|[=]]]]; [by left| |by right; right].
  case_decide as He.
  - apply list_elem_of_singleton in Hin as [= -> _]. right; left. done.
  - by apply list_elem_of_singleton in Hin.
Qed.



Lemma lists_entries_empty (dict_items : gmap (str * str) nat → list sub_item) :
  lists_entries dict_items → dict_items ∅ = [].
Proof.
  intros H. apply Permutation_nil_r. rewrite (H ∅). by rewrite map_to_list_empty.
Qed.

Lemma lists_entries_total (dict_items : gmap (str * str) nat → list sub_item)
    (d : gmap (str * str) nat) :
  lists_entries dict_items →
  sum_list_with snd (dict_items d) = counter_total d.
Proof.
  intros H. rewrite (H d). unfold counter_total. rewrite map_fold_foldr.
  induction (map_to_list d) as [|[k v] l IH]; [done|]. simpl. by rewrite IH.
Qed.

Lemma lists_entries_nil (dict_items : gmap (str * str) nat → list sub_item)
    (d : gmap (str * str) nat) :
  lists_entries dict_items → dict_items d = [] → d = ∅.
Proof.
  intros H Hd. apply map_to_list_empty_iff. apply Permutation_nil_r.
  by rewrite <- (H d), Hd.
Qed.

Lemma analyze_pages_substitutions (fs : filesystem)
    (reference hypothesis : string) (res : results) :
  (analyze_pages fs reference hypothesis).2 = Some res →
  counter_total res.2 = get0 res.1.1 ErrorType.CHAR_SUB ∧
  positive_counts res.2.
Proof.
  unfold analyze_pages. destruct (read_inputs _ _ _) as [evs [[r h]|m]].
  - unfold analyze_texts. rewrite analyze_page_lists_pairs. simpl.
    destruct (process_pairs_characterised
                (page_pairs (parse_pages r) (parse_pages h)))
      as (aligns & blocks & wres & res' & Hres & _ & _ & Hw & Hs & Hp & _).
    rewrite Hres. intros [= <-]. rewrite Hs, Hp, get0_add_counts.
    destruct (classify_char_errors_invariant (concat aligns))
      as (_ & Hpos & _ & Ht).
    destruct (classify_word_errors_invariant (concat blocks))
      as (stats & examples & Hw' & _ & Hkeys & _).
    rewrite Hw in Hw'. injection Hw' as ->.
    split; [|done]. rewrite Ht. simpl.
    assert (get0 stats ErrorType.CHAR_SUB = 0) as ->; [|lia].
    unfold get0. rewrite Hkeys; [done|].
    unfold word_keys, example_keys. set_unfold. intros H.
    repeat destruct H as [H|H]; done.
  - simpl. intros [= <-]. simpl. split.
    + by rewrite counter_total_empty, get0_empty.
    + apply positive_counts_empty.
Qed.

(** X26.  When no read raises and the three output files can be opened,
    the run ends normally and the files it leaves agree: the statistics
    come first and the substitution table last, and the counts of the
    table's rows add up to the [char_substitution] counter of the
    statistics.  The row that stands for an empty table is written exactly
    when that counter is 0; otherwise every row is a pair with a positive
    count. *)
Theorem X26_run_reports_agree
    (dict_items : gmap (str * str) nat → list sub_item) (d : disk)
    (reference hypothesis output_prefix : string) :
  lists_entries dict_items →
  read_raises d reference hypothesis = None →
  disk_can_write d (output_prefix +:+ "_stats.json") = true →
  disk_can_write d (output_prefix +:+ "_errors.csv") = true →
  disk_can_write d (output_prefix +:+ "_char_subs.csv") = true →
  ∃ evs stats rows,
    main dict_items d reference hypothesis output_prefix = (evs, Some ()) ∧
    head (main_saved evs) =
      Some (output_prefix +:+ "_stats.json",
            StatsJson stats (total_chars_ref stats) (total_chars_hyp stats)) ∧
    last (main_saved evs) =
      Some (output_prefix +:+ "_char_subs.csv", CharSubsCsv subs_header rows) ∧
    sum_list_with row_count rows = get0 stats "char_substitution" ∧
    (get0 stats "char_substitution" = 0 ↔ rows = [NoSubsRow]) ∧
    (0 < get0 stats "char_substitution" →
     Forall (λ r, ∃ ref_c hyp_c count,
                    r = SubsRow ref_c hyp_c count ∧ 0 < count) rows).
Proof.
  intros Hitems Hread Hw1 Hw2 Hw3.
  destruct (main_ok dict_items d reference hypothesis output_prefix Hread)
    as (evs & [[stats errors] subs] & Hres & Hmain & Hsaved & _).
  { intros res _ path content Hin.
    apply save_outputs_paths in Hin as [->|[[-> _]| ->]]; done. }
  destruct (analyze_pages_substitutions _ _ _ _ Hres) as [Htot Hpos].
  simpl in Htot, Hpos, Hsaved.
  unfold ErrorType.CHAR_SUB in Htot.
  exists evs, stats. eexists. split; [done|]. rewrite <- Htot.
  unfold main_saved. rewrite Hsaved. unfold save_outputs.
  split; [done|]. split.
  { by destruct (decide (errors ≠ [])). }
  destruct (sorted_by_count_spec (dict_items subs)) as (Hperm & _ & _).
  assert (Forall (λ x : sub_item, 0 < x.2) (dict_items subs)) as Hall.
  { apply Forall_forall. intros [k v] Hin. rewrite (Hitems subs) in Hin.
    apply elem_of_map_to_list in Hin. by apply Hpos in Hin. }
  destruct (decide (dict_items subs ≠ [])) as [Hne|He].
  - assert (sum_list_with row_count
              (subs_row_of <$> sorted_by_count (dict_items subs)) =
            counter_total subs) as Hsum.
    { rewrite <- (lists_entries_total dict_items subs Hitems).
      transitivity (sum_list_with snd (sorted_by_count (dict_items subs)));
        [|by rewrite Hperm].
      generalize (sorted_by_count (dict_items subs)).
      intros l. induction l as [|x l IH]; [done|].
      simpl. f_equal. exact IH. }
    rewrite <- Hperm in Hall.
    assert (0 < counter_total subs) as Hgt.
    { rewrite <- Hsum.
      destruct (sorted_by_count (dict_items subs)) as [|x l] eqn:Hs.
      - by apply Permutation_nil_l in Hperm.
      - apply Forall_cons in Hall as [Hx _]. simpl. lia. }
    split; [done|]. split; [split|].
    + lia.
    + intros Hrows. exfalso.
      destruct (sorted_by_count (dict_items subs)) as [|x l];
        [simpl in Hsum; lia|].
      apply Forall_cons in Hall as [Hx _].
      destruct x as [[r h] c]. discriminate Hrows.
    + intros _. apply Forall_fmap. eapply Forall_impl; [exact Hall|].
      intros [[r h] c] Hc. by exists r, h, c.
  - apply dec_stable in He.
    rewrite (lists_entries_nil dict_items subs Hitems He).
    change (counter_total (∅ : gmap (str * str) nat)) with 0.
    split; [done|]. split; [done|]. intros Hlt. lia.
Qed.

Lemma X26_witness :
  ∃ evs stats rows,
    main map_to_list
      (mkDisk (λ path, if decide (path = "ref.txt") then ReadText (u "kot")
                       else ReadText (u "kod"))
              (λ _, true))
      "ref.txt" "hyp.txt" "out" = (evs, Some ()) ∧
    head (main_saved evs) =
      Some ("out" +:+ "_stats.json",
            StatsJson stats (total_chars_ref stats) (total_chars_hyp stats)) ∧
    last (main_saved evs) =
      Some ("out" +:+ "_char_subs.csv", CharSubsCsv subs_header rows) ∧
    sum_list_with row_count rows = get0 stats "char_substitution" ∧
    (get0 stats "char_substitution" = 0 ↔ rows = [NoSubsRow]) ∧
    (0 < get0 stats "char_substitution" →
     Forall (λ r, ∃ ref_c hyp_c count,
                    r = SubsRow ref_c hyp_c count ∧ 0 < count) rows).
Proof.
  apply (X26_run_reports_agree map_to_list
           (mkDisk (λ path, if decide (path = "ref.txt")
                            then ReadText (u "kot") else ReadText (u "kod"))
                   (λ _, true))
           "ref.txt" "hyp.txt" "out").
  - intros m. reflexivity.
  - reflexivity.
  - reflexivity.
  - reflexivity.
  - reflexivity.
Defined.

(** X27.  When an input file is not found, [analyze_pages] returns empty
    results and the program still writes its report, if the two files of
    the report can be opened: the statistics with no counter and both
    totals 0, and the substitution table with only the row for an empty
    table.  It writes no error log, says that there is nothing to log and
    ends normally.  The reference is found missing before the hypothesis
    is opened; the hypothesis only after the reference was read. *)
Theorem X27_missing_input_still_reported
    (dict_items : gmap (str * str) nat → list sub_item) (d : disk)
    (reference hypothesis output_prefix : string) :
  lists_entries dict_items →
  disk_read d reference = ReadNotFound ∨
  ((∃ text, disk_read d reference = ReadText text) ∧
   disk_read d hypothesis = ReadNotFound) →
  disk_can_write d (output_prefix +:+ "_stats.json") = true →
  disk_can_write d (output_prefix +:+ "_char_subs.csv") = true →
  ∃ evs,
    main dict_items d reference hypothesis output_prefix = (evs, Some ()) ∧
    main_saved evs =
      [(output_prefix +:+ "_stats.json", StatsJson ∅ 0 0);
       (output_prefix +:+ "_char_subs.csv",
        CharSubsCsv ["ref_char"; "hyp_char"; "count"; "napomena"]
          [NoSubsRow])] ∧
    SavePrint MsgNoWordErrors ∈ main_save_events evs ∧
    last evs = Some (MainPrintSaved output_prefix).
Proof.
  intros Hitems Hmiss Hw1 Hw3.
  assert (read_raises d reference hypothesis = None) as Hread.
  { unfold read_raises. destruct Hmiss as [->|[[text ->] ->]]; done. }
  assert ((analyze_pages (found d) reference hypothesis).2 = Some (∅, [], ∅))
    as Hres.
  { unfold analyze_pages, read_inputs, found.
    destruct Hmiss as [->|[[text ->] ->]]; done. }
  destruct (main_ok dict_items d reference hypothesis output_prefix Hread)
    as (evs & res & Hres' & Hmain & Hsaved & Hlast).
  { intros res. rewrite Hres. intros [= <-] path content Hin.
    apply save_outputs_paths in Hin as [->|[[_ Hne]| ->]]; done. }
  rewrite Hres in Hres'. injection Hres' as <-.
  exists evs. split; [done|]. split; [|split; [|done]].
  - unfold main_saved. rewrite Hsaved. simpl.
    by rewrite (lists_entries_empty _ Hitems).
  - rewrite Hsaved. unfold save_outputs. simpl. set_solver.
Qed.

Lemma X27_witness :
  ∃ evs,
    main map_to_list
      (mkDisk (λ path, if decide (path = "ref.txt") then ReadText (u "kot")
                       else ReadNotFound)
              (λ _, true))
      "ref.txt" "hyp.txt" "out" = (evs, Some ()) ∧
    main_saved evs =
      [("out" +:+ "_stats.json", StatsJson ∅ 0 0);
       ("out" +:+ "_char_subs.csv",
        CharSubsCsv ["ref_char"; "hyp_char"; "count"; "napomena"]
          [NoSubsRow])] ∧
    SavePrint MsgNoWordErrors ∈ main_save_events evs ∧
    last evs = Some (MainPrintSaved "out").
Proof.
  apply (X27_missing_input_still_reported map_to_list
           (mkDisk (λ path, if decide (path = "ref.txt")
                            then ReadText (u "kot") else ReadNotFound)
                   (λ _, true))
           "ref.txt" "hyp.txt" "out").
  - intros m. reflexivity.
  - right. split; [by exists (u "kot")|reflexivity].
  - reflexivity.
  - reflexivity.
Defined.

(** ** The matcher finds matches *)

Lemma chain_b_ok (b : str) : b2j_ok b (difflib.chain_b b).
Proof.
  assert (∀ (l : list (nat * char)) (b2j : gmap char (list nat)),
    Forall (λ p, b !! p.1 = Some p.2) l → b2j_ok b b2j →
    b2j_ok b (foldl (λ (b2j : gmap char (list nat)) '(i, elt),
                       <[elt := default [] (b2j !! elt) ++ [i]]> b2j)
                b2j l)) as Hfold.
  { induction l as [|[i elt] l IH]; intros b2j Hl Hb; simpl; [done|].
    apply Forall_cons in Hl as [Hi Hl]. apply IH; [done|].
    intros c js j. rewrite lookup_insert. case_decide as Hc.
    - subst c. intros [= <-]. rewrite elem_of_app, list_elem_of_singleton.
      intros [Hj| ->]; [|done].
      destruct (b2j !! elt) as [js0|] eqn:Hjs; simpl in Hj.
      + by eapply Hb.
      + by apply elem_of_nil in Hj.
    - apply Hb. }
  assert (b2j_ok b
    (foldl (λ (b2j : gmap char (list nat)) '(i, elt),
              <[elt := default [] (b2j !! elt) ++ [i]]> b2j)
       ∅ (enumerate b))) as Hall.
  { apply Hfold.
    - apply Forall_forall. intros [i elt] [k Hk]%list_elem_of_lookup.
      apply enumerate_lookup in Hk as [-> Hk]. done.
    - intros c js j. by rewrite lookup_empty. }
  unfold difflib.chain_b. case_decide; [|done].
  intros c js j [Hc _]%map_lookup_filter_Some. by apply Hall.
Qed.

Ltac reindex i j :=
  match goal with
  | |- ?a !! ?x = ?b !! ?y =>
      replace x with i by lia; replace y with j by lia
  end.

Section matches.
Variables a b : str.
Variable b2j : gmap char (list nat).
Hypothesis Hb2j : b2j_ok b b2j.

Lemma flm_inner_matches blo bhi i ai j2len js newj2len best :
  a !! i = Some ai →
  Forall (λ j, b !! j = Some ai) js →
  j2len_matches a b i j2len →
  j2len_matches a b (S i) newj2len →
  block_matches a b best →
  j2len_matches a b (S i)
    (difflib.flm_inner blo bhi i j2len js newj2len best).1 ∧
  block_matches a b
    (difflib.flm_inner blo bhi i j2len js newj2len best).2.
Proof.
  intros Hai Hjs Hold. revert newj2len best Hjs.
  induction js as [|j js IH]; intros newj2len best Hjs Hnew Hbest; simpl.
  - done.
  - apply Forall_cons in Hjs as [Hj Hjs].
    case_decide as Hlo; [by apply IH|].
    case_decide as Hhi; [done|].
    set (k := default 0 (j2len !! (Z.of_nat j - 1)%Z) + 1).
    assert (k ≤ S i ∧ k ≤ j + 1 ∧
            ∀ s, s < k → a !! (S i - 1 - s) = b !! (j - s)) as (Hk1 & Hk2 & Hk).
    { unfold k. destruct (j2len !! (Z.of_nat j - 1)%Z) as [v|] eqn:Hv; simpl.
      - destruct (Hold _ _ Hv) as (j' & Hj' & Hv1 & Hv2 & Hm).
        assert (j = S j') as -> by lia.
        split; [lia|]. split; [lia|]. intros [|s] Hs.
        + reindex i (S j'). by rewrite Hai, Hj.
        + reindex (i - 1 - s) (j' - s). apply Hm. lia.
      - split; [lia|]. split; [lia|]. intros s Hs.
        assert (s = 0) as -> by lia.
        reindex i j. by rewrite Hai, Hj. }
    apply IH; [done| |].
    + intros key v. rewrite lookup_insert. case_decide as Hkey.
      * intros [= <-]. exists j. done.
      * apply Hnew.
    + case_decide; [|done]. simpl. intros t Ht.
      reindex (S i - 1 - (k - 1 - t)) (j - (k - 1 - t)). apply Hk. lia.
Qed.

Lemma flm_loop_matches alo ahi blo bhi :
  alo ≤ ahi → ahi ≤ length a →
  ∃ j2len best,
    for_loop (range alo ahi) (difflib.flm_outer a b2j blo bhi)
      (∅, (alo, blo, 0)) = Some (j2len, best) ∧
    block_matches a b best.
Proof.
  intros Ha Hla.
  destruct (for_loop_inv
    (λ t (st : gmap Z nat * difflib.Match),
       j2len_matches a b (alo + t) st.1 ∧ block_matches a b st.2)
    (range alo ahi) (difflib.flm_outer a b2j blo bhi) (∅, (alo, blo, 0)))
    as ([j2len best] & Hloop & _ & Hbest).
  - split; [|simpl; intros t Ht; lia]. simpl. intros key v.
    by rewrite lookup_empty.
  - intros t x [j2len best] [-> Hlt]%range_lookup [Hj Hbest].
    simpl in Hj, Hbest. unfold difflib.flm_outer.
    rewrite py_get_nat.
    destruct (lookup_lt_is_Some_2 a (alo + t)) as [ai Hai]; [lia|].
    rewrite Hai. simpl.
    eexists. split; [done|].
    replace (alo + S t) with (S (alo + t)) by lia.
    apply (flm_inner_matches blo bhi (alo + t) ai); try done.
    apply Forall_forall. intros j Hin.
    destruct (b2j !! ai) as [js|] eqn:Hjs; simpl in Hin.
    + by eapply Hb2j.
    + by apply elem_of_nil in Hin.
  - by exists j2len, best.
Qed.

Lemma block_matches_left bi bj bs :
  a !! bi = b !! bj → block_matches a b (S bi, S bj, bs) →
  block_matches a b (bi, bj, bs + 1).
Proof.
  intros H0 Hm [|t] Ht.
  - by rewrite !Nat.add_0_r.
  - replace (bi + S t) with (S bi + t) by lia.
    replace (bj + S t) with (S bj + t) by lia. apply Hm. lia.
Qed.

Lemma block_matches_right bi bj bs :
  a !! (bi + bs) = b !! (bj + bs) → block_matches a b (bi, bj, bs) →
  block_matches a b (bi, bj, bs + 1).
Proof.
  intros H0 Hm t Ht. destruct (decide (t = bs)) as [->|Hne]; [done|].
  apply Hm. lia.
Qed.

Lemma extend_left_matches fuel junk alo blo best best' :
  difflib.extend_left fuel junk a b alo blo best = Some best' →
  block_matches a b best → block_matches a b best'.
Proof.
  revert best.
  induction fuel as [|fuel IH]; intros [[bi bj] bs]; simpl;
    (destruct (decide (alo < bi)) as [Hi|Hi];
      [rewrite bool_decide_true by done|
       rewrite bool_decide_false by done; simpl; by intros [= <-]]);
    simpl;
    (destruct (decide (blo < bj)) as [Hj|Hj];
      [rewrite bool_decide_true by done|
       rewrite bool_decide_false by done; simpl; by intros [= <-]]);
    simpl;
    (destruct bi as [|bi]; [lia|]); (destruct bj as [|bj]; [lia|]);
    rewrite !py_get_pred;
    (destruct (lookup (M := list char) bj b) as [y|] eqn:Hy; simpl; [|done]);
    (destruct (bool_decide (difflib.isbjunk y = junk)); simpl;
      [|by intros [= <-]]);
    (destruct (lookup (M := list char) bi a) as [x|] eqn:Hx; simpl; [|done]);
    (destruct (bool_decide (x = y)) eqn:Hxy; simpl; [|by intros [= <-]]).
  - done.
  - apply bool_decide_eq_true in Hxy. subst y.
    rewrite !Nat.sub_0_r. intros Hext Hm. apply (IH _ Hext).
    apply block_matches_left; [exact (eq_trans Hx (eq_sym Hy))|done].
Qed.

Lemma extend_right_matches fuel junk ahi bhi best best' :
  difflib.extend_right fuel junk a b ahi bhi best = Some best' →
  block_matches a b best → block_matches a b best'.
Proof.
  revert best.
  induction fuel as [|fuel IH]; intros [[bi bj] bs]; simpl;
    (destruct (decide (bi + bs < ahi)) as [Hi|Hi];
      [rewrite bool_decide_true by done|
       rewrite bool_decide_false by done; simpl; by intros [= <-]]);
    simpl;
    (destruct (decide (bj + bs < bhi)) as [Hj|Hj];
      [rewrite bool_decide_true by done|
       rewrite bool_decide_false by done; simpl; by intros [= <-]]);
    simpl; rewrite !py_get_nat;
    (destruct (lookup (M := list char) (bj + bs) b) as [y|] eqn:Hy; simpl;
      [|done]);
    (destruct (bool_decide (difflib.isbjunk y = junk)); simpl;
      [|by intros [= <-]]);
    (destruct (lookup (M := list char) (bi + bs) a) as [x|] eqn:Hx; simpl;
      [|done]);
    (destruct (bool_decide (x = y)) eqn:Hxy; simpl; [|by intros [= <-]]).
  - done.
  - apply bool_decide_eq_true in Hxy. subst y.
    intros Hext Hm. apply (IH _ Hext).
    apply block_matches_right; [exact (eq_trans Hx (eq_sym Hy))|done].
Qed.

(** What [find_longest_match] returns is a match. *)
Lemma find_longest_match_matches alo ahi blo bhi blk :
  alo ≤ ahi → ahi ≤ length a →
  difflib.find_longest_match a b b2j alo ahi blo bhi = Some blk →
  block_matches a b blk.
Proof.
  intros Ha Hla. unfold difflib.find_longest_match.
  destruct (flm_loop_matches alo ahi blo bhi) as (j2len & b0 & -> & H0);
    [done..|]. simpl.
  destruct (difflib.extend_left _ false _ _ _ _ b0) as [b1|] eqn:E1;
    simpl; [|done].
  destruct (difflib.extend_right _ false _ _ _ _ b1) as [b2|] eqn:E2;
    simpl; [|done].
  destruct (difflib.extend_left _ true _ _ _ _ b2) as [b3|] eqn:E3;
    simpl; [|done].
  intros E4.
  eapply extend_right_matches; [exact E4|].
  eapply extend_left_matches; [exact E3|].
  eapply extend_right_matches; [exact E2|].
  eapply extend_left_matches; [exact E1|]. done.
Qed.
End matches.

(** ** The matching blocks lie one after the other *)

Lemma apart_sym (w1 w2 : window) : apart w1 w2 → apart w2 w1.
Proof. unfold apart. tauto. Qed.

Lemma apart_in (w w' x : window) : window_in w' w → apart w x → apart w' x.
Proof. unfold window_in, apart, window_before. lia. Qed.

Lemma Forall_apart_in (w w' : window) (l : list window) :
  window_in w' w → Forall (apart w) l → Forall (apart w') l.
Proof.
  intros Hin H. eapply Forall_impl; [exact H|]. intros x. by apply apart_in.
Qed.

Lemma all_apart_snoc (l : list window) (x : window) :
  all_apart (l ++ [x]) ↔ Forall (λ y, apart y x) l ∧ all_apart l.
Proof.
  induction l as [|y l IH]; simpl.
  - split; [done|]. intros _. split; [constructor|done].
  - rewrite IH, Forall_app, Forall_singleton, Forall_cons. tauto.
Qed.

Lemma all_apart_perm (l1 l2 : list window) :
  l1 ≡ₚ l2 → all_apart l1 → all_apart l2.
Proof.
  induction 1 as [|x l1 l2 Hp IH|x y l|l1 l2 l3 _ IH1 _ IH2]; simpl.
  - done.
  - intros [Hx Hl]. split; [by rewrite <- Hp|by apply IH].
  - intros [[Hyx Hy]%Forall_cons [Hx Hl]].
    split; [|done]. apply Forall_cons. split; [by apply apart_sym|done].
  - auto.
Qed.

#[local] Instance Match_le_trans : Transitive difflib.Match_le.
Proof.
  intros [[i1 j1] k1] [[i2 j2] k2] [[i3 j3] k3]. simpl. lia.
Qed.

#[local] Instance Match_le_total : Total difflib.Match_le.
Proof.
  intros [[i1 j1] k1] [[i2 j2] k2]. simpl. lia.
Qed.

(** Blocks that are apart, put in the order of tuples, follow one
    another in [a] and in [b]. *)
Lemma sorted_chain (l : list difflib.Match) :
  StronglySorted difflib.Match_le l →
  all_apart (window_of <$> l) →
  Forall (λ blk, blk.2 ≠ 0) l →
  StronglySorted block_before l.
Proof.
  induction l as [|x l IH]; [constructor|].
  rewrite StronglySorted_cons, fmap_cons. simpl.
  intros [Hle Hs] [Hap Hall] [Hx Hnz]%Forall_cons.
  constructor; [by apply IH|].
  rewrite Forall_fmap in Hap.
  apply Forall_forall. intros y Hy.
  rewrite Forall_forall in Hle, Hap, Hnz.
  specialize (Hle y Hy). specialize (Hap y Hy). specialize (Hnz y Hy).
  destruct x as [[i1 j1] k1], y as [[i2 j2] k2].
  unfold block_before. unfold apart, window_before, window_of in Hap.
  simpl in *. lia.
Qed.

Section blocks.
Variables a b : str.
Variable b2j : gmap char (list nat).
Hypothesis Hb2j : b2j_ok b b2j.

(** The blocks the queue loop collects are matches of one element or
    more, and no two of them overlap or cross. *)
Lemma gmb_loop_sound fuel queue blocks blocks' :
  Forall (window_ok (length a) (length b)) queue →
  all_apart (queue ++ (window_of <$> blocks)) →
  Forall (λ blk, blk.2 ≠ 0) blocks →
  Forall (block_matches a b) blocks →
  difflib.gmb_loop fuel a b b2j queue blocks = Some blocks' →
  all_apart (window_of <$> blocks') ∧
  Forall (λ blk, blk.2 ≠ 0) blocks' ∧
  Forall (block_matches a b) blocks'.
Proof.
  revert queue blocks.
  induction fuel as [|fuel IH]; intros queue blocks Hq Hap Hnz Hm;
    (destruct queue as [|[[[alo ahi] blo] bhi] queue]; simpl;
      [by intros [= <-]|]); [done|].
  apply Forall_cons in Hq as [Hw0 Hq].
  destruct (find_longest_match_ok a b b2j alo ahi blo bhi Hw0)
    as ([[i j] k] & Hflm & Hin).
  pose proof Hw0 as (Ha & Hla & Hb' & Hlb). simpl in Hin.
  pose proof (find_longest_match_matches a b b2j Hb2j alo ahi blo bhi
                _ Ha Hla Hflm) as Hblk.
  rewrite Hflm. simpl.
  destruct Hap as [HW Hrest].
  case_decide as Hk; [|by apply IH].
  assert (window_in (alo, i, blo, j) (alo, ahi, blo, bhi)) as Hin1
    by (unfold window_in; simpl; lia).
  assert (window_in (i + k, ahi, j + k, bhi) (alo, ahi, blo, bhi)) as Hin2
    by (unfold window_in; simpl; lia).
  assert (window_in (window_of (i, j, k)) (alo, ahi, blo, bhi)) as Hin3
    by (unfold window_in, window_of; simpl; lia).
  assert (apart (alo, i, blo, j) (window_of (i, j, k))) as H1B
    by (unfold apart, window_before, window_of; simpl; lia).
  assert (apart (i + k, ahi, j + k, bhi) (window_of (i, j, k))) as H2B
    by (unfold apart, window_before, window_of; simpl; lia).
  assert (apart (i + k, ahi, j + k, bhi) (alo, i, blo, j)) as H21
    by (unfold apart, window_before; simpl; lia).
  pose proof (Forall_apart_in _ _ _ Hin1 HW) as HW1.
  pose proof (Forall_apart_in _ _ _ Hin2 HW) as HW2.
  assert (Forall (λ y, apart y (window_of (i, j, k)))
            (queue ++ (window_of <$> blocks))) as HWB.
  { eapply Forall_impl; [exact (Forall_apart_in _ _ _ Hin3 HW)|].
    intros y. apply apart_sym. }
  apply IH.
  - destruct (decide (alo < i ∧ blo < j));
      destruct (decide (i + k < ahi ∧ j + k < bhi));
      repeat (apply Forall_cons_2; [simpl; lia|]); assumption.
  - rewrite fmap_app, app_assoc. apply all_apart_snoc.
    destruct (decide (alo < i ∧ blo < j));
      destruct (decide (i + k < ahi ∧ j + k < bhi)); simpl;
      repeat split; repeat (apply Forall_cons_2; [assumption|]);
      assumption.
  - apply Forall_app. split; [done|]. by apply Forall_singleton.
  - apply Forall_app. split; [done|]. by apply Forall_singleton.
Qed.
End blocks.

Lemma block_matches_join a b i1 j1 k1 k2 :
  block_matches a b (i1, j1, k1) →
  block_matches a b (i1 + k1, j1 + k1, k2) →
  block_matches a b (i1, j1, k1 + k2).
Proof.
  intros H1 H2 t Ht. destruct (decide (t < k1)) as [Hlt|Hge].
  - by apply H1.
  - reindex (i1 + k1 + (t - k1)) (j1 + k1 + (t - k1)). apply H2. lia.
Qed.

Lemma collapse_step_sound a b st blk rest :
  StronglySorted block_before (st.2 ++ st.1 :: blk :: rest) →
  block_matches a b st.1 → Forall (block_matches a b) st.2 →
  block_matches a b blk →
  StronglySorted block_before
    ((difflib.collapse_step st blk).2
     ++ (difflib.collapse_step st blk).1 :: rest) ∧
  block_matches a b (difflib.collapse_step st blk).1 ∧
  Forall (block_matches a b) (difflib.collapse_step st blk).2.
Proof.
  destruct st as [[[i1 j1] k1] na], blk as [[i2 j2] k2]. simpl.
  intros Hs Hcur Hna Hblk.
  case_decide as Hadj; simpl.
  - destruct Hadj as [<- <-]. split; [|split; [|done]].
    + apply StronglySorted_app in Hs as (Hcross & Hsna & Hs).
      apply StronglySorted_cons in Hs as [Hc Hs].
      apply Forall_cons in Hc as [_ Hc].
      apply StronglySorted_cons in Hs as [Hb Hs].
      apply StronglySorted_app. split; [|split; [done|]].
      * intros x1 x2 H1 [->|H2]%elem_of_cons.
        -- specialize (Hcross x1 (i1, j1, k1) H1 ltac:(left)).
           unfold block_before in *. simpl in *. lia.
        -- apply Hcross; [done|]. by do 2 right.
      * constructor; [done|]. eapply Forall_impl; [exact Hb|].
        intros y. unfold block_before. simpl. lia.
    + by apply block_matches_join.
  - split; [|split; [done|]].
    + case_decide.
      * by rewrite <- app_assoc.
      * apply StronglySorted_app in Hs as (Hcross & Hsna & Hs).
        apply StronglySorted_cons in Hs as [_ Hs].
        apply StronglySorted_app. split; [|done].
        intros x1 x2 H1 H2. apply Hcross; [done|]. by right.
    + case_decide; [|done]. apply Forall_app. split; [done|].
      by apply Forall_singleton.
Qed.

Lemma collapse_sound a b blocks st :
  StronglySorted block_before (st.2 ++ st.1 :: blocks) →
  block_matches a b st.1 → Forall (block_matches a b) st.2 →
  Forall (block_matches a b) blocks →
  StronglySorted block_before
    ((foldl difflib.collapse_step st blocks).2
     ++ [(foldl difflib.collapse_step st blocks).1]) ∧
  block_matches a b (foldl difflib.collapse_step st blocks).1 ∧
  Forall (block_matches a b) (foldl difflib.collapse_step st blocks).2.
Proof.
  revert st. induction blocks as [|blk blocks IH];
    intros st Hs Hcur Hna Hb; simpl.
  - done.
  - apply Forall_cons in Hb as [Hblk Hb].
    destruct (collapse_step_sound a b st blk blocks Hs Hcur Hna Hblk)
      as (? & ? & ?).
    by apply IH.
Qed.

(** [get_matching_blocks] returns matches that follow one another in [a]
    and in [b], and after them the block of length 0 at the two ends. *)
Lemma get_matching_blocks_sound a b :
  ∃ blocks,
    difflib.get_matching_blocks a b =
      Some (blocks ++ [(length a, length b, 0)]) ∧
    StronglySorted block_before (blocks ++ [(length a, length b, 0)]) ∧
    Forall (block_matches a b) (blocks ++ [(length a, length b, 0)]) ∧
    Forall (block_in 0 (length a) 0 (length b))
      (blocks ++ [(length a, length b, 0)]).
Proof.
  destruct (get_matching_blocks_ok a b) as (res & Hres & Hin).
  revert Hres. unfold difflib.get_matching_blocks.
  destruct (gmb_loop_ok a b (difflib.chain_b b) (2 * length a + 1)
    [(0, length a, 0, length b)] []) as (blocks & Hloop & _).
  { apply Forall_singleton. simpl. lia. }
  { done. }
  { unfold queue_weight. simpl. lia. }
  rewrite Hloop. simpl.
  destruct (gmb_loop_sound a b (difflib.chain_b b) (chain_b_ok b)
    (2 * length a + 1) [(0, length a, 0, length b)] [] blocks)
    as (Hap & Hnz & Hm).
  { apply Forall_singleton. simpl. lia. }
  { simpl. split; [constructor|done]. }
  { constructor. }
  { constructor. }
  { exact Hloop. }
  destruct (collapse_sound a b (merge_sort difflib.Match_le blocks)
    ((0, 0, 0), [])) as (Hs & Hcur & Hna).
  { simpl. constructor.
    - apply sorted_chain.
      + apply StronglySorted_merge_sort; apply _.
      + eapply all_apart_perm; [|exact Hap].
        by rewrite merge_sort_Permutation.
      + by rewrite merge_sort_Permutation.
    - apply Forall_forall. intros y _. unfold block_before. simpl. lia. }
  { simpl. intros t Ht. lia. }
  { constructor. }
  { by rewrite merge_sort_Permutation. }
  destruct (foldl _ _ _) as [[[i1 j1] k1] na]. simpl in Hs, Hcur, Hna.
  intros [= <-]. eexists. split; [done|].
  assert (StronglySorted block_before
            (if decide (k1 ≠ 0) then na ++ [(i1, j1, k1)] else na)) as Hs'.
  { case_decide; [done|]. by apply StronglySorted_app_1_l in Hs. }
  assert (Forall (block_matches a b)
            (if decide (k1 ≠ 0) then na ++ [(i1, j1, k1)] else na)) as Hm'.
  { case_decide; [|done]. apply Forall_app. split; [done|].
    by apply Forall_singleton. }
  split; [|split; [|done]].
  - apply StronglySorted_app. split; [|split; [done|repeat constructor]].
    intros x1 x2 H1 ->%list_elem_of_singleton.
    apply Forall_app in Hin as [Hin _]. rewrite Forall_forall in Hin.
    specialize (Hin x1 H1). destruct x1 as [[i j] k].
    unfold block_before. simpl in *. lia.
  - apply Forall_app. split; [done|]. apply Forall_singleton.
    intros t Ht. lia.
Qed.

(** ** The opcodes cover both sequences *)

Lemma take_py_slice (s : str) (i1 i2 : nat) :
  i1 ≤ i2 → take i1 s ++ py_slice s i1 i2 = take i2 s.
Proof.
  intros. unfold py_slice. rewrite take_take_drop. f_equal. lia.
Qed.

Lemma py_slice_matches (a b : str) (i j k : nat) :
  block_matches a b (i, j, k) → py_slice a i (i + k) = py_slice b j (j + k).
Proof.
  intros H. unfold py_slice.
  replace (i + k - i) with k by lia. replace (j + k - j) with k by lia.
  apply list_eq. intros t. destruct (decide (t < k)).
  - rewrite !lookup_take_lt, !lookup_drop by done. by apply H.
  - by rewrite !lookup_take_ge by lia.
Qed.

Lemma tiles_snoc (a b : str) (i j i' j' : nat) (tag : string)
    (answer : list difflib.opcode) :
  i ≤ i' → j ≤ j' → tiles a b (i, j, answer) →
  tiles a b (i', j', answer ++ [(tag, i, i', j, j')]).
Proof.
  unfold tiles. simpl. intros Hi Hj [Ha Hb].
  rewrite !fmap_app, !concat_app, Ha, Hb. simpl. rewrite !app_nil_r.
  unfold ref_span, hyp_span. simpl. by rewrite !take_py_slice.
Qed.

Lemma equal_sound_snoc (a b : str) (oc : difflib.opcode)
    (answer : list difflib.opcode) :
  Forall (equal_sound a b) answer → equal_sound a b oc →
  Forall (equal_sound a b) (answer ++ [oc]).
Proof.
  intros. apply Forall_app. split; [done|]. by apply Forall_singleton.
Qed.

Lemma opcode_step_tiles (a b : str) (st : nat * nat * list difflib.opcode)
    (blk : difflib.Match) :
  st.1.1 ≤ blk.1.1 → st.1.2 ≤ blk.1.2 → block_matches a b blk →
  tiles a b st → Forall (equal_sound a b) st.2 →
  (difflib.opcode_step st blk).1 = (blk.1.1 + blk.2, blk.1.2 + blk.2) ∧
  tiles a b (difflib.opcode_step st blk) ∧
  Forall (equal_sound a b) (difflib.opcode_step st blk).2.
Proof.
  destruct st as [[i j] answer], blk as [[ai bj] size]. simpl.
  intros Hi Hj Hm Ht Heq.
  set (tag := if decide (i < ai ∧ j < bj) then "replace"
              else if decide (i < ai) then "delete"
              else if decide (j < bj) then "insert" else "").
  set (answer1 := if decide (tag ≠ "") then answer ++ [(tag, i, ai, j, bj)]
                  else answer).
  assert (tag ≠ "equal") as Htag.
  { unfold tag. repeat case_decide; done. }
  assert (tiles a b (ai, bj, answer1) ∧ Forall (equal_sound a b) answer1)
    as [Ht1 Heq1].
  { unfold answer1. case_decide as Hne.
    - split; [by apply tiles_snoc|]. apply equal_sound_snoc; [done|].
      intros Htag'. simpl in Htag'. done.
    - unfold tag in Hne.
      repeat case_decide; try done.
      assert (i = ai) as -> by lia. assert (j = bj) as -> by lia. done. }
  split; [done|]. case_decide as Hsize.
  - split.
    + apply tiles_snoc; [lia|lia|done].
    + apply equal_sound_snoc; [done|]. intros _.
      unfold ref_span, hyp_span. simpl. by apply py_slice_matches.
  - subst size. rewrite !Nat.add_0_r. done.
Qed.

Lemma opcodes_fold_tiles (a b : str) (blocks : list difflib.Match)
    (st : nat * nat * list difflib.opcode) :
  Forall (λ y, st.1.1 ≤ y.1.1 ∧ st.1.2 ≤ y.1.2) blocks →
  StronglySorted block_before blocks →
  Forall (block_matches a b) blocks →
  tiles a b st → Forall (equal_sound a b) st.2 →
  tiles a b (foldl difflib.opcode_step st blocks) ∧
  Forall (equal_sound a b) (foldl difflib.opcode_step st blocks).2.
Proof.
  revert st. induction blocks as [|blk blocks IH];
    intros st Hle Hs Hm Ht Heq; simpl; [done|].
  apply Forall_cons in Hle as [[Hi Hj] _].
  apply StronglySorted_cons in Hs as [Hb Hs].
  apply Forall_cons in Hm as [Hblk Hm].
  destruct (opcode_step_tiles a b st blk Hi Hj Hblk Ht Heq)
    as (Hpos & Ht' & Heq').
  apply IH; try done.
  eapply Forall_impl; [exact Hb|]. intros y. rewrite Hpos.
  unfold block_before. simpl. lia.
Qed.

Lemma opcodes_fold_end (st : nat * nat * list difflib.opcode)
    (blocks : list difflib.Match) (blk : difflib.Match) :
  (foldl difflib.opcode_step st (blocks ++ [blk])).1 =
  (blk.1.1 + blk.2, blk.1.2 + blk.2).
Proof.
  rewrite foldl_snoc. destruct (foldl _ _ _) as [[i j] answer].
  by destruct blk as [[ai bj] size].
Qed.

(** [get_opcodes] returns; its opcodes are well formed, their spans put
    end to end are [a] and [b], and the spans of an [equal] opcode are the
    same text. *)
Lemma get_opcodes_sound (a b : str) :
  ∃ opcodes, difflib.get_opcodes a b = Some opcodes ∧
    Forall (opcode_ok (length a) (length b)) opcodes ∧
    concat (ref_span a <$> opcodes) = a ∧
    concat (hyp_span b <$> opcodes) = b ∧
    Forall (equal_sound a b) opcodes.
Proof.
  destruct (get_matching_blocks_sound a b) as (blocks & Hres & Hs & Hm & Hin).
  unfold difflib.get_opcodes. rewrite Hres. simpl.
  eexists. split; [done|]. split; [by apply opcodes_of_blocks_ok|].
  unfold difflib.opcodes_of_blocks.
  destruct (opcodes_fold_tiles a b (blocks ++ [(length a, length b, 0)])
              (0, 0, [])) as [[Ha Hb] Heq]; try done.
  { apply Forall_forall. intros y _. simpl. lia. }
  rewrite opcodes_fold_end in Ha, Hb. simpl in Ha, Hb.
  rewrite Ha, Hb, !take_ge by lia. done.
Qed.

(** ** word_align: one block for each opcode *)

Lemma word_align_step_block (ref_str hyp_str : str) (ops : list WordEditOp)
    (oc : difflib.opcode) :
  opcode_ok (length ref_str) (length hyp_str) oc →
  word_align_step ref_str hyp_str ops oc =
    ops ++ [word_block ref_str hyp_str oc] ∧
  ref_words (word_block ref_str hyp_str oc) = py_split (ref_span ref_str oc) ∧
  hyp_words (word_block ref_str hyp_str oc) = py_split (hyp_span hyp_str oc) ∧
  (word_operation (word_block ref_str hyp_str oc) = "=" →
   oc.1.1.1.1 = "equal").
Proof.
  destruct oc as [[[[tag i1] i2] j1] j2]. simpl.
  intros (Hi2 & Hj2 & Htag). unfold word_block, ref_span, hyp_span. simpl.
  destruct Htag as [(-> & Hi & Hj)|[(-> & Hi & Hj)|[(-> & Hi & Hj)|
                    (-> & Hi & Hj)]]]; simpl.
  - done.
  - by rewrite (py_slice_empty hyp_str j1 j2).
  - by rewrite (py_slice_empty ref_str i1 i2).
  - done.
Qed.

Lemma ref_chars_cons (op : WordEditOp) (ops : list WordEditOp) :
  ref_chars (op :: ops) = concat (ref_words op) ++ ref_chars ops.
Proof. unfold ref_chars. by rewrite fmap_cons, concat_cons, concat_app. Qed.

Lemma hyp_chars_cons (op : WordEditOp) (ops : list WordEditOp) :
  hyp_chars (op :: ops) = concat (hyp_words op) ++ hyp_chars ops.
Proof. unfold hyp_chars. by rewrite fmap_cons, concat_cons, concat_app. Qed.

Lemma non_space_cons (c : char) (s : str) :
  non_space (c :: s) = if isspace c then non_space s else c :: non_space s.
Proof.
  unfold non_space. rewrite filter_cons.
  destruct (isspace c); [by rewrite decide_False|by rewrite decide_True].
Qed.

Lemma concat_split_from (cur s : str) :
  concat (split_from cur s) = cur ++ non_space s.
Proof.
  revert cur. induction s as [|c s IH]; intros cur.
  - simpl. case_decide as Hcur; simpl; [by subst|]. done.
  - rewrite non_space_cons. cbn [split_from]. destruct (isspace c).
    + case_decide as Hcur.
      * subst. by rewrite IH.
      * simpl. by rewrite IH.
    + rewrite IH, <- app_assoc. done.
Qed.

Lemma concat_py_split (s : str) : concat (py_split s) = non_space s.
Proof. apply concat_split_from. Qed.

Lemma non_space_app (s1 s2 : str) :
  non_space (s1 ++ s2) = non_space s1 ++ non_space s2.
Proof. apply filter_app. Qed.

Lemma non_space_idemp (s : str) : non_space (non_space s) = non_space s.
Proof.
  induction s as [|c s IH]; [done|].
  rewrite non_space_cons. destruct (isspace c) eqn:Hc; [done|].
  by rewrite non_space_cons, Hc, IH.
Qed.

Lemma non_space_join (ws : list str) :
  non_space (py_join space ws) = non_space (concat ws).
Proof.
  induction ws as [|w ws IH]; [done|].
  cbn [py_join concat]. destruct ws as [|w' ws].
  - simpl. by rewrite app_nil_r.
  - rewrite !non_space_app, IH. done.
Qed.

(** What [word_align] returns: the blocks of the opcodes of the two joined
    strings, with what is known of the opcodes. *)
Lemma word_align_blocks (ref_words0 hyp_words0 : list str) :
  ∃ opcodes,
    word_align ref_words0 hyp_words0 =
      Some (word_block (py_join space ref_words0) (py_join space hyp_words0)
              <$> opcodes) ∧
    Forall (opcode_ok (length (py_join space ref_words0))
              (length (py_join space hyp_words0))) opcodes ∧
    concat (ref_span (py_join space ref_words0) <$> opcodes) =
      py_join space ref_words0 ∧
    concat (hyp_span (py_join space hyp_words0) <$> opcodes) =
      py_join space hyp_words0 ∧
    Forall (equal_sound (py_join space ref_words0)
              (py_join space hyp_words0)) opcodes.
Proof.
  unfold word_align.
  destruct (get_opcodes_sound (py_join space ref_words0)
              (py_join space hyp_words0))
    as (opcodes & -> & Hok & Ha & Hb & Heq).
  simpl. exists opcodes. split; [|done]. f_equal.
  assert (∀ ops,
    foldl (word_align_step (py_join space ref_words0)
             (py_join space hyp_words0)) ops opcodes =
    ops ++ (word_block (py_join space ref_words0)
              (py_join space hyp_words0) <$> opcodes)) as H.
  { clear Ha Hb Heq.
    induction opcodes as [|oc opcodes IH]; intros ops; simpl.
    - by rewrite app_nil_r.
    - apply Forall_cons in Hok as [Hoc Hok].
      destruct (word_align_step_block _ _ ops oc Hoc) as (-> & _).
      rewrite IH by done. by rewrite <- app_assoc. }
  apply H.
Qed.

Lemma word_blocks_chars (ref_str hyp_str : str)
    (opcodes : list difflib.opcode) :
  Forall (opcode_ok (length ref_str) (length hyp_str)) opcodes →
  ref_chars (word_block ref_str hyp_str <$> opcodes) =
    non_space (concat (ref_span ref_str <$> opcodes)) ∧
  hyp_chars (word_block ref_str hyp_str <$> opcodes) =
    non_space (concat (hyp_span hyp_str <$> opcodes)).
Proof.
  induction 1 as [|oc opcodes Hoc Hok [IHr IHh]]; [done|].
  destruct (word_align_step_block ref_str hyp_str [] oc Hoc)
    as (_ & Hr & Hh & _).
  rewrite !fmap_cons, ref_chars_cons, hyp_chars_cons, !concat_cons.
  rewrite !non_space_app, IHr, IHh, Hr, Hh, !concat_py_split. done.
Qed.

(** X28.  The word aligner always returns, and a block it tags "=" holds
    the same tokens on both sides: what the word classifier skips is
    text the two pages share. *)
Theorem X28_equal_blocks_identical (ref_words0 hyp_words0 : list str) :
  ∃ ops, word_align ref_words0 hyp_words0 = Some ops ∧
    Forall (λ op, word_operation op = "=" → ref_words op = hyp_words op)
      ops.
Proof.
  destruct (word_align_blocks ref_words0 hyp_words0)
    as (opcodes & -> & Hok & _ & _ & Heq).
  eexists. split; [done|]. apply Forall_fmap.
  induction Hok as [|oc opcodes Hoc Hok IH]; [constructor|].
  apply Forall_cons in Heq as [Heq1 Heq]. constructor; [|by apply IH].
  simpl.
  destruct (word_align_step_block _ _ [] oc Hoc) as (_ & Hr & Hh & Htag).
  intros Hop. rewrite Hr, Hh. f_equal. apply Heq1. by apply Htag.
Qed.

(** X29.  The word aligner loses no character and invents none: the
    tokens of its blocks, put end to end, are the characters of the joined
    reference tokens that are not white space, in their order, and the
    same for the hypothesis.  A block may cut a token in two, but every
    character of it is in exactly one block. *)
Theorem X29_blocks_keep_every_character (ref_words0 hyp_words0 : list str) :
  ∃ ops, word_align ref_words0 hyp_words0 = Some ops ∧
    ref_chars ops = non_space (py_join space ref_words0) ∧
    hyp_chars ops = non_space (py_join space hyp_words0).
Proof.
  destruct (word_align_blocks ref_words0 hyp_words0)
    as (opcodes & -> & Hok & Ha & Hb & _).
  eexists. split; [done|].
  destruct (word_blocks_chars _ _ opcodes Hok) as [-> ->].
  by rewrite Ha, Hb.
Qed.

(** X30.  For the two pages as the orchestrator hands them over, split
    into tokens, the tokens of the word blocks put end to end are the
    page's own characters without the white space. *)
Theorem X30_page_blocks_spell_the_pages (ref_page hyp_page : str) :
  ∃ ops, word_align (py_split ref_page) (py_split hyp_page) = Some ops ∧
    ref_chars ops = non_space ref_page ∧
    hyp_chars ops = non_space hyp_page.
Proof.
  destruct (word_align_blocks (py_split ref_page) (py_split hyp_page))
    as (opcodes & -> & Hok & Ha & Hb & _).
  eexists. split; [done|].
  destruct (word_blocks_chars _ _ opcodes Hok) as [-> ->].
  rewrite Ha, Hb, !non_space_join, !concat_py_split, !non_space_idemp. done.
Qed.

(** * Checked examples *)

(** The examples of the specification. *)
Example align_abc_abc :
  levenshtein_align (u "abc") (u "abc") =
    Some [mkEditOp (u "a") (u "a") "="; mkEditOp (u "b") (u "b") "=";
          mkEditOp (u "c") (u "c") "="] ∧
  classify_char_errors
    [mkEditOp (u "a") (u "a") "="; mkEditOp (u "b") (u "b") "=";
     mkEditOp (u "c") (u "c") "="] = (∅, ∅).
Proof. split; vm_compute; reflexivity. Qed.

Example align_kot_kod :
  levenshtein_align (u "kot") (u "kod") =
    Some [mkEditOp (u "k") (u "k") "="; mkEditOp (u "o") (u "o") "=";
          mkEditOp (u "t") (u "d") "S"] ∧
  classify_char_errors
    [mkEditOp (u "k") (u "k") "="; mkEditOp (u "o") (u "o") "=";
     mkEditOp (u "t") (u "d") "S"] =
    ({["char_substitution" := 1]}, {[(u "t", u "d") := 1]}).
Proof. split; vm_compute; reflexivity. Qed.

Example align_empty_sides :
  levenshtein_align [] (u "ab") =
    Some [mkEditOp [] (u "a") "I"; mkEditOp [] (u "b") "I"] ∧
  levenshtein_align (u "ab") [] =
    Some [mkEditOp (u "a") [] "D"; mkEditOp (u "b") [] "D"] ∧
  levenshtein_align [] [] = Some [].
Proof. repeat split; vm_compute; reflexivity. Qed.

Example distance_kitten_sitting :
  levenshtein_distance (u "kitten") (u "sitting") = Some 3 ∧
  levenshtein_distance (u "sitting") (u "kitten") = Some 3.
Proof. split; vm_compute; reflexivity. Qed.

Example abbreviation_kralj :
  is_abbrev_expansion (u "kralj") (u "kraljevstvo") default_min_ratio = true ∧
  is_abbrev_expansion (u "dom") (u "kuca") default_min_ratio = false.
Proof. split; vm_compute; reflexivity. Qed.

Example classify_merge_then_delete :
  fst <$> classify_word_errors
            [mkWordEditOp [u "do"; u "mu"] [u "domu"] "S";
             mkWordEditOp [u "do"; u "mu"] [] "D"] =
  Some {["word_merge" := 1; "word_d" := 1]}.
Proof. vm_compute. reflexivity. Qed.

(** The matcher on the examples of the library's documentation and on
    inputs checked against the library. *)
Example matching_blocks_abcd :
  difflib.get_matching_blocks (u " abcd") (u "abcd abcd") =
  Some [(0, 4, 5); (5, 9, 0)].
Proof. vm_compute. reflexivity. Qed.

Example opcodes_qabxcd :
  difflib.get_opcodes (u "qabxcd") (u "abycdf") =
  Some [("delete", 0, 1, 0, 0); ("equal", 1, 3, 0, 2);
        ("replace", 3, 4, 2, 3); ("equal", 4, 6, 3, 5);
        ("insert", 6, 6, 5, 6)].
Proof. vm_compute. reflexivity. Qed.

Example opcodes_quick_brown_fox :
  difflib.get_opcodes (u "the quick brown fox") (u "the quikc brown  fox") =
  Some [("equal", 0, 7, 0, 7); ("insert", 7, 7, 7, 8); ("equal", 7, 8, 8, 9);
        ("delete", 8, 9, 9, 9); ("equal", 9, 16, 9, 16);
        ("insert", 16, 16, 16, 17); ("equal", 16, 19, 17, 20)].
Proof. vm_compute. reflexivity. Qed.

(** A hypothesis of more than 200 characters: every character of
    "abcdefgh " is popular there and only "x", "y", "z" are indexed. *)
Example opcodes_popular_characters :
  difflib.get_opcodes
    (concat (replicate 25 (u "abcdefgh ")))
    (concat (replicate 12 (u "abcdefgh ")) ++ u "xyz" ++
     concat (replicate 12 (u "abcdefgh "))) =
  Some [("equal", 0, 108, 0, 108); ("replace", 108, 225, 108, 219)].
Proof. vm_compute. reflexivity. Qed.

(** A merged word, seen by the word aligner: the separating space is a
    Delete block of its own, and the halves are equal blocks. *)
Example word_align_do_mu :
  word_align [u "do"; u "mu"] [u "domu"] =
  Some [mkWordEditOp [u "do"] [u "do"] "="; mkWordEditOp [] [] "D";
        mkWordEditOp [u "mu"] [u "mu"] "="].
Proof. vm_compute. reflexivity. Qed.

Example split_and_join :
  py_split (u "  ab  c d ") = [u "ab"; u "c"; u "d"] ∧
  py_join space [u "ab"; u "c"; u "d"] = u "ab c d" ∧
  py_strip (u "  ab  c d ") = u "ab  c d".
Proof. repeat split; vm_compute; reflexivity. Qed.

Example parse_pages_blank_lines_and_numbers :
  parse_pages [97; 32; 98; 10; 32; 10; 32; 99; 10; 49; 50; 46; 10; 100; 10]%N
  = [u "a b"; u "c"; u "d"].
Proof. vm_compute. reflexivity. Qed.

Example parse_pages_number_without_stop :
  parse_pages [112; 10; 56; 10; 113; 10; 46; 10; 114]%N =
  [[112; 10; 56; 10; 113; 10; 46; 10; 114]%N].
Proof. vm_compute. reflexivity. Qed.
